(** * The in-memory event bus of core/event

    A shallow embedding of [event/memory.go], [event/options.go],
    [event/typed.go] and the header helpers ([ContextWithHeaders],
    [HeadersFrom]) of package [events].

    - Go's [int] and [int64] are 64-bit two's complement numbers: they are
      embedded as [Z] and every increment is wrapped with [wrap_int].
    - A Go map is a reference: header maps live in a heap of maps and are
      passed around as locations, so aliasing and copying are visible.
    - Handlers and the error hook are Go closures with effects: they are
      state transformers over an abstract [World] that may read the heap of
      maps, and every invocation is recorded in an observation log (newest
      entry first).
    - A loop that may not terminate is cut off by fuel, and its result says
      whether it was left or is still running.
    - A channel is a FIFO buffer with a capacity and a closed flag; goroutines
      are interleaved by a step relation, in which [Subscribe], [Unsubscribe]
      and [Close] are single steps (they hold the bus lock), [Publish] is a
      step up to its [select] and a step for the [select], and a worker takes
      a step per receive, snapshot and handler attempt. *)

From Stdlib Require Import ZArith List Lia.
From stdpp Require Import gmap strings list fin_maps.

(** ** Machine integers *)

Definition max_int : Z := 9223372036854775807.
Definition min_int : Z := -9223372036854775808.

(** Signed 64-bit wrap-around, as Go defines integer overflow. *)
Definition wrap_int (z : Z) : Z :=
  ((z + 9223372036854775808) mod 18446744073709551616 - 9223372036854775808)%Z.

Definition in_int (z : Z) : Prop := (min_int ≤ z ≤ max_int)%Z.

(** ** Errors, dynamic values, contexts *)

(** The two sentinel errors of the package, the two errors a cancelled
    [context.Context] reports, and any other error a handler may return. *)
Inductive error : Type :=
  | ErrClosed
  | ErrNilHandler
  | Canceled
  | DeadlineExceeded
  | ErrorString (msg : string).

(** Concrete Go types a payload of static type [any] may carry. *)
Inductive GoType : Type := TInt | TString | TBool.

Global Instance GoType_eq_dec : EqDecision GoType.
Proof. solve_decision. Defined.

Definition interp (T : GoType) : Type :=
  match T with
  | TInt => Z
  | TString => string
  | TBool => bool
  end.

(** A value of type [any]: the nil interface or a dynamic type with a value. *)
Inductive any : Type :=
  | AnyNil
  | AnyVal (T : GoType) (v : interp T).

(** [v, ok := event.(T)] *)
Definition type_assert (T : GoType) (event : any) : option (interp T) :=
  match event with
  | AnyNil => None
  | AnyVal T' v =>
      match decide (T' = T) with
      | left e => Some (eq_rect T' interp v T e)
      | right _ => None
      end
  end.

(** Dynamic type of a payload, [None] for the nil interface. *)
Definition dyn_type (event : any) : option GoType :=
  match event with
  | AnyNil => None
  | AnyVal T _ => Some T
  end.

Definition loc := positive.

(** The heap of Go maps of type [map[string]string]. *)
Abbreviation Heap := (gmap loc (gmap string string)).

(** A map value: [nil] or a reference. *)
Abbreviation MapRef := (option loc).

(** [len(m)] for a map value; the length of a nil map is 0. *)
Definition map_len (heap : Heap) (m : MapRef) : nat :=
  match m with
  | None => 0
  | Some l => size (default ∅ (heap !! l))
  end.

(** A [context.Context] as this package uses it: the cancellation scope it
    belongs to ([ctx.Done()], [ctx.Err()]) and the value stored under the
    unexported key [metadataKey{}].  Scope 0 is [context.Background()]. *)
Record Context : Type := mkContext {
  ctx_scope : nat;
  ctx_headers : MapRef;
}.

Definition Background : Context := {| ctx_scope := 0; ctx_headers := None |}.

(** Which scopes are cancelled, and the error [ctx.Err()] reports for them. *)
Abbreviation Cancelled := (gmap nat error).

(** ** Observations *)

(** What the bus does that its environment can see.  The [tag] of an entry
    is the number of the [Publish] call it belongs to; the subscription id is
    the key of the subscription in the topic's map.  Neither is stored in the
    Go values: they only label log entries.

    - [ObsBegin]: the call passed the closed checks and reached its [select];
    - [ObsClosed]: the call returned [ErrClosed];
    - [ObsSent]: the send case of the [select] ran, the call returned [nil];
    - [ObsCancelled]: the [ctx.Done()] case ran, the call returned [ctx.Err()];
    - [ObsRecv]: a worker received the envelope from the topic's channel;
    - [ObsCall]: a handler was invoked, with its result;
    - [ObsHook]: the error hook was invoked. *)
Inductive Obs : Type :=
  | ObsBegin (tag : nat) (topicName : string)
  | ObsClosed (tag : nat)
  | ObsSent (topicName : string) (tag : nat)
  | ObsCancelled (tag : nat) (err : error)
  | ObsRecv (topicName : string) (tag : nat)
  | ObsCall (topicName : string) (tag : nat) (id : Z)
            (ctx : Context) (event : any) (res : option error)
  | ObsHook (topicName : string) (tag : nat) (id : Z)
            (ctx : Context) (event : any) (err : error).

Definition is_call (o : Obs) : bool :=
  match o with ObsCall _ _ _ _ _ _ => true | _ => false end.

Definition is_hook (o : Obs) : bool :=
  match o with ObsHook _ _ _ _ _ _ => true | _ => false end.

Definition is_call_of (id : Z) (o : Obs) : bool :=
  match o with ObsCall _ _ id' _ _ _ => bool_decide (id' = id) | _ => false end.

Definition is_hook_of (id : Z) (o : Obs) : bool :=
  match o with ObsHook _ _ id' _ _ _ => bool_decide (id' = id) | _ => false end.

Definition count_obs (p : Obs → bool) (log : list Obs) : nat :=
  length (List.filter p log).

(** ** Configuration ([options.go]) *)

Section Bus.

Context {World : Type}.

(** [type Handler func(ctx context.Context, event any) error] *)
Definition Handler : Type :=
  Context → any → Heap → World → option error * World.

(** [func(ctx context.Context, topic string, event any, err error)] *)
Definition ErrorHook : Type :=
  Context → string → any → error → Heap → World → World.

Record SubscribeConfig : Type := mkSubscribeConfig {
  Retries : Z;
}.

Definition SubscribeOption : Type := SubscribeConfig → SubscribeConfig.

Definition WithRetries (n : Z) : SubscribeOption :=
  fun c => if (0 <? n)%Z then {| Retries := n |} else c.

Record BusConfig : Type := mkBusConfig {
  BufferSize : Z;
  WorkersPerTopic : Z;
  OnError : option ErrorHook;
}.

Definition BusOption : Type := BusConfig → BusConfig.

Definition WithBuffer (size : Z) : BusOption :=
  fun c =>
    if (0 <? size)%Z
    then {| BufferSize := size; WorkersPerTopic := WorkersPerTopic c;
            OnError := OnError c |}
    else c.

Definition WithWorkers (n : Z) : BusOption :=
  fun c =>
    if (0 <? n)%Z
    then {| BufferSize := BufferSize c; WorkersPerTopic := n;
            OnError := OnError c |}
    else c.

Definition WithOnError (f : option ErrorHook) : BusOption :=
  fun c =>
    {| BufferSize := BufferSize c; WorkersPerTopic := WorkersPerTopic c;
       OnError := f |}.

(** [for _, opt := range opts { opt(&cfg) }] *)
Definition apply_opts {C : Type} (opts : list (C → C)) (cfg : C) : C :=
  fold_left (fun c opt => opt c) opts cfg.

Definition default_BusConfig : BusConfig :=
  {| BufferSize := 64; WorkersPerTopic := 1; OnError := None |}.

Definition default_SubscribeConfig : SubscribeConfig := {| Retries := 1 |}.

(** The options this package exports. *)
Inductive LibBusOption : BusOption → Prop :=
  | lib_WithBuffer size : in_int size → LibBusOption (WithBuffer size)
  | lib_WithWorkers n : in_int n → LibBusOption (WithWorkers n)
  | lib_WithOnError f : LibBusOption (WithOnError f).

Inductive LibSubscribeOption : SubscribeOption → Prop :=
  | lib_WithRetries n : in_int n → LibSubscribeOption (WithRetries n).

(** ** Dispatch of one envelope ([worker], lines 86-108) *)

Record subscription : Type := mkSubscription {
  handler : Handler;
  config : SubscribeConfig;
}.

Record item : Type := mkItem {
  item_ctx : Context;
  item_event : any;
}.

(** The state a worker acts on: the handlers' world and the log. *)
Definition wstate : Type := (World * list Obs)%type.

(** [sub.handler(item.ctx, item.event)] *)
Definition call_handler (topicName : string) (tag : nat) (heap : Heap)
    (it : item) (id : Z) (sub : subscription) (st : wstate)
    : option error * wstate :=
  let '(res, w') := handler sub (item_ctx it) (item_event it) heap st.1 in
  (res, (w', ObsCall topicName tag id (item_ctx it) (item_event it) res :: st.2)).

(** [b.cfg.OnError(item.ctx, topicName, item.event, lastErr)] *)
Definition call_hook (topicName : string) (tag : nat) (heap : Heap)
    (it : item) (id : Z) (f : ErrorHook) (err : error) (st : wstate) : wstate :=
  (f (item_ctx it) topicName (item_event it) err heap st.1,
   ObsHook topicName tag id (item_ctx it) (item_event it) err :: st.2).

(** [retries := sub.config.Retries; if retries <= 0 { retries = 1 }] *)
Definition effective_retries (sub : subscription) : Z :=
  if (Retries (config sub) <=? 0)%Z then 1%Z else Retries (config sub).

(** One evaluation of the guard and body of
    [for attempt := 1; attempt <= retries; attempt++].
    [inl (attempt', lastErr')]: the loop goes round again;
    [inr lastErr']: the loop is left. *)
Definition retry_iter (topicName : string) (tag : nat) (heap : Heap)
    (it : item) (id : Z) (sub : subscription)
    (retries attempt : Z) (lastErr : option error) (st : wstate)
    : (Z * option error + option error) * wstate :=
  if (attempt <=? retries)%Z then
    match call_handler topicName tag heap it id sub st with
    | (Some err, st') => (inl (wrap_int (attempt + 1), Some err), st')
    | (None, st') => (inr None, st')
    end
  else (inr lastErr, st).

(** The retry loop, cut off after [fuel] evaluations of its guard.  The
    first component is [Some lastErr] when the loop was left and [None] when
    it is still running. *)
Fixpoint retry_loop (fuel : nat) (topicName : string) (tag : nat) (heap : Heap)
    (it : item) (id : Z) (sub : subscription)
    (retries attempt : Z) (lastErr : option error) (st : wstate)
    : option (option error) * wstate :=
  match fuel with
  | O => (None, st)
  | S fuel' =>
      match retry_iter topicName tag heap it id sub retries attempt lastErr st with
      | (inl (attempt', lastErr'), st') =>
          retry_loop fuel' topicName tag heap it id sub retries attempt' lastErr' st'
      | (inr lastErr', st') => (Some lastErr', st')
      end
  end.

(** [if lastErr != nil && b.cfg.OnError != nil { b.cfg.OnError(...) }] *)
Definition report (cfg : BusConfig) (topicName : string) (tag : nat)
    (heap : Heap) (it : item) (id : Z) (lastErr : option error) (st : wstate)
    : wstate :=
  match lastErr, OnError cfg with
  | Some err, Some f => call_hook topicName tag heap it id f err st
  | _, _ => st
  end.

(** The body of [for _, sub := range subs] for one subscription.  The flag
    says whether the body ran to its end within [fuel]. *)
Definition worker_sub (fuel : nat) (cfg : BusConfig) (topicName : string)
    (tag : nat) (heap : Heap) (it : item) (s : Z * subscription) (st : wstate)
    : bool * wstate :=
  match retry_loop fuel topicName tag heap it s.1 s.2
                   (effective_retries s.2) 1 None st with
  | (Some lastErr, st') => (true, report cfg topicName tag heap it s.1 lastErr st')
  | (None, st') => (false, st')
  end.

(** [for _, sub := range subs { ... }] over the snapshot. *)
Fixpoint worker_item (fuel : nat) (cfg : BusConfig) (topicName : string)
    (tag : nat) (heap : Heap) (it : item) (subs : list (Z * subscription))
    (st : wstate) : bool * wstate :=
  match subs with
  | [] => (true, st)
  | s :: rest =>
      match worker_sub fuel cfg topicName tag heap it s st with
      | (true, st') => worker_item fuel cfg topicName tag heap it rest st'
      | (false, st') => (false, st')
      end
  end.

(** The world after [k] consecutive invocations of a subscription's handler
    on an envelope, and the result of the invocation that follows them. *)
Fixpoint world_after (heap : Heap) (it : item) (sub : subscription)
    (k : nat) (w : World) : World :=
  match k with
  | O => w
  | S k' =>
      world_after heap it sub k'
        (handler sub (item_ctx it) (item_event it) heap w).2
  end.

Definition nth_result (heap : Heap) (it : item) (sub : subscription)
    (k : nat) (w : World) : option error :=
  (handler sub (item_ctx it) (item_event it) heap (world_after heap it sub k w)).1.

(** The log entries of the first [m] consecutive invocations, newest first. *)
Definition attempt_log (name : string) (tag : nat) (heap : Heap) (it : item)
    (id : Z) (sub : subscription) (m : nat) (w : World) : list Obs :=
  rev (map (fun k => ObsCall name tag id (item_ctx it) (item_event it)
                             (nth_result heap it sub k w))
           (seq 0 m)).

(** ** Typed handlers ([typed.go]) *)

Definition TypedHandler (T : GoType) : Type :=
  Context → interp T → Heap → World → option error * World.

Definition AsHandler (T : GoType) (h : TypedHandler T) : Handler :=
  fun ctx event heap w =>
    match type_assert T event with
    | None => (None, w)
    | Some v => h ctx v heap w
    end.

(** ** The bus ([memory.go]) *)

(** [chan item]: the buffered envelopes (oldest first), each labelled with
    the number of the [Publish] call that sent it, the capacity given to
    [make], and whether [close] was called.  Every bus built from the
    package's options has capacity at least 1, so the rendezvous of an
    unbuffered channel is not modelled. *)
Record chan : Type := mkChan {
  chan_buf : list (nat * item);
  chan_cap : Z;
  chan_closed : bool;
}.

(** [make(chan item, size)]; the panic of [make] on a negative size is not
    modelled. *)
Definition make_chan (size : Z) : chan :=
  {| chan_buf := []; chan_cap := size; chan_closed := false |}.

(** Where a [worker] goroutine stands in its code:
    - [WIdle]: at [for item := range t.ch];
    - [WGot]: an envelope was received, the snapshot is not taken yet;
    - [WRange]: at [for _, sub := range subs], with the subscriptions left;
    - [WRetry]: at the guard of the retry loop of one subscription, with the
      locals [retries], [attempt] and [lastErr];
    - [WExit]: the channel was closed and drained, the goroutine returned. *)
Inductive wphase : Type :=
  | WIdle
  | WGot (tag : nat) (it : item)
  | WRange (tag : nat) (it : item) (rest : list (Z * subscription))
  | WRetry (tag : nat) (it : item) (s : Z * subscription)
           (retries attempt : Z) (lastErr : option error)
           (rest : list (Z * subscription))
  | WExit.

(** [pool] lists the goroutines started by [go b.worker(name, t)]. *)
Record topic : Type := mkTopic {
  ch : chan;
  workers : Z;
  subs : gmap Z subscription;
  nextID : Z;
  pool : list wphase;
}.

Record memoryBus : Type := mkBus {
  cfg : BusConfig;
  topics : gmap string topic;
  closed : bool;
}.

(** The handle of a subscription; the bus pointer is left out, there is one bus. *)
Record memorySub : Type := mkSub {
  sub_topic : string;
  sub_id : Z;
}.

Definition NewMemoryBus (opts : list BusOption) : memoryBus :=
  {| cfg := apply_opts opts default_BusConfig; topics := ∅; closed := false |}.

Definition set_topic (name : string) (t : topic) (b : memoryBus) : memoryBus :=
  {| cfg := cfg b; topics := <[name := t]> (topics b); closed := closed b |}.

Definition set_ch (c : chan) (t : topic) : topic :=
  {| ch := c; workers := workers t; subs := subs t; nextID := nextID t;
     pool := pool t |}.

Definition set_pool (p : list wphase) (t : topic) : topic :=
  {| ch := ch t; workers := workers t; subs := subs t; nextID := nextID t;
     pool := p |}.

(** The topic [ensureTopic] creates: its channel, its worker count and the
    goroutines of [for i := 0; i < t.workers; i++ { go b.worker(name, t) }]. *)
Definition new_topic (c : BusConfig) : topic :=
  {| ch := make_chan (BufferSize c);
     workers := WorkersPerTopic c;
     subs := ∅;
     nextID := 0;
     pool := replicate (Z.to_nat (WorkersPerTopic c)) WIdle |}.

(** [ensureTopic]: the bus afterwards and the topic returned ([None] for nil). *)
Definition ensureTopic (name : string) (b : memoryBus) : memoryBus * option topic :=
  if closed b then (b, None)
  else
    match topics b !! name with
    | Some t => (b, Some t)
    | None => let t := new_topic (cfg b) in (set_topic name t b, Some t)
    end.

Definition Subscribe (topicName : string) (h : option Handler)
    (opts : list SubscribeOption) (b : memoryBus)
    : memoryBus * (option memorySub * option error) :=
  match h with
  | None => (b, (None, Some ErrNilHandler))
  | Some h =>
      if closed b then (b, (None, Some ErrClosed))
      else
        match ensureTopic topicName b with
        | (b', None) => (b', (None, Some ErrClosed))
        | (b', Some t) =>
            let c := apply_opts opts default_SubscribeConfig in
            let id := wrap_int (nextID t + 1) in
            let t' := {| ch := ch t; workers := workers t;
                         subs := <[id := {| handler := h; config := c |}]> (subs t);
                         nextID := id; pool := pool t |} in
            (set_topic topicName t' b',
             (Some {| sub_topic := topicName; sub_id := id |}, None))
        end
  end.

(** [SubscribeTyped]: the adapter is a function value, never nil. *)
Definition SubscribeTyped (T : GoType) (topicName : string) (h : TypedHandler T)
    (opts : list SubscribeOption) (b : memoryBus)
    : memoryBus * (option memorySub * option error) :=
  Subscribe topicName (Some (AsHandler T h)) opts b.

Definition Unsubscribe (s : memorySub) (b : memoryBus) : memoryBus :=
  match topics b !! sub_topic s with
  | None => b
  | Some t =>
      set_topic (sub_topic s)
        {| ch := ch t; workers := workers t; subs := delete (sub_id s) (subs t);
           nextID := nextID t; pool := pool t |} b
  end.

Definition close_topic (t : topic) : topic :=
  set_ch {| chan_buf := chan_buf (ch t); chan_cap := chan_cap (ch t);
            chan_closed := true |} t.

Definition Close (b : memoryBus) : memoryBus * option error :=
  if closed b then (b, None)
  else ({| cfg := cfg b; topics := close_topic <$> topics b; closed := true |}, None).

(** ** Headers *)

(** [for k, v := range src { dst[k] = v }] *)
Definition copy_into (src dst : gmap string string) : gmap string string :=
  map_fold (fun k v acc => <[k := v]> acc) dst src.

Definition heap_get (heap : Heap) (m : MapRef) : gmap string string :=
  match m with
  | None => ∅
  | Some l => default ∅ (heap !! l)
  end.

Definition ContextWithHeaders (ctx : Context) (headers : MapRef) (heap : Heap)
    : Context * Heap :=
  if (map_len heap headers =? 0)%nat then (ctx, heap)
  else
    let cp := fresh (dom heap) in
    ({| ctx_scope := ctx_scope ctx; ctx_headers := Some cp |},
     <[cp := copy_into (heap_get heap headers) ∅]> heap).

(** [metadataKey] is unexported, so the value under it is always a
    [map[string]string] stored by [ContextWithHeaders]. *)
Definition HeadersFrom (ctx : Context) (heap : Heap) : MapRef * bool :=
  match ctx_headers ctx with
  | None => (None, false)
  | Some l => (Some l, (0 <? map_len heap (Some l))%nat)
  end.

Record PublishConfig : Type := mkPublishConfig {
  Headers : MapRef;
  Key : string;
}.

Definition PublishOption : Type := PublishConfig → Heap → PublishConfig * Heap.

Definition WithHeaders (headers : MapRef) : PublishOption :=
  fun c heap =>
    if (map_len heap headers =? 0)%nat then (c, heap)
    else
      let '(dst, heap1) :=
        match Headers c with
        | None => let l := fresh (dom heap) in (l, <[l := ∅]> heap)
        | Some l => (l, heap)
        end in
      ({| Headers := Some dst; Key := Key c |},
       <[dst := copy_into (heap_get heap1 headers) (heap_get heap1 (Some dst))]> heap1).

Definition WithKey (key : string) : PublishOption :=
  fun c heap => ({| Headers := Headers c; Key := key |}, heap).

Definition apply_publish_opts (opts : list PublishOption)
    (st : PublishConfig * Heap) : PublishConfig * Heap :=
  fold_left (fun st opt => opt st.1 st.2) opts st.

(** Options of a [Publish] call that passes [WithHeaders(headers)] once,
    among any number of [WithKey] options. *)
Definition headers_among_keys (keys1 : list string) (headers : MapRef)
    (keys2 : list string) : list PublishOption :=
  map WithKey keys1 ++ WithHeaders headers :: map WithKey keys2.

(** ** Publish *)

(** [Publish] up to its [select]: either it returns an error, or it has the
    topic and the envelope to send. *)
Definition publish_prefix (ctx : option Context) (topicName : string)
    (event : any) (opts : list PublishOption) (st : memoryBus * Heap)
    : (memoryBus * Heap) * (error + topic * item) :=
  let ctx := default Background ctx in
  if closed st.1 then (st, inl ErrClosed)
  else
    let '(pc, heap1) :=
      apply_publish_opts opts ({| Headers := None; Key := EmptyString |}, st.2) in
    let '(ctx1, heap2) :=
      if (0 <? map_len heap1 (Headers pc))%nat
      then ContextWithHeaders ctx (Headers pc) heap1
      else (ctx, heap1) in
    match ensureTopic topicName st.1 with
    | (b', None) => ((b', heap2), inl ErrClosed)
    | (b', Some t) => ((b', heap2), inr (t, {| item_ctx := ctx1; item_event := event |}))
    end.

Inductive select_result : Type :=
  | SelSent (c : chan)
  | SelDone (err : error)
  | SelPanic
  | SelBlocked.

(** A send can proceed when the buffer has room; on a closed channel it
    proceeds by panicking. *)
Definition send_ready (c : chan) : bool :=
  chan_closed c || (Z.of_nat (length (chan_buf c)) <? chan_cap c)%Z.

Definition chan_send (c : chan) (x : nat * item) : select_result :=
  if chan_closed c then SelPanic
  else SelSent {| chan_buf := chan_buf c ++ [x]; chan_cap := chan_cap c;
                  chan_closed := false |}.

(** [select { case topic.ch <- item: return nil; case <-ctx.Done(): return ctx.Err() }]
    [done] is [ctx.Err()] when the statement runs; when both cases can
    proceed Go takes one at random, here [pick_done] says which. *)
Definition publish_select (pick_done : bool) (c : chan) (x : nat * item)
    (done : option error) : select_result :=
  match send_ready c, done with
  | false, None => SelBlocked
  | false, Some e => SelDone e
  | true, None => chan_send c x
  | true, Some e => if pick_done then SelDone e else chan_send c x
  end.

Inductive publish_result : Type :=
  | PubReturned (err : option error)
  | PubPanic
  | PubBlocked.

(** [Publish] run without interruption; [tag] numbers the call. *)
Definition Publish (pick_done : bool) (cancelled : Cancelled) (tag : nat)
    (ctx : option Context) (topicName : string) (event : any)
    (opts : list PublishOption) (st : memoryBus * Heap)
    : (memoryBus * Heap) * publish_result :=
  match publish_prefix ctx topicName event opts st with
  | (st', inl e) => (st', PubReturned (Some e))
  | (st', inr (t, it)) =>
      match publish_select pick_done (ch t) (tag, it)
                           (cancelled !! ctx_scope (item_ctx it)) with
      | SelSent c' => ((set_topic topicName (set_ch c' t) st'.1, st'.2), PubReturned None)
      | SelDone e => (st', PubReturned (Some e))
      | SelPanic => (st', PubPanic)
      | SelBlocked => (st', PubBlocked)
      end
  end.

(** ** The running system *)

(** The bus with its goroutines, the heap of header maps, the cancellation
    state of the scopes, the handlers' world, the log, the [Publish] calls
    waiting at their [select] (by number, with topic name and envelope), the
    number of the next [Publish] call, and whether a goroutine panicked.
    Handlers and the hook act on the world only: they do not call back into
    the bus and do not write to header maps. *)
Record System : Type := mkSystem {
  sys_bus : memoryBus;
  sys_heap : Heap;
  sys_cancelled : Cancelled;
  sys_world : World;
  sys_log : list Obs;
  sys_pending : gmap nat (string * item);
  sys_next : nat;
  sys_panicked : bool;
}.

Definition init_system (opts : list BusOption) (heap : Heap) (w : World) : System :=
  mkSystem (NewMemoryBus opts) heap ∅ w [] ∅ 0 false.

(** One step of a [worker] goroutine of topic [name]: its place in the code,
    the topic's channel, and the world and log it acts on.  [sb] is the
    topic's subscription map at that moment; the order in which [range]
    walks it is not determined.  The snapshot keeps each subscription's key
    next to it, to label the log entries. *)
Inductive worker_step (c : BusConfig) (name : string) (heap : Heap)
    (sb : gmap Z subscription)
    : wphase * chan * wstate → wphase * chan * wstate → Prop :=
  | ws_recv tag it q cap cl st :
      worker_step c name heap sb
        (WIdle, mkChan ((tag, it) :: q) cap cl, st)
        (WGot tag it, mkChan q cap cl, (st.1, ObsRecv name tag :: st.2))
  | ws_exit cap st :
      worker_step c name heap sb
        (WIdle, mkChan [] cap true, st) (WExit, mkChan [] cap true, st)
  | ws_snapshot tag it snap q st :
      snap ≡ₚ map_to_list sb →
      worker_step c name heap sb (WGot tag it, q, st) (WRange tag it snap, q, st)
  | ws_range_done tag it q st :
      worker_step c name heap sb (WRange tag it [], q, st) (WIdle, q, st)
  | ws_range_next tag it s rest q st :
      worker_step c name heap sb
        (WRange tag it (s :: rest), q, st)
        (WRetry tag it s (effective_retries s.2) 1 None rest, q, st)
  | ws_retry_again tag it s retries attempt lastErr rest q st attempt' lastErr' st' :
      retry_iter name tag heap it s.1 s.2 retries attempt lastErr st
        = (inl (attempt', lastErr'), st') →
      worker_step c name heap sb
        (WRetry tag it s retries attempt lastErr rest, q, st)
        (WRetry tag it s retries attempt' lastErr' rest, q, st')
  | ws_retry_exit tag it s retries attempt lastErr rest q st lastErr' st' :
      retry_iter name tag heap it s.1 s.2 retries attempt lastErr st
        = (inr lastErr', st') →
      worker_step c name heap sb
        (WRetry tag it s retries attempt lastErr rest, q, st)
        (WRange tag it rest, q, report c name tag heap it s.1 lastErr' st').

(** One step of the system: a call of the API by some goroutine, the
    cancellation of a scope, the [select] of a waiting [Publish], or a step
    of a worker.  Nothing runs after a panic. *)
Inductive step : System → System → Prop :=
  | step_subscribe b heap can w log pend next name h opts :
      step (mkSystem b heap can w log pend next false)
           (mkSystem (Subscribe name h opts b).1 heap can w log pend next false)
  | step_unsubscribe b heap can w log pend next s :
      step (mkSystem b heap can w log pend next false)
           (mkSystem (Unsubscribe s b) heap can w log pend next false)
  | step_close b heap can w log pend next :
      step (mkSystem b heap can w log pend next false)
           (mkSystem (Close b).1 heap can w log pend next false)
  | step_cancel b heap can w log pend next scope e :
      scope ≠ 0 → can !! scope = None → e = Canceled ∨ e = DeadlineExceeded →
      step (mkSystem b heap can w log pend next false)
           (mkSystem b heap (<[scope := e]> can) w log pend next false)
  | step_publish_closed b heap can w log pend next ctx name event opts b' heap' e :
      publish_prefix ctx name event opts (b, heap) = ((b', heap'), inl e) →
      step (mkSystem b heap can w log pend next false)
           (mkSystem b' heap' can w (ObsClosed next :: log) pend (S next) false)
  | step_publish_begin b heap can w log pend next ctx name event opts b' heap' t it :
      publish_prefix ctx name event opts (b, heap) = ((b', heap'), inr (t, it)) →
      step (mkSystem b heap can w log pend next false)
           (mkSystem b' heap' can w (ObsBegin next name :: log)
                     (<[next := (name, it)]> pend) (S next) false)
  | step_select_sent b heap can w log pend next tag name it t pick c' :
      pend !! tag = Some (name, it) →
      topics b !! name = Some t →
      publish_select pick (ch t) (tag, it) (can !! ctx_scope (item_ctx it))
        = SelSent c' →
      step (mkSystem b heap can w log pend next false)
           (mkSystem (set_topic name (set_ch c' t) b) heap can w
                     (ObsSent name tag :: log) (delete tag pend) next false)
  | step_select_done b heap can w log pend next tag name it t pick e :
      pend !! tag = Some (name, it) →
      topics b !! name = Some t →
      publish_select pick (ch t) (tag, it) (can !! ctx_scope (item_ctx it))
        = SelDone e →
      step (mkSystem b heap can w log pend next false)
           (mkSystem b heap can w (ObsCancelled tag e :: log)
                     (delete tag pend) next false)
  | step_select_panic b heap can w log pend next tag name it t pick :
      pend !! tag = Some (name, it) →
      topics b !! name = Some t →
      publish_select pick (ch t) (tag, it) (can !! ctx_scope (item_ctx it))
        = SelPanic →
      step (mkSystem b heap can w log pend next false)
           (mkSystem b heap can w log pend next true)
  | step_worker b heap can w log pend next name t i ph ph' c' st' :
      topics b !! name = Some t →
      pool t !! i = Some ph →
      worker_step (cfg b) name heap (subs t) (ph, ch t, (w, log)) (ph', c', st') →
      step (mkSystem b heap can w log pend next false)
           (mkSystem (set_topic name (set_pool (<[i := ph']> (pool t)) (set_ch c' t)) b)
                     heap can st'.1 st'.2 pend next false).

Definition reachable (opts : list BusOption) (heap : Heap) (w : World)
    (s : System) : Prop :=
  rtc step (init_system opts heap w) s.

(** ** Reading the log *)

(** The tags sent to, and received from, a topic's channel, newest first. *)
Definition sent_tag (name : string) (o : Obs) : option nat :=
  match o with
  | ObsSent name' tag => if decide (name' = name) then Some tag else None
  | _ => None
  end.

Definition recv_tag (name : string) (o : Obs) : option nat :=
  match o with
  | ObsRecv name' tag => if decide (name' = name) then Some tag else None
  | _ => None
  end.

Definition sents (name : string) (log : list Obs) : list nat :=
  omap (sent_tag name) log.

Definition recvs (name : string) (log : list Obs) : list nat :=
  omap (recv_tag name) log.

(** A handler invocation for envelope [tag] on topic [name]. *)
Definition call_of (name : string) (tag : nat) (o : Obs) : Prop :=
  ∃ id ctx event res, o = ObsCall name tag id ctx event res.

(** The envelope a worker is dispatching. *)
Definition phase_tag (ph : wphase) : option nat :=
  match ph with
  | WGot tag _ | WRange tag _ _ | WRetry tag _ _ _ _ _ _ => Some tag
  | WIdle | WExit => None
  end.

(** [o1] was logged before [o2]. *)
Definition logged_before (o1 o2 : Obs) (log : list Obs) : Prop :=
  ∃ l1 l2 l3, log = l1 ++ o2 :: l2 ++ o1 :: l3.

(** An invocation of the handler of subscription [id], or of the hook for
    it, on envelope [it] with number [tag] of topic [name]. *)
Definition call_entry (name : string) (tag : nat) (it : item) (id : Z) (o : Obs) : Prop :=
  ∃ res, o = ObsCall name tag id (item_ctx it) (item_event it) res.

Definition hook_entry (name : string) (tag : nat) (it : item) (id : Z) (o : Obs) : Prop :=
  ∃ err, o = ObsHook name tag id (item_ctx it) (item_event it) err.

(** The [Publish] call an entry belongs to. *)
Definition obs_tag (o : Obs) : nat :=
  match o with
  | ObsBegin tag _ | ObsClosed tag | ObsSent _ tag | ObsCancelled tag _
  | ObsRecv _ tag | ObsCall _ tag _ _ _ _ | ObsHook _ tag _ _ _ _ => tag
  end.

(** A handler or hook invocation for envelope [tag] of topic [name]. *)
Definition delivery (name : string) (tag : nat) (o : Obs) : Prop :=
  match o with
  | ObsCall name' tag' _ _ _ _ | ObsHook name' tag' _ _ _ _ =>
      name' = name ∧ tag' = tag
  | _ => False
  end.

(** ** The queues and workers of a system, without the Go values *)

(** What the order of deliveries depends on: per topic, the tags in the
    channel (oldest first) and, per worker, the tag it is dispatching. *)
Definition tview : Type := (list nat * list (option nat))%type.

Definition topic_view (t : topic) : tview :=
  (map fst (chan_buf (ch t)), map phase_tag (pool t)).

Definition view (b : memoryBus) (name : string) : option tview :=
  topic_view <$> topics b !! name.

Record Abs : Type := mkAbs {
  a_view : string → option tview;
  a_log : list Obs;
  a_pend : gset nat;
  a_next : nat;
}.

Definition abs (s : System) : Abs :=
  mkAbs (view (sys_bus s)) (sys_log s) (dom (sys_pending s)) (sys_next s).

Definition veq (v v' : string → option tview) : Prop := ∀ n, v n = v' n.

Definition view_upd (v : string → option tview) (name : string) (x : tview)
    : string → option tview :=
  fun n => if decide (n = name) then Some x else v n.

(** A call that goes through [ensureTopic] leaves the queues and workers as
    they are or adds a topic with an empty queue and idle workers. *)
Definition same_or_created (v v' : string → option tview) : Prop :=
  veq v' v
  ∨ ∃ name k, v name = None ∧ veq v' (view_upd v name ([], replicate k None)).

(** The steps of the system as they act on queues, workers and log. *)
Inductive astep : Abs → Abs → Prop :=
  | as_stutter v v' l p n :
      veq v' v → astep (mkAbs v l p n) (mkAbs v' l p n)
  | as_create v v' l p n name k :
      v name = None → veq v' (view_upd v name ([], replicate k None)) →
      astep (mkAbs v l p n) (mkAbs v' l p n)
  | as_closed v l p n :
      astep (mkAbs v l p n) (mkAbs v (ObsClosed n :: l) p (S n))
  | as_begin v l p n name :
      astep (mkAbs v l p n) (mkAbs v (ObsBegin n name :: l) ({[n]} ∪ p) (S n))
  | as_sent v v' l p n name tag q ps :
      tag ∈ p → v name = Some (q, ps) →
      veq v' (view_upd v name (q ++ [tag], ps)) →
      astep (mkAbs v l p n) (mkAbs v' (ObsSent name tag :: l) (p ∖ {[tag]}) n)
  | as_cancelled v l p n tag e :
      tag ∈ p →
      astep (mkAbs v l p n) (mkAbs v (ObsCancelled tag e :: l) (p ∖ {[tag]}) n)
  | as_recv v v' l p n name tag q ps i :
      v name = Some (tag :: q, ps) → ps !! i = Some None →
      veq v' (view_upd v name (q, <[i := Some tag]> ps)) →
      astep (mkAbs v l p n) (mkAbs v' (ObsRecv name tag :: l) p n)
  | as_idle v v' l p n name q ps i :
      v name = Some (q, ps) →
      veq v' (view_upd v name (q, <[i := None]> ps)) →
      astep (mkAbs v l p n) (mkAbs v' l p n)
  | as_work v v' l p n name q ps i tag o :
      v name = Some (q, ps) → ps !! i = Some (Some tag) →
      delivery name tag o → veq v' v →
      astep (mkAbs v l p n) (mkAbs v' (o :: l) p n).

(** What holds of queues, workers and log in every state the system reaches:
    - every tag in the log is the number of a call already made;
    - a call waiting at its [select] has neither sent nor been cancelled;
    - no call both sent and was cancelled, none sent twice;
    - a topic's channel is a queue: the tags sent are the tags received
      followed by the tags still buffered, in the same order;
    - a worker dispatches a tag it received, and every delivery in the log is
      of a tag received from that topic's channel;
    - on a topic with one worker, a delivery is of the tag received last;
    - a call is logged as begun before anything else is logged for it. *)
Record AInv (a : Abs) : Prop := mkAInv {
  ai_tags : Forall (fun o => obs_tag o < a_next a) (a_log a);
  ai_pend : ∀ tag, tag ∈ a_pend a →
      tag < a_next a
      ∧ (∀ name, tag ∉ sents name (a_log a))
      ∧ (∀ e, ObsCancelled tag e ∉ a_log a);
  ai_excl : ∀ tag name e,
      tag ∈ sents name (a_log a) → ObsCancelled tag e ∉ a_log a;
  ai_nodup : ∀ name, NoDup (sents name (a_log a));
  ai_absent : ∀ name, a_view a name = None →
      sents name (a_log a) = [] ∧ recvs name (a_log a) = [];
  ai_fifo : ∀ name q ps, a_view a name = Some (q, ps) →
      sents name (a_log a) = rev q ++ recvs name (a_log a);
  ai_flight : ∀ name q ps tag, a_view a name = Some (q, ps) →
      Some tag ∈ ps → tag ∈ recvs name (a_log a);
  ai_calls : ∀ o name tag,
      o ∈ a_log a → delivery name tag o → tag ∈ recvs name (a_log a);
  ai_single : ∀ name q p, a_view a name = Some (q, [p]) →
      (∀ tag, p = Some tag → head (recvs name (a_log a)) = Some tag)
      ∧ (∀ l1 o l2 tag, a_log a = l1 ++ o :: l2 → delivery name tag o →
           head (recvs name l2) = Some tag);
  ai_begin : ∀ l1 tag name l2, a_log a = l1 ++ ObsBegin tag name :: l2 →
      Forall (fun o => obs_tag o < tag) l2;
}.

(** The envelopes buffered in a topic's channel; none when there is no topic. *)
Definition queue (b : memoryBus) (name : string) : list (nat * item) :=
  match topics b !! name with
  | Some t => chan_buf (ch t)
  | None => []
  end.

(** The same bus with other handlers: other subscriptions in every topic and
    another error hook. *)
Definition with_handlers (f : string → topic → gmap Z subscription)
    (hook : option ErrorHook) (b : memoryBus) : memoryBus :=
  {| cfg := {| BufferSize := BufferSize (cfg b);
               WorkersPerTopic := WorkersPerTopic (cfg b);
               OnError := hook |};
     topics := map_imap (fun name t =>
                 Some {| ch := ch t; workers := workers t; subs := f name t;
                         nextID := nextID t; pool := pool t |}) (topics b);
     closed := closed b |}.

(** A topic built by [ensureTopic] under configuration [c]. *)
Definition topic_ok (c : BusConfig) (t : topic) : Prop :=
  chan_cap (ch t) = BufferSize c
  ∧ workers t = WorkersPerTopic c
  ∧ length (pool t) = Z.to_nat (workers t).

Definition bus_ok (c : BusConfig) (b : memoryBus) : Prop :=
  cfg b = c ∧ ∀ name t, topics b !! name = Some t → topic_ok c t.

(** ** Subscription ids *)

(** The keys of a topic's subscription map were handed out by its counter:
    they lie between 1 and [nextID]. *)
Definition ids_ok (t : topic) : Prop :=
  (0 ≤ nextID t)%Z ∧ ∀ id, id ∈ dom (subs t) → (1 ≤ id ≤ nextID t)%Z.

(** ** The options of NewMemoryBus *)

(** A list of options of this package, [WithBuffer], [WithWorkers] and
    [WithOnError] in any order, with the arguments given to each kind, in
    the order given. *)
Inductive lib_bus_opts
    : list BusOption → list Z → list Z → list (option ErrorHook) → Prop :=
  | lbo_nil : lib_bus_opts [] [] [] []
  | lbo_buffer n opts bs ws hs :
      lib_bus_opts opts bs ws hs →
      lib_bus_opts (WithBuffer n :: opts) (n :: bs) ws hs
  | lbo_workers n opts bs ws hs :
      lib_bus_opts opts bs ws hs →
      lib_bus_opts (WithWorkers n :: opts) bs (n :: ws) hs
  | lbo_hook f opts bs ws hs :
      lib_bus_opts opts bs ws hs →
      lib_bus_opts (WithOnError f :: opts) bs ws (f :: hs).

(** ** The options of a Publish call *)

(** A list of options of this package, [WithHeaders] and [WithKey] in any
    order, with the arguments of its [WithHeaders] options in the order
    given. *)
Inductive lib_publish_opts : list PublishOption → list MapRef → Prop :=
  | lpo_nil : lib_publish_opts [] []
  | lpo_headers m opts ms :
      lib_publish_opts opts ms →
      lib_publish_opts (WithHeaders m :: opts) (m :: ms)
  | lpo_key key opts ms :
      lib_publish_opts opts ms → lib_publish_opts (WithKey key :: opts) ms.

(** A map value a caller can hold: nil or a map of the heap. *)
Definition valid_ref (heap : Heap) (m : MapRef) : Prop :=
  match m with
  | None => True
  | Some l => l ∈ dom heap
  end.

(** ** What a call leaves as it is *)

(** The footprint of [Subscribe], [Unsubscribe] and [Publish] up to its
    [select]: configuration and closed flag are kept, no topic is removed,
    and every topic has the channel and the workers it had, or is a topic
    [ensureTopic] has just made on an open bus. *)
Definition kept (b b' : memoryBus) : Prop :=
  cfg b' = cfg b ∧ closed b' = closed b
  ∧ (∀ n, topics b' !! n = None → topics b !! n = None)
  ∧ ∀ n t', topics b' !! n = Some t' →
      ∃ t, (topics b !! n = Some t
            ∨ (closed b = false ∧ topics b !! n = None ∧ t = new_topic (cfg b)))
           ∧ ch t' = ch t ∧ pool t' = pool t.

(** ** Shutdown *)

(** A topic's channel is closed exactly when the bus is, and a worker has
    returned only on a closed bus with nothing left in the channel. *)
Definition shut_ok (b : memoryBus) : Prop :=
  ∀ name t, topics b !! name = Some t →
    chan_closed (ch t) = closed b
    ∧ (WExit ∈ pool t → closed b = true ∧ chan_buf (ch t) = []).

(** What [Close] and the end of [for item := range t.ch] keep; moreover a
    send has panicked only on a closed bus, and [context.Background()] is
    never cancelled. *)
Record SInv (s : System) : Prop := mkSInv {
  si_shut : shut_ok (sys_bus s);
  si_panic : sys_panicked s = true → closed (sys_bus s) = true;
  si_background : sys_cancelled s !! 0 = None;
}.

(** No channel holds more envelopes than its capacity. *)
Definition bounded (b : memoryBus) : Prop :=
  (0 ≤ BufferSize (cfg b))%Z
  ∧ ∀ name t, topics b !! name = Some t →
      (Z.of_nat (length (chan_buf (ch t))) ≤ chan_cap (ch t))%Z.

(** ** Envelopes on their way *)

(** The envelope a worker is dispatching, with its number. *)
Definition phase_item (ph : wphase) : option (nat * item) :=
  match ph with
  | WGot tag it | WRange tag it _ | WRetry tag it _ _ _ _ _ => Some (tag, it)
  | WIdle | WExit => None
  end.

(** The topic and envelope a log entry names, where it names both. *)
Definition obs_item (o : Obs) : option (nat * (string * item)) :=
  match o with
  | ObsCall name tag _ ctx event _ | ObsHook name tag _ ctx event _ =>
      Some (tag, (name, {| item_ctx := ctx; item_event := event |}))
  | _ => None
  end.

(** The topic a log entry names, where it names one. *)
Definition obs_topic (o : Obs) : option (nat * string) :=
  match o with
  | ObsBegin tag name | ObsSent name tag | ObsRecv name tag
  | ObsCall name tag _ _ _ _ | ObsHook name tag _ _ _ _ => Some (tag, name)
  | ObsClosed _ | ObsCancelled _ _ => None
  end.

(** The envelopes in the channels and in the workers' hands are those
    recorded in [m], under their numbers and on their topics. *)
Definition carried (m : gmap nat (string * item)) (b : memoryBus) : Prop :=
  ∀ name t, topics b !! name = Some t →
    (∀ tag it, (tag, it) ∈ chan_buf (ch t) → m !! tag = Some (name, it))
    ∧ (∀ ph tag it, ph ∈ pool t → phase_item ph = Some (tag, it) →
         m !! tag = Some (name, it)).

(** [m] records, for every [Publish] call that reached its [select], the
    topic and the envelope it built; the calls waiting, the channels, the
    workers and the log all agree with it. *)
Record Consistent (m : gmap nat (string * item)) (s : System) : Prop := mkConsistent {
  co_next : ∀ tag x, m !! tag = Some x → tag < sys_next s;
  co_pend : ∀ tag x, sys_pending s !! tag = Some x → m !! tag = Some x;
  co_carried : carried m (sys_bus s);
  co_log : ∀ o tag x, o ∈ sys_log s → obs_item o = Some (tag, x) → m !! tag = Some x;
  co_topic : ∀ o tag name, o ∈ sys_log s → obs_topic o = Some (tag, name) →
      ∃ it, m !! tag = Some (name, it);
}.

(** The tags of the envelopes the workers of a topic are dispatching. *)
Definition in_flight (ps : list (option nat)) : list nat := omap id ps.

(** * Properties *)

(** ** Machine integers *)

Lemma wrap_int_id (z : Z) : in_int z → wrap_int z = z.
Proof.
  unfold in_int, wrap_int, min_int, max_int. intros Hz.
  rewrite Z.mod_small; lia.
Qed.

Lemma wrap_int_in_int (z : Z) : in_int (wrap_int z).
Proof.
  unfold in_int, wrap_int, min_int, max_int.
  pose proof (Z.mod_pos_bound (z + 9223372036854775808) 18446744073709551616).
  lia.
Qed.

(** ** The typed adapter *)

Lemma type_assert_same T (v : interp T) : type_assert T (AnyVal T v) = Some v.
Proof.
  unfold type_assert. destruct (decide (T = T)) as [e|]; [|done].
  by rewrite (proof_irrel e eq_refl).
Qed.

Lemma type_assert_other T (event : any) :
  dyn_type event ≠ Some T → type_assert T event = None.
Proof.
  destruct event as [|T' v]; simpl; [done|].
  intros Hne. destruct (decide (T' = T)); [congruence|done].
Qed.

(** C8.  The handler [AsHandler T h] returns nil and leaves the world as it
    is, whatever [h] is, when the payload is not a [T]; when the payload is
    the [T] value [v], it is the invocation of [h] on [v]. *)
Theorem AsHandler_type_dispatch (T : GoType) (h : TypedHandler T)
    (ctx : Context) (event : any) (heap : Heap) (w : World) :
  (dyn_type event ≠ Some T → AsHandler T h ctx event heap w = (None, w)) ∧
  (∀ v : interp T, event = AnyVal T v →
     AsHandler T h ctx event heap w = h ctx v heap w).
Proof.
  split.
  - intros Hne. unfold AsHandler. by rewrite type_assert_other.
  - intros v ->. unfold AsHandler. by rewrite type_assert_same.
Qed.

(** ** The retry loop *)

Lemma effective_retries_pos (sub : subscription) : (1 ≤ effective_retries sub)%Z.
Proof. unfold effective_retries. case_eq (Retries (config sub) <=? 0)%Z; lia. Qed.

Lemma nth_result_S heap it sub k w :
  nth_result heap it sub (S k) w
  = nth_result heap it sub k (handler sub (item_ctx it) (item_event it) heap w).2.
Proof. done. Qed.

Lemma attempt_log_S name tag heap it id sub m w :
  attempt_log name tag heap it id sub (S m) w
  = attempt_log name tag heap it id sub m
      (handler sub (item_ctx it) (item_event it) heap w).2
    ++ [ObsCall name tag id (item_ctx it) (item_event it)
                (nth_result heap it sub 0 w)].
Proof.
  unfold attempt_log. rewrite <- cons_seq. simpl. f_equal.
  rewrite <- seq_shift, map_map. done.
Qed.

Lemma attempt_log_last name tag heap it id sub m w :
  attempt_log name tag heap it id sub (S m) w
  = ObsCall name tag id (item_ctx it) (item_event it) (nth_result heap it sub m w)
    :: attempt_log name tag heap it id sub m w.
Proof.
  unfold attempt_log. replace (S m) with (m + 1) by lia.
  rewrite seq_app, map_app, rev_app_distr. done.
Qed.

Lemma attempt_log_length name tag heap it id sub m w :
  length (attempt_log name tag heap it id sub m w) = m.
Proof. unfold attempt_log. by rewrite length_rev, length_map, length_seq. Qed.

Lemma attempt_log_calls name tag heap it id sub m w :
  Forall (fun o => is_call_of id o = true) (attempt_log name tag heap it id sub m w).
Proof.
  unfold attempt_log. apply Forall_rev, Forall_map, Forall_forall.
  intros k _. simpl. by apply bool_decide_eq_true.
Qed.

Lemma count_obs_app p l1 l2 : count_obs p (l1 ++ l2) = count_obs p l1 + count_obs p l2.
Proof. unfold count_obs. by rewrite List.filter_app, length_app. Qed.

Lemma count_obs_cons p o l :
  count_obs p (o :: l) = (if p o then 1 else 0) + count_obs p l.
Proof. unfold count_obs. simpl. by destruct (p o). Qed.

Lemma count_obs_all p l : Forall (fun o => p o = true) l → count_obs p l = length l.
Proof.
  unfold count_obs. induction 1 as [|o l Ho _ IH]; simpl; [done|].
  rewrite Ho. simpl. by rewrite IH.
Qed.

Lemma count_obs_none p l : Forall (fun o => p o = false) l → count_obs p l = 0.
Proof.
  unfold count_obs. induction 1 as [|o l Ho _ IH]; simpl; [done|].
  by rewrite Ho.
Qed.

Lemma attempt_log_count_calls name tag heap it id sub m w :
  count_obs (is_call_of id) (attempt_log name tag heap it id sub m w) = m.
Proof.
  rewrite count_obs_all by apply attempt_log_calls. apply attempt_log_length.
Qed.

Lemma attempt_log_count_hooks name tag heap it id sub m w id' :
  count_obs (is_hook_of id') (attempt_log name tag heap it id sub m w) = 0.
Proof.
  apply count_obs_none. unfold attempt_log.
  apply Forall_rev, Forall_map, Forall_forall. by intros k _.
Qed.

(** [m] failing attempts in a row take the loop [m] rounds further, as long
    as the counter stays within the budget and below the largest [int]. *)
Lemma retry_loop_failures name tag heap it id sub retries :
  ∀ (m fuel : nat) (a : Z) (lastErr : option error) (st : wstate),
    (∀ k, k < m → nth_result heap it sub k st.1 ≠ None) →
    (1 ≤ a)%Z → (a + Z.of_nat m - 1 ≤ retries)%Z → (a + Z.of_nat m - 1 < max_int)%Z →
    retry_loop (m + fuel) name tag heap it id sub retries a lastErr st
    = retry_loop fuel name tag heap it id sub retries (a + Z.of_nat m)
        (match m with
         | O => lastErr
         | S m' => nth_result heap it sub m' st.1
         end)
        (world_after heap it sub m st.1,
         attempt_log name tag heap it id sub m st.1 ++ st.2).
Proof.
  induction m as [|m IH]; intros fuel a lastErr [w log] Hfail Ha Hle Hmax.
  - simpl. by rewrite Z.add_0_r.
  - simpl in *.
    assert (Hguard : (a <=? retries)%Z = true) by (apply Z.leb_le; lia).
    unfold retry_iter, call_handler. rewrite Hguard. simpl.
    pose proof (Hfail 0 ltac:(lia)) as H0. unfold nth_result in H0. simpl in H0.
    destruct (handler sub (item_ctx it) (item_event it) heap w) as [res w1] eqn:Hh.
    simpl in *. destruct res as [err|]; [|done].
    rewrite wrap_int_id by (unfold in_int, min_int, max_int in *; lia).
    rewrite (IH fuel (a + 1)%Z (Some err) (w1, _)); simpl.
    + rewrite attempt_log_S, Hh. simpl. rewrite <- app_assoc. simpl.
      f_equal; [lia| |].
      * destruct m as [|m']; [|by rewrite nth_result_S, Hh].
        unfold nth_result. simpl. by rewrite Hh.
      * unfold nth_result. simpl. by rewrite Hh.
    + intros k Hk. specialize (Hfail (S k) ltac:(lia)).
      by rewrite nth_result_S, Hh in Hfail.
    + lia.
    + lia.
    + lia.
Qed.

(** With the largest [int] as budget the guard [attempt <= retries] holds
    for every value of the counter: a handler that never succeeds keeps the
    loop running, whatever the number of rounds. *)
Lemma retry_loop_max_int_runs name tag heap it id sub :
  (∀ w, (handler sub (item_ctx it) (item_event it) heap w).1 ≠ None) →
  ∀ (fuel : nat) (a : Z) (lastErr : option error) (st : wstate),
    in_int a →
    ∃ st', retry_loop fuel name tag heap it id sub max_int a lastErr st = (None, st')
           ∧ count_obs (is_call_of id) st'.2 = fuel + count_obs (is_call_of id) st.2
           ∧ count_obs (is_hook_of id) st'.2 = count_obs (is_hook_of id) st.2.
Proof.
  intros Hfail. induction fuel as [|fuel IH]; intros a lastErr [w log] Ha.
  - eexists. simpl. done.
  - simpl. unfold retry_iter, call_handler.
    assert (Hguard : (a <=? max_int)%Z = true) by (apply Z.leb_le; apply Ha).
    rewrite Hguard. simpl. specialize (Hfail w).
    destruct (handler sub (item_ctx it) (item_event it) heap w) as [res w1].
    simpl in Hfail. destruct res as [err|]; [|done].
    destruct (IH (wrap_int (a + 1)) (Some err)
                 (w1, ObsCall name tag id (item_ctx it) (item_event it) (Some err) :: log)
                 (wrap_int_in_int _)) as (st' & -> & Hc & Hh).
    exists st'. split; [done|]. rewrite Hc, Hh. unfold count_obs. simpl.
    rewrite bool_decide_eq_true_2 by done. simpl. split; [lia|done].
Qed.

Lemma worker_sub_exhausted c name tag heap it (s : Z * subscription) (st : wstate)
    (n fuel : nat) :
  effective_retries s.2 = Z.of_nat n → (Z.of_nat n < max_int)%Z →
  (∀ k, k < n → nth_result heap it s.2 k st.1 ≠ None) →
  n < fuel →
  worker_sub fuel c name tag heap it s st
  = (true,
     report c name tag heap it s.1 (nth_result heap it s.2 (n - 1) st.1)
       (world_after heap it s.2 n st.1,
        attempt_log name tag heap it s.1 s.2 n st.1 ++ st.2)).
Proof.
  intros Hn Hmax Hfail Hfuel.
  pose proof (effective_retries_pos s.2) as Hpos.
  unfold worker_sub. rewrite Hn.
  replace fuel with (n + S (fuel - S n)) by lia.
  rewrite retry_loop_failures by (try done; lia).
  simpl. unfold retry_iter.
  assert (Hguard : (1 + Z.of_nat n <=? Z.of_nat n)%Z = false) by (apply Z.leb_gt; lia).
  rewrite Hguard. destruct n as [|n']; [lia|].
  simpl. by rewrite Nat.sub_0_r.
Qed.

Lemma worker_sub_succeeds c name tag heap it (s : Z * subscription) (st : wstate)
    (k fuel : nat) :
  (effective_retries s.2 ≤ max_int)%Z →
  (1 ≤ Z.of_nat k ≤ effective_retries s.2)%Z →
  (∀ j, j < k - 1 → nth_result heap it s.2 j st.1 ≠ None) →
  nth_result heap it s.2 (k - 1) st.1 = None →
  k ≤ fuel →
  worker_sub fuel c name tag heap it s st
  = (true,
     (world_after heap it s.2 k st.1,
      attempt_log name tag heap it s.1 s.2 k st.1 ++ st.2)).
Proof.
  intros Hbudget Hk Hfail Hok Hfuel.
  destruct k as [|k]; [lia|]. simpl in Hfail, Hok. rewrite Nat.sub_0_r in *.
  unfold worker_sub.
  replace fuel with (k + S (fuel - S k)) by lia.
  rewrite retry_loop_failures by (try done; lia).
  simpl. unfold retry_iter, call_handler.
  assert (Hguard : (1 + Z.of_nat k <=? effective_retries s.2)%Z = true)
    by (apply Z.leb_le; lia).
  rewrite Hguard. simpl.
  unfold nth_result in Hok.
  destruct (handler s.2 (item_ctx it) (item_event it) heap
              (world_after heap it s.2 k st.1)) as [res w'] eqn:Hh.
  simpl in Hok. subst res. unfold report. simpl.
  f_equal. f_equal.
  - clear -Hh. revert Hh. generalize (st.1). induction k as [|k IH]; intros w Hh.
    + simpl in *. by rewrite Hh.
    + simpl in *. by apply IH.
  - rewrite attempt_log_last. simpl. do 2 f_equal.
    unfold nth_result. by rewrite Hh.
Qed.


(** The loop only adds invocations of the subscription's handler on the
    envelope to the log, and the hook at most one entry. *)

Lemma retry_iter_log name tag heap it id sub retries a lastErr (st : wstate) r st' :
  retry_iter name tag heap it id sub retries a lastErr st = (r, st') →
  st' = st ∨ ∃ res, st'.2 = ObsCall name tag id (item_ctx it) (item_event it) res :: st.2.
Proof.
  unfold retry_iter, call_handler. destruct st as [w log]. simpl.
  destruct (a <=? retries)%Z; [|intros [= <- <-]; by left].
  destruct (handler sub (item_ctx it) (item_event it) heap w) as [[err|] w1];
    intros [= <- <-]; right; by eexists.
Qed.

Lemma retry_loop_log name tag heap it id sub retries :
  ∀ (fuel : nat) (a : Z) (lastErr : option error) (st : wstate) r st',
    retry_loop fuel name tag heap it id sub retries a lastErr st = (r, st') →
    ∃ new, st'.2 = new ++ st.2 ∧ Forall (call_entry name tag it id) new.
Proof.
  induction fuel as [|fuel IH]; intros a lastErr [w log] r st'; simpl.
  - intros [= <- <-]. by exists [].
  - unfold retry_iter, call_handler.
    destruct (a <=? retries)%Z; [|intros [= <- <-]; by exists []].
    simpl.
    destruct (handler sub (item_ctx it) (item_event it) heap w) as [[err|] w1]; simpl.
    + intros Hloop. apply IH in Hloop as (new & -> & Hnew). simpl.
      exists (new ++ [ObsCall name tag id (item_ctx it) (item_event it) (Some err)]).
      rewrite <- app_assoc. split; [done|].
      apply Forall_app. split; [done|]. apply Forall_singleton. by eexists.
    + intros [= <- <-]. exists [ObsCall name tag id (item_ctx it) (item_event it) None].
      split; [done|]. apply Forall_singleton. by eexists.
Qed.

Lemma report_log c name tag heap it id lastErr (st : wstate) :
  ∃ new, (report c name tag heap it id lastErr st).2 = new ++ st.2
         ∧ Forall (hook_entry name tag it id) new.
Proof.
  unfold report, call_hook. destruct lastErr as [e|], (OnError c) as [f|]; simpl;
    first [by exists [] | eexists [_]; split; [done|]; apply Forall_singleton; by eexists].
Qed.

(** Whatever its configuration, a subscription's handler is invoked as the
    first thing the worker does for it. *)
Lemma worker_sub_first_call (fuel : nat) c name tag heap it (s : Z * subscription)
    (st : wstate) :
  ∃ new res,
    (worker_sub (S fuel) c name tag heap it s st).2.2
    = new ++ ObsCall name tag s.1 (item_ctx it) (item_event it) res :: st.2.
Proof.
  unfold worker_sub. simpl. unfold retry_iter, call_handler.
  assert (Hguard : (1 <=? effective_retries s.2)%Z = true)
    by (apply Z.leb_le, effective_retries_pos).
  rewrite Hguard. destruct st as [w log]. simpl.
  destruct (handler s.2 (item_ctx it) (item_event it) heap w) as [[err|] w1]; simpl.
  - match goal with |- context [retry_loop fuel ?n ?t ?h ?i ?d ?sb ?r ?a ?e ?s0] =>
      destruct (retry_loop fuel n t h i d sb r a e s0) as [[lastErr|] st'] eqn:Hloop
    end; apply retry_loop_log in Hloop as (new & Hnew & _); simpl in *.
    + destruct (report_log c name tag heap it s.1 lastErr st') as (new' & -> & _).
      rewrite Hnew. exists (new' ++ new), (Some err). by rewrite <- app_assoc.
    + rewrite Hnew. by exists new, (Some err).
  - by exists [], None.
Qed.

(** Either the first [n] invocations all fail, or there is a first one that
    succeeds. *)
Lemma first_success heap it sub (w : World) (n : nat) :
  (∀ k, k < n → nth_result heap it sub k w ≠ None)
  ∨ (∃ k, k < n ∧ nth_result heap it sub k w = None
          ∧ ∀ j, j < k → nth_result heap it sub j w ≠ None).
Proof.
  induction n as [|n [IH|(k & Hk & Hok & Hfail)]].
  - left. intros k Hk. lia.
  - destruct (nth_result heap it sub n w) as [e|] eqn:Hn.
    + left. intros k Hk. destruct (decide (k = n)) as [->|]; [by rewrite Hn|].
      apply IH. lia.
    + right. exists n. split; [lia|]. split; [done|]. intros j Hj. by apply IH.
  - right. exists k. split; [lia|]. done.
Qed.

(** Below the largest [int] the body for one subscription runs to its end,
    after at least one and at most [n] invocations. *)
Lemma worker_sub_total c name tag heap it (s : Z * subscription) (st : wstate)
    (n fuel : nat) :
  effective_retries s.2 = Z.of_nat n → (Z.of_nat n < max_int)%Z → n < fuel →
  ∃ st' new,
    worker_sub fuel c name tag heap it s st = (true, st')
    ∧ st'.2 = new ++ st.2
    ∧ 1 ≤ count_obs (is_call_of s.1) new ≤ n.
Proof.
  intros Hn Hmax Hfuel.
  pose proof (effective_retries_pos s.2) as Hpos.
  destruct (first_success heap it s.2 st.1 n) as [Hfail|(k & Hk & Hok & Hfail)].
  - rewrite (worker_sub_exhausted c name tag heap it s st n fuel) by done.
    eexists. destruct (report_log c name tag heap it s.1
      (nth_result heap it s.2 (n - 1) st.1)
      (world_after heap it s.2 n st.1,
       attempt_log name tag heap it s.1 s.2 n st.1 ++ st.2)) as (new & Hnew & _).
    exists (new ++ attempt_log name tag heap it s.1 s.2 n st.1).
    split; [done|]. split; [by rewrite Hnew, <- app_assoc|].
    rewrite count_obs_app, attempt_log_count_calls.
    assert (count_obs (is_call_of s.1) new = 0); [|lia].
    revert Hnew. unfold report, call_hook.
    destruct (nth_result heap it s.2 (n - 1) st.1), (OnError c); simpl; intros Hnew.
    + apply (app_inv_tail _ [_] new) in Hnew. by subst new.
    + apply (app_inv_tail _ [] new) in Hnew. by subst new.
    + apply (app_inv_tail _ [] new) in Hnew. by subst new.
    + apply (app_inv_tail _ [] new) in Hnew. by subst new.
  - rewrite (worker_sub_succeeds c name tag heap it s st (S k) fuel);
      [|lia|lia|simpl; by rewrite Nat.sub_0_r|simpl; by rewrite Nat.sub_0_r|lia].
    eexists. exists (attempt_log name tag heap it s.1 s.2 (S k) st.1).
    split; [done|]. split; [done|]. rewrite attempt_log_count_calls. lia.
Qed.

Lemma worker_item_total c name tag heap it (fuel : nat) :
  ∀ (snap : list (Z * subscription)) (st : wstate),
    (∀ s, s ∈ snap →
       (effective_retries s.2 < max_int)%Z ∧ (effective_retries s.2 < Z.of_nat fuel)%Z) →
    ∃ st' new,
      worker_item fuel c name tag heap it snap st = (true, st')
      ∧ st'.2 = new ++ st.2
      ∧ ∀ s, s ∈ snap → 1 ≤ count_obs (is_call_of s.1) new.
Proof.
  induction snap as [|s rest IH]; intros st Hin.
  - exists st, []. split; [done|]. split; [done|]. intros s Hs. by apply elem_of_nil in Hs.
  - destruct (Hin s ltac:(left)) as [Hmax Hfuel].
    pose proof (effective_retries_pos s.2) as Hpos.
    destruct (worker_sub_total c name tag heap it s st
                (Z.to_nat (effective_retries s.2)) fuel)
      as (st1 & new1 & Hsub & Hlog1 & Hcount1); [lia..|].
    destruct (IH st1) as (st2 & new2 & Hrest & Hlog2 & Hcount2).
    { intros s' Hs'. apply Hin. by right. }
    exists st2, (new2 ++ new1). simpl. rewrite Hsub.
    split; [done|]. split; [by rewrite Hlog2, Hlog1, app_assoc|].
    intros s' Hs'. rewrite count_obs_app.
    apply elem_of_cons in Hs' as [->|Hs']; [lia|].
    specialize (Hcount2 s' Hs'). lia.
Qed.

(** X1.  The retry budget of one subscription, for every budget [n] below
    the largest [int]: [n] is at least 1; a handler that fails [n] times in
    a row is invoked exactly [n] times, after which the error hook, when one
    is configured, is invoked once with the error of the last attempt, and
    nothing else happens when none is; a handler whose first success is its
    [k]-th invocation, [k ≤ n], is invoked exactly [k] times and the hook is
    not invoked. *)
Theorem worker_sub_retry_budget (c : BusConfig) (name : string) (tag : nat)
    (heap : Heap) (it : item) (s : Z * subscription) (st : wstate) (n : nat) :
  effective_retries s.2 = Z.of_nat n → (Z.of_nat n < max_int)%Z →
  1 ≤ n
  ∧ ((∀ k, k < n → nth_result heap it s.2 k st.1 ≠ None) →
     ∃ e, nth_result heap it s.2 (n - 1) st.1 = Some e
       ∧ ∀ fuel, n < fuel →
           ∃ st',
             worker_sub fuel c name tag heap it s st = (true, st')
             ∧ count_obs (is_call_of s.1) st'.2 = n + count_obs (is_call_of s.1) st.2
             ∧ match OnError c with
               | Some f =>
                   st' = (f (item_ctx it) name (item_event it) e heap
                            (world_after heap it s.2 n st.1),
                          ObsHook name tag s.1 (item_ctx it) (item_event it) e
                          :: attempt_log name tag heap it s.1 s.2 n st.1 ++ st.2)
                   ∧ count_obs (is_hook_of s.1) st'.2
                     = 1 + count_obs (is_hook_of s.1) st.2
               | None =>
                   st' = (world_after heap it s.2 n st.1,
                          attempt_log name tag heap it s.1 s.2 n st.1 ++ st.2)
                   ∧ count_obs (is_hook_of s.1) st'.2
                     = count_obs (is_hook_of s.1) st.2
               end)
  ∧ (∀ k, 1 ≤ k ≤ n →
       (∀ j, j < k - 1 → nth_result heap it s.2 j st.1 ≠ None) →
       nth_result heap it s.2 (k - 1) st.1 = None →
       ∀ fuel, k ≤ fuel →
         ∃ st',
           worker_sub fuel c name tag heap it s st = (true, st')
           ∧ st' = (world_after heap it s.2 k st.1,
                    attempt_log name tag heap it s.1 s.2 k st.1 ++ st.2)
           ∧ count_obs (is_call_of s.1) st'.2 = k + count_obs (is_call_of s.1) st.2
           ∧ count_obs (is_hook_of s.1) st'.2 = count_obs (is_hook_of s.1) st.2).
Proof.
  intros Hn Hmax. pose proof (effective_retries_pos s.2) as Hpos.
  split; [lia|]. split.
  - intros Hfail.
    destruct (nth_result heap it s.2 (n - 1) st.1) as [e|] eqn:He;
      [|by destruct (Hfail (n - 1) ltac:(lia))].
    exists e. split; [done|]. intros fuel Hfuel.
    rewrite (worker_sub_exhausted c name tag heap it s st n fuel) by done.
    eexists. split; [done|]. rewrite He. unfold report, call_hook.
    destruct (OnError c) as [f|]; simpl.
    + rewrite !count_obs_cons. simpl. rewrite bool_decide_eq_true_2 by done.
      rewrite !count_obs_app, attempt_log_count_calls, attempt_log_count_hooks.
      done.
    + rewrite !count_obs_app, attempt_log_count_calls, attempt_log_count_hooks.
      done.
  - intros k Hk Hfail Hok fuel Hfuel.
    rewrite (worker_sub_succeeds c name tag heap it s st k fuel);
      [|lia|lia|done|done|done].
    eexists. split; [done|]. split; [done|]. simpl.
    rewrite !count_obs_app, attempt_log_count_calls, attempt_log_count_hooks.
    done.
Qed.

(** ** Subscribe and Publish on a closed bus, nil handlers *)

Lemma ensureTopic_closed name b : closed b = true → ensureTopic name b = (b, None).
Proof. intros H. unfold ensureTopic. by rewrite H. Qed.

Lemma ensureTopic_open name b :
  closed b = false →
  ∃ t, ensureTopic name b
       = (match topics b !! name with
          | Some _ => b
          | None => set_topic name t b
          end, Some t)
       ∧ t = default (new_topic (cfg b)) (topics b !! name).
Proof.
  intros H. unfold ensureTopic. rewrite H.
  destruct (topics b !! name) as [t|]; eexists; split; done.
Qed.

Lemma ensureTopic_closed_flag name b : closed (ensureTopic name b).1 = closed b.
Proof.
  unfold ensureTopic. destruct (closed b) eqn:E; [done|].
  destruct (topics b !! name); done.
Qed.

Lemma Close_closed b : closed (Close b).1 = true.
Proof. unfold Close. destruct (closed b) eqn:E; done. Qed.

Lemma Publish_closed pick can tag ctx name event opts b heap :
  closed b = true →
  Publish pick can tag ctx name event opts (b, heap)
  = ((b, heap), PubReturned (Some ErrClosed)).
Proof. intros H. unfold Publish, publish_prefix. simpl. by rewrite H. Qed.

Lemma Subscribe_closed name h opts b :
  closed b = true →
  Subscribe name (Some h) opts b = (b, (None, Some ErrClosed)).
Proof. intros H. unfold Subscribe. by rewrite H. Qed.

Lemma Subscribe_closed_flag name h opts b :
  closed (Subscribe name h opts b).1 = closed b.
Proof.
  unfold Subscribe. destruct h as [h|]; [|done].
  destruct (closed b) eqn:E; [done|].
  unfold ensureTopic. rewrite E. destruct (topics b !! name); done.
Qed.

Lemma Unsubscribe_closed_flag s b : closed (Unsubscribe s b) = closed b.
Proof. unfold Unsubscribe. destruct (topics b !! sub_topic s); done. Qed.

Lemma publish_prefix_closed_flag ctx name event opts st st' r :
  publish_prefix ctx name event opts st = (st', r) → closed st'.1 = closed st.1.
Proof.
  unfold publish_prefix. destruct (closed st.1) eqn:E; [by intros [= <- <-]|].
  destruct (apply_publish_opts _ _) as [pc heap1].
  destruct (if (0 <? map_len heap1 (Headers pc))%nat then _ else _) as [ctx1 heap2].
  pose proof (ensureTopic_closed_flag name st.1) as Hc.
  destruct (ensureTopic name st.1) as [b' [t|]]; intros [= <- <-]; simpl in *; congruence.
Qed.

Lemma step_closed_flag s s' :
  step s s' → closed (sys_bus s) = true → closed (sys_bus s') = true.
Proof.
  destruct 1; simpl; intros Hc; try done.
  - by rewrite Subscribe_closed_flag.
  - by rewrite Unsubscribe_closed_flag.
  - apply Close_closed.
  - match goal with H : publish_prefix _ _ _ _ _ = _ |- _ =>
      apply publish_prefix_closed_flag in H; simpl in H; congruence end.
  - match goal with H : publish_prefix _ _ _ _ _ = _ |- _ =>
      apply publish_prefix_closed_flag in H; simpl in H; congruence end.
Qed.

(** C3.  Once [Close] has run the bus is closed, and no later step of the
    system opens it again; on such a bus every [Publish] returns [ErrClosed]
    and every
    [Subscribe] with a handler returns [ErrClosed], whatever the state of
    the queues and of the scope, and neither changes the bus or the heap:
    no topic is created and no subscription is registered. *)
Theorem closed_bus_fails_fast (b0 : memoryBus) (s s' : System) :
  sys_bus s = (Close b0).1 → rtc step s s' →
  closed (sys_bus s) = true
  ∧ closed (sys_bus s') = true
  ∧ (∀ pick can tag ctx name event opts,
       Publish pick can tag ctx name event opts (sys_bus s', sys_heap s')
       = ((sys_bus s', sys_heap s'), PubReturned (Some ErrClosed)))
  ∧ (∀ name h opts,
       Subscribe name (Some h) opts (sys_bus s')
       = (sys_bus s', (None, Some ErrClosed))).
Proof.
  intros Hb Hsteps.
  assert (Hc : closed (sys_bus s) = true) by (rewrite Hb; apply Close_closed).
  split; [done|].
  assert (Hc' : closed (sys_bus s') = true).
  { clear Hb. induction Hsteps as [|s1 s2 s3 Hstep _ IH]; [done|].
    apply IH. by apply (step_closed_flag s1 s2). }
  split; [done|]. split.
  - intros. by apply Publish_closed.
  - intros. by apply Subscribe_closed.
Qed.

(** C9.  [Subscribe] with a nil handler returns [ErrNilHandler] and the bus
    it leaves is the bus it was given: the same topics (none created, also
    for a name not seen before), the same worker goroutines and the same
    subscriptions; the step of the system that makes this call changes
    nothing. *)
Theorem Subscribe_nil_handler (name : string) (opts : list SubscribeOption)
    (b : memoryBus) (heap : Heap) (can : Cancelled) (w : World) (log : list Obs)
    (pend : gmap nat (string * item)) (next : nat) :
  Subscribe name None opts b = (b, (None, Some ErrNilHandler))
  ∧ topics (Subscribe name None opts b).1 !! name = topics b !! name
  ∧ mkSystem (Subscribe name None opts b).1 heap can w log pend next false
    = mkSystem b heap can w log pend next false.
Proof. done. Qed.

(** ** Headers *)

Lemma copy_into_union (src dst : gmap string string) : copy_into src dst = src ∪ dst.
Proof.
  unfold copy_into. induction src as [|k v m Hk Hfirst IH] using map_first_key_ind.
  - by rewrite map_fold_empty, (left_id_L ∅ (∪)).
  - rewrite map_fold_insert_first_key by done. rewrite IH.
    by rewrite insert_union_l.
Qed.

Lemma copy_into_empty (src : gmap string string) : copy_into src ∅ = src.
Proof. by rewrite copy_into_union, (right_id_L ∅ (∪)). Qed.

Lemma map_len_lookup (heap : Heap) l h : heap !! l = Some h → map_len heap (Some l) = size h.
Proof. intros H. unfold map_len. by rewrite H. Qed.

Lemma size_pos_nonempty (h : gmap string string) : h ≠ ∅ → size h ≠ 0.
Proof. intros Hne Hs. by apply map_size_empty_iff in Hs. Qed.

Lemma ContextWithHeaders_copy ctx (heap : Heap) l h :
  heap !! l = Some h → h ≠ ∅ →
  ContextWithHeaders ctx (Some l) heap
  = ({| ctx_scope := ctx_scope ctx; ctx_headers := Some (fresh (dom heap)) |},
     <[fresh (dom heap) := h]> heap).
Proof.
  intros Hl Hne. unfold ContextWithHeaders.
  rewrite (map_len_lookup heap l h Hl).
  destruct (size h =? 0)%nat eqn:E.
  - apply Nat.eqb_eq in E. by apply size_pos_nonempty in Hne.
  - simpl. by rewrite Hl, copy_into_empty.
Qed.

Lemma WithHeaders_copy (heap : Heap) href h c :
  heap !! href = Some h → h ≠ ∅ → Headers c = None →
  WithHeaders (Some href) c heap
  = ({| Headers := Some (fresh (dom heap)); Key := Key c |},
     <[fresh (dom heap) := h]> heap).
Proof.
  intros Hl Hne Hc. unfold WithHeaders.
  rewrite (map_len_lookup heap href h Hl).
  destruct (size h =? 0)%nat eqn:E.
  - apply Nat.eqb_eq in E. by apply size_pos_nonempty in Hne.
  - rewrite Hc. simpl.
    assert (Hfresh : fresh (dom heap) ≠ href).
    { intros Heq. apply (is_fresh (dom heap)). rewrite Heq.
      apply elem_of_dom. by exists h. }
    rewrite lookup_insert_ne by done. rewrite Hl. simpl.
    rewrite lookup_insert_eq. simpl.
    by rewrite copy_into_empty, insert_insert_eq.
Qed.

Lemma fresh_lookup_None (heap : Heap) : heap !! fresh (dom heap) = None.
Proof. apply not_elem_of_dom, is_fresh. Qed.

Lemma worker_sub_log fuel c name tag heap it (s : Z * subscription) (st : wstate) r st' :
  worker_sub fuel c name tag heap it s st = (r, st') →
  ∃ new, st'.2 = new ++ st.2
         ∧ Forall (fun o => call_entry name tag it s.1 o ∨ hook_entry name tag it s.1 o) new.
Proof.
  unfold worker_sub.
  destruct (retry_loop _ _ _ _ _ _ _ _ _ _ _) as [[lastErr|] st1] eqn:Hloop;
    apply retry_loop_log in Hloop as (new1 & Hlog1 & Hnew1); intros [= <- <-].
  - destruct (report_log c name tag heap it s.1 lastErr st1) as (new2 & -> & Hnew2).
    exists (new2 ++ new1). rewrite Hlog1, app_assoc. split; [done|].
    apply Forall_app. split; eapply Forall_impl; eauto.
  - exists new1. split; [done|]. eapply Forall_impl; eauto.
Qed.

Lemma worker_item_log fuel c name tag heap it :
  ∀ (snap : list (Z * subscription)) (st : wstate) r st',
    worker_item fuel c name tag heap it snap st = (r, st') →
    ∃ new, st'.2 = new ++ st.2
           ∧ Forall (fun o => ∃ id, call_entry name tag it id o ∨ hook_entry name tag it id o) new.
Proof.
  induction snap as [|s rest IH]; intros st r st'; simpl.
  - intros [= <- <-]. by exists [].
  - destruct (worker_sub fuel c name tag heap it s st) as [[|] st1] eqn:Hsub;
      apply worker_sub_log in Hsub as (new1 & Hlog1 & Hnew1).
    + intros Hrest. apply IH in Hrest as (new2 & -> & Hnew2).
      exists (new2 ++ new1). rewrite Hlog1, app_assoc. split; [done|].
      apply Forall_app. split; [done|].
      eapply Forall_impl; [exact Hnew1|]. simpl. eauto.
    + intros [= <- <-]. exists new1. split; [done|].
      eapply Forall_impl; [exact Hnew1|]. simpl. eauto.
Qed.

Lemma apply_publish_opts_keys (keys : list string) pc (heap : Heap) :
  ∃ k, apply_publish_opts (map WithKey keys) (pc, heap)
       = ({| Headers := Headers pc; Key := k |}, heap).
Proof.
  revert pc. induction keys as [|key keys IH]; intros pc; simpl.
  - exists (Key pc). by destruct pc.
  - unfold apply_publish_opts in *. simpl. apply (IH {| Headers := Headers pc; Key := key |}).
Qed.

Lemma apply_publish_opts_app (l1 l2 : list PublishOption) st :
  apply_publish_opts (l1 ++ l2) st = apply_publish_opts l2 (apply_publish_opts l1 st).
Proof. unfold apply_publish_opts. apply fold_left_app. Qed.

Lemma publish_prefix_headers ctx name event (b : memoryBus) (heap : Heap) href h
    keys1 keys2 :
  heap !! href = Some h → h ≠ ∅ → closed b = false →
  let cp1 := fresh (dom heap) in
  let heap1 := <[cp1 := h]> heap in
  let cp := fresh (dom heap1) in
  ∃ t,
    publish_prefix ctx name event (headers_among_keys keys1 (Some href) keys2) (b, heap)
    = (((ensureTopic name b).1, <[cp := h]> heap1),
       inr (t, {| item_ctx := {| ctx_scope := ctx_scope (default Background ctx);
                                 ctx_headers := Some cp |};
                  item_event := event |}))
    ∧ ensureTopic name b = ((ensureTopic name b).1, Some t).
Proof.
  intros Hl Hne Hopen cp1 heap1 cp. unfold publish_prefix, headers_among_keys.
  cbn [fst snd]. rewrite Hopen.
  rewrite apply_publish_opts_app.
  destruct (apply_publish_opts_keys keys1 {| Headers := None; Key := EmptyString |} heap)
    as [k1 ->].
  change (apply_publish_opts (WithHeaders (Some href) :: map WithKey keys2) ?st)
    with (apply_publish_opts (map WithKey keys2) (WithHeaders (Some href) st.1 st.2)).
  cbn [fst snd]. rewrite (WithHeaders_copy heap href h) by done.
  fold cp1. fold heap1. cbn [Headers Key].
  destruct (apply_publish_opts_keys keys2 {| Headers := Some cp1; Key := k1 |} heap1)
    as [k2 ->].
  cbn [Headers].
  assert (H1 : heap1 !! cp1 = Some h) by apply lookup_insert_eq.
  rewrite (map_len_lookup heap1 cp1 h H1).
  destruct (0 <? size h)%nat eqn:E.
  2:{ apply Nat.ltb_ge in E. apply size_pos_nonempty in Hne. lia. }
  rewrite (ContextWithHeaders_copy _ heap1 cp1 h) by done. fold cp.
  destruct (ensureTopic_open name b Hopen) as (t & Ht & _).
  rewrite Ht. exists t. done.
Qed.


(** ** From the system to its queues and workers *)

Lemma veq_refl v : veq v v.
Proof. by intros n. Qed.

Lemma veq_trans v1 v2 v3 : veq v1 v2 → veq v2 v3 → veq v1 v3.
Proof. intros H1 H2 n. by rewrite H1. Qed.

Lemma view_set_topic name (t : topic) (b : memoryBus) n :
  view (set_topic name t b) n
  = if decide (n = name) then Some (topic_view t) else view b n.
Proof.
  unfold view, set_topic. simpl. case_decide as Hn.
  - subst. by rewrite lookup_insert_eq.
  - by rewrite lookup_insert_ne.
Qed.

Lemma view_set_topic_same name (t t' : topic) (b : memoryBus) :
  topics b !! name = Some t → topic_view t' = topic_view t →
  veq (view (set_topic name t' b)) (view b).
Proof.
  intros Ht Hv n. rewrite view_set_topic. case_decide as Hn; [|done].
  subst. unfold view. by rewrite Ht, Hv.
Qed.

Lemma view_set_topic_upd name (t' : topic) (b : memoryBus) :
  veq (view (set_topic name t' b)) (view_upd (view b) name (topic_view t')).
Proof. intros n. by rewrite view_set_topic. Qed.

Lemma topic_view_new c :
  topic_view (new_topic c) = ([], replicate (Z.to_nat (WorkersPerTopic c)) None).
Proof. unfold topic_view, new_topic. simpl. by rewrite fmap_replicate. Qed.

Lemma ensureTopic_lookup name (b b' : memoryBus) (t : topic) :
  ensureTopic name b = (b', Some t) → topics b' !! name = Some t.
Proof.
  unfold ensureTopic. destruct (closed b); [done|].
  destruct (topics b !! name) as [t0|] eqn:E; intros [= <- <-]; [done|].
  simpl. apply lookup_insert_eq.
Qed.

Lemma same_or_created_veq v v' v'' :
  same_or_created v v' → veq v'' v' → same_or_created v v''.
Proof.
  intros [Hv|(name & k & Hnone & Hv)] Hv'.
  - left. by eapply veq_trans.
  - right. exists name, k. split; [done|]. by eapply veq_trans.
Qed.

Lemma same_or_created_astep v v' l p n :
  same_or_created v v' → astep (mkAbs v l p n) (mkAbs v' l p n).
Proof.
  intros [Hv|(name & k & Hnone & Hv)].
  - by apply as_stutter.
  - by eapply as_create.
Qed.

Lemma ensureTopic_view name (b : memoryBus) :
  same_or_created (view b) (view (ensureTopic name b).1).
Proof.
  unfold ensureTopic. destruct (closed b); [left; apply veq_refl|].
  destruct (topics b !! name) as [t0|] eqn:E; simpl; [left; apply veq_refl|].
  right. exists name, (Z.to_nat (WorkersPerTopic (cfg b))). split.
  - unfold view. by rewrite E.
  - intros k. rewrite view_set_topic. unfold view_upd. by rewrite topic_view_new.
Qed.

Lemma Subscribe_view name h opts (b : memoryBus) :
  same_or_created (view b) (view (Subscribe name h opts b).1).
Proof.
  unfold Subscribe. destruct h as [h|]; [|left; apply veq_refl].
  destruct (closed b) eqn:Hc; [left; apply veq_refl|].
  pose proof (ensureTopic_view name b) as Hstep.
  destruct (ensureTopic name b) as [b' [t|]] eqn:He; simpl in *; [|done].
  apply ensureTopic_lookup in He.
  eapply same_or_created_veq; [exact Hstep|].
  by apply (view_set_topic_same name t).
Qed.

Lemma Unsubscribe_view s (b : memoryBus) : veq (view (Unsubscribe s b)) (view b).
Proof.
  unfold Unsubscribe. destruct (topics b !! sub_topic s) as [t|] eqn:E;
    [|apply veq_refl].
  by apply (view_set_topic_same _ t).
Qed.

Lemma Close_view (b : memoryBus) : veq (view (Close b).1) (view b).
Proof.
  unfold Close. destruct (closed b); [apply veq_refl|].
  intros n. unfold view. simpl. rewrite lookup_fmap.
  by destruct (topics b !! n).
Qed.

Lemma publish_prefix_view ctx name event opts (b : memoryBus) heap b' heap' r :
  publish_prefix ctx name event opts (b, heap) = ((b', heap'), r) →
  same_or_created (view b) (view b').
Proof.
  unfold publish_prefix. simpl. destruct (closed b) eqn:Hc.
  - intros [= <- <- <-]. left. apply veq_refl.
  - destruct (apply_publish_opts _ _) as [pc heap1].
    destruct (if (0 <? map_len heap1 (Headers pc))%nat then _ else _) as [ctx1 heap2].
    pose proof (ensureTopic_view name b) as Hv.
    destruct (ensureTopic name b) as [b1 [t|]]; intros [= <- <- <-]; done.
Qed.


(** ** The select of Publish *)

Lemma publish_select_sent pick c x done c' :
  publish_select pick c x done = SelSent c' →
  c' = {| chan_buf := chan_buf c ++ [x]; chan_cap := chan_cap c; chan_closed := false |}
  ∧ chan_closed c = false
  ∧ (Z.of_nat (length (chan_buf c)) < chan_cap c)%Z.
Proof.
  unfold publish_select, send_ready, chan_send.
  destruct (chan_closed c) eqn:Hc; simpl.
  - destruct done, pick; done.
  - destruct (Z.of_nat (length (chan_buf c)) <? chan_cap c)%Z eqn:E;
      destruct done, pick; try done; intros [= <-];
      apply Z.ltb_lt in E; done.
Qed.

Lemma publish_select_done pick c x done e :
  publish_select pick c x done = SelDone e → done = Some e.
Proof.
  unfold publish_select, chan_send.
  destruct (send_ready c), done, pick, (chan_closed c); try done; by intros [= ->].
Qed.

Lemma publish_select_blocked pick c x done :
  publish_select pick c x done = SelBlocked ↔ send_ready c = false ∧ done = None.
Proof.
  unfold publish_select, chan_send.
  destruct (send_ready c), done, pick, (chan_closed c); split;
    first [done | by intros [? ?]].
Qed.

(** ** Every step of the system is a step of its queues and workers *)

Lemma worker_step_cases c name heap sb ph q (st : wstate) ph' q' st' :
  worker_step c name heap sb (ph, q, st) (ph', q', st') →
  (∃ tag it, phase_tag ph = None ∧ phase_tag ph' = Some tag
             ∧ chan_buf q = (tag, it) :: chan_buf q'
             ∧ st'.2 = ObsRecv name tag :: st.2)
  ∨ (phase_tag ph' = None ∧ chan_buf q' = chan_buf q ∧ st'.2 = st.2)
  ∨ (∃ tag, phase_tag ph = Some tag ∧ phase_tag ph' = Some tag
            ∧ chan_buf q' = chan_buf q
            ∧ (st'.2 = st.2 ∨ ∃ o, st'.2 = o :: st.2 ∧ delivery name tag o)).
Proof.
  inversion 1; subst; simpl.
  - left. by exists tag, it.
  - right. left. done.
  - right. right. exists tag. eauto.
  - right. left. done.
  - right. right. exists tag. eauto.
  - right. right. exists tag. split; [done|]. split; [done|]. split; [done|].
    match goal with H : retry_iter _ _ _ _ _ _ _ _ _ _ = _ |- _ =>
      apply retry_iter_log in H as [->|[res ->]] end; [by left|].
    right. eexists. split; [done|]. done.
  - right. right. exists tag. split; [done|]. split; [done|]. split; [done|].
    match goal with H : retry_iter _ _ _ _ _ _ _ _ _ _ = _ |- _ =>
      revert H end.
    unfold retry_iter, call_handler, report, call_hook.
    destruct (attempt <=? retries)%Z.
    + destruct (handler s.2 (item_ctx it) (item_event it) heap st.1) as [[err|] w1];
        intros [= <- <-]. simpl. right. eexists. split; [done|]. done.
    + intros [= <- <-]. destruct lastErr as [e|], (OnError c) as [f|]; simpl;
        try (by left). right. eexists. split; [done|]. done.
Qed.

Lemma step_astep s s' : step s s' → rtc astep (abs s) (abs s').
Proof.
  intros Hstep. destruct Hstep; unfold abs; simpl;
    repeat match goal with
    | H : publish_prefix _ _ _ _ _ = _ |- _ => apply publish_prefix_view in H
    | H : publish_select _ _ _ _ = SelSent _ |- _ =>
        apply publish_select_sent in H as (-> & _ & _)
    end.
  - apply rtc_once, same_or_created_astep, Subscribe_view.
  - apply rtc_once, as_stutter, Unsubscribe_view.
  - apply rtc_once, as_stutter, Close_view.
  - done.
  - eapply rtc_l; [by eapply same_or_created_astep|].
    apply rtc_once, as_closed.
  - eapply rtc_l; [by eapply same_or_created_astep|].
    rewrite dom_insert_L. apply rtc_once, as_begin.
  - rewrite dom_delete_L. apply rtc_once.
    eapply (as_sent _ _ _ _ _ name tag (map fst (chan_buf (ch t)))
                    (map phase_tag (pool t))).
    + apply elem_of_dom. by eexists.
    + unfold view. by match goal with H : topics _ !! _ = _ |- _ => rewrite H end.
    + intros n. rewrite view_set_topic. unfold view_upd, topic_view. simpl.
      by rewrite map_app.
  - rewrite dom_delete_L. apply rtc_once, as_cancelled.
    apply elem_of_dom. by eexists.
  - done.
  - match goal with Ht : topics _ !! _ = Some t, Hp : pool t !! i = Some ph,
                    Hw : worker_step _ _ _ _ _ _ |- _ =>
      rename Ht into Htopic; rename Hp into Hpool; rename Hw into Hwork end.
    assert (Hv : view b name = Some (topic_view t)) by (unfold view; by rewrite Htopic).
    assert (Hps : (map phase_tag (pool t)) !! i = Some (phase_tag ph)).
    { change (map phase_tag (pool t)) with (phase_tag <$> pool t).
      by rewrite list_lookup_fmap, Hpool. }
    assert (Hins : map phase_tag (<[i := ph']> (pool t))
                   = <[i := phase_tag ph']> (map phase_tag (pool t))).
    { change (map phase_tag ?l) with (phase_tag <$> l). by rewrite list_fmap_insert. }
    assert (Hv' : ∀ n, view (set_topic name
                          (set_pool (<[i:=ph']> (pool t)) (set_ch c' t)) b) n
                  = view_upd (view b) name
                      (map fst (chan_buf c'),
                       <[i := phase_tag ph']> (map phase_tag (pool t))) n).
    { intros n. rewrite view_set_topic. unfold view_upd, topic_view. simpl.
      by rewrite Hins. }
    apply worker_step_cases in Hwork
      as [(tag & it & Hph & Hph' & Hq & Hlog)
         |[(Hph' & Hq & Hlog)|(tag & Hph & Hph' & Hq & Hlog)]]; simpl in *.
    + rewrite Hlog. apply rtc_once.
      eapply (as_recv _ _ _ _ _ name tag (map fst (chan_buf c'))
                      (map phase_tag (pool t)) i).
      * rewrite Hv. unfold topic_view. by rewrite Hq.
      * by rewrite Hps, Hph.
      * intros n. by rewrite Hv', Hph'.
    + rewrite Hlog. apply rtc_once.
      eapply (as_idle _ _ _ _ _ name _ (map phase_tag (pool t)) i); [exact Hv|].
      intros n. by rewrite Hv', Hph', Hq.
    + assert (Hsame : veq (view (set_topic name
                          (set_pool (<[i:=ph']> (pool t)) (set_ch c' t)) b)) (view b)).
      { intros n. rewrite Hv'. unfold view_upd. case_decide as Hn; [|done].
        subst n. rewrite Hv, Hph', Hq. unfold topic_view.
        rewrite list_insert_id; [done|]. by rewrite Hps, Hph. }
      destruct Hlog as [->|(o & -> & Hdel)].
      * by apply rtc_once, as_stutter.
      * apply rtc_once.
        eapply (as_work _ _ _ _ _ name _ (map phase_tag (pool t)) i tag o);
          [exact Hv|by rewrite Hps, Hph|done|done].
Qed.


(** ** Facts about the log *)

Lemma sents_elem name tag l : tag ∈ sents name l ↔ ObsSent name tag ∈ l.
Proof.
  unfold sents. rewrite list_elem_of_omap. split.
  - intros (o & Ho & Hs). destruct o; simpl in Hs; try done.
    case_decide; [|done]. by simplify_eq.
  - intros Ho. exists (ObsSent name tag). split; [done|]. simpl.
    by rewrite decide_True.
Qed.

Lemma recvs_elem name tag l : tag ∈ recvs name l ↔ ObsRecv name tag ∈ l.
Proof.
  unfold recvs. rewrite list_elem_of_omap. split.
  - intros (o & Ho & Hs). destruct o; simpl in Hs; try done.
    case_decide; [|done]. by simplify_eq.
  - intros Ho. exists (ObsRecv name tag). split; [done|]. simpl.
    by rewrite decide_True.
Qed.

Lemma sents_app name l1 l2 : sents name (l1 ++ l2) = sents name l1 ++ sents name l2.
Proof. unfold sents. apply omap_app. Qed.

Lemma recvs_app name l1 l2 : recvs name (l1 ++ l2) = recvs name l1 ++ recvs name l2.
Proof. unfold recvs. apply omap_app. Qed.

Lemma sents_cons_other name o l :
  sent_tag name o = None → sents name (o :: l) = sents name l.
Proof. intros H. unfold sents. simpl. by rewrite H. Qed.

Lemma recvs_cons_other name o l :
  recv_tag name o = None → recvs name (o :: l) = recvs name l.
Proof. intros H. unfold recvs. simpl. by rewrite H. Qed.

Lemma sents_cons_sent name tag l :
  sents name (ObsSent name tag :: l) = tag :: sents name l.
Proof. unfold sents. simpl. by rewrite decide_True. Qed.

Lemma recvs_cons_recv name tag l :
  recvs name (ObsRecv name tag :: l) = tag :: recvs name l.
Proof. unfold recvs. simpl. by rewrite decide_True. Qed.

Lemma sents_cons_ne name name' tag l :
  name' ≠ name → sents name (ObsSent name' tag :: l) = sents name l.
Proof. intros H. unfold sents. simpl. by rewrite decide_False. Qed.

Lemma recvs_cons_ne name name' tag l :
  name' ≠ name → recvs name (ObsRecv name' tag :: l) = recvs name l.
Proof. intros H. unfold recvs. simpl. by rewrite decide_False. Qed.

Lemma elem_of_rev {A} (x : A) l : x ∈ l → x ∈ rev l.
Proof. rewrite !list_elem_of_In. apply in_rev. Qed.

Lemma delivery_inj name name' tag tag' o :
  delivery name tag o → delivery name' tag' o → name' = name ∧ tag' = tag.
Proof. destruct o; simpl; try done; intros [-> ->] [-> ->]; done. Qed.

Lemma delivery_tag name tag o : delivery name tag o → obs_tag o = tag.
Proof. destruct o; simpl; try done; by intros [_ ->]. Qed.

Lemma delivery_not_sent name tag o name' : delivery name tag o → sent_tag name' o = None.
Proof. by destruct o. Qed.

Lemma delivery_not_recv name tag o name' : delivery name tag o → recv_tag name' o = None.
Proof. by destruct o. Qed.

(** Where a cons cell can be cut. *)
Lemma cons_split {A} (x o : A) (l l1 l2 : list A) :
  x :: l = l1 ++ o :: l2 →
  (l1 = [] ∧ o = x ∧ l2 = l) ∨ (∃ l1', l1 = x :: l1' ∧ l = l1' ++ o :: l2).
Proof.
  destruct l1 as [|y l1']; simpl; intros [= -> ->]; [by left|].
  right. by exists l1'.
Qed.

Lemma elem_of_insert_list {A} (l : list A) i x y :
  y ∈ <[i := x]> l → y = x ∨ y ∈ l.
Proof.
  intros Hy. apply list_elem_of_lookup in Hy as [j Hj].
  destruct (decide (i = j)) as [->|Hne].
  - destruct (decide (j < length l)) as [Hlt|Hge].
    + rewrite list_lookup_insert_eq in Hj by done. left. by simplify_eq.
    + rewrite list_insert_ge in Hj by lia. right. by eapply list_elem_of_lookup_2.
  - rewrite list_lookup_insert_ne in Hj by done. right. by eapply list_elem_of_lookup_2.
Qed.

Lemma insert_singleton_inv {A} (l : list A) i x y z :
  <[i := x]> l = [y] → l !! i = Some z → i = 0 ∧ l = [z] ∧ y = x.
Proof.
  intros Hins Hi.
  assert (Hlen : length l = 1).
  { apply (f_equal length) in Hins. by rewrite length_insert in Hins. }
  destruct l as [|a [|b l]]; simpl in Hlen; try lia.
  destruct i as [|i]; simpl in *; [|done]. by simplify_eq.
Qed.

(** ** The worker's steps and the dispatch functions agree *)

Lemma retry_loop_steps c name heap sb tag it (s : Z * subscription) retries rest q :
  ∀ (fuel : nat) (a : Z) (lastErr : option error) (st : wstate) lastErr' st',
    retry_loop fuel name tag heap it s.1 s.2 retries a lastErr st
      = (Some lastErr', st') →
    rtc (worker_step c name heap sb)
        (WRetry tag it s retries a lastErr rest, q, st)
        (WRange tag it rest, q, report c name tag heap it s.1 lastErr' st').
Proof.
  induction fuel as [|fuel IH]; intros a lastErr st lastErr' st'; simpl; [done|].
  destruct (retry_iter name tag heap it s.1 s.2 retries a lastErr st)
    as [[[a1 e1]|e1] st1] eqn:Hiter.
  - intros Hloop. eapply rtc_l; [by apply ws_retry_again|]. by apply IH.
  - intros [= <- <-]. apply rtc_once. by apply ws_retry_exit.
Qed.

Lemma worker_item_steps c name heap sb tag it q (fuel : nat) :
  ∀ (snap : list (Z * subscription)) (st st' : wstate),
    worker_item fuel c name tag heap it snap st = (true, st') →
    rtc (worker_step c name heap sb)
        (WRange tag it snap, q, st) (WRange tag it [], q, st').
Proof.
  induction snap as [|s rest IH]; intros st st'; simpl.
  - by intros [= <-].
  - unfold worker_sub.
    destruct (retry_loop fuel name tag heap it s.1 s.2 (effective_retries s.2) 1 None st)
      as [[lastErr|] st1] eqn:Hloop; [|done].
    intros Hrest. eapply rtc_l; [apply ws_range_next|].
    eapply rtc_trans; [by eapply retry_loop_steps|]. by apply IH.
Qed.

(** ** The invariant of queues, workers and log *)

Lemma ainv_init : AInv (mkAbs (fun _ => None) [] ∅ 0).
Proof.
  constructor; simpl; try done.
  - intros tag name e Hin. by apply elem_of_nil in Hin.
  - intros name. constructor.
  - intros o name tag Hin. by apply elem_of_nil in Hin.
  - intros l1 tag name l2 H. by destruct l1.
Qed.

Lemma ainv_stutter v v' l p n :
  veq v' v → AInv (mkAbs v l p n) → AInv (mkAbs v' l p n).
Proof.
  intros Hv [Htags Hpend Hexcl Hnodup Habsent Hfifo Hflight Hcalls Hsingle Hbegin].
  constructor; simpl in *; try done; intros *; rewrite Hv; eauto.
Qed.

Lemma ainv_create v v' l p n name k :
  v name = None → veq v' (view_upd v name ([], replicate k None)) →
  AInv (mkAbs v l p n) → AInv (mkAbs v' l p n).
Proof.
  intros Hnone Hv [Htags Hpend Hexcl Hnodup Habsent Hfifo Hflight Hcalls Hsingle Hbegin].
  destruct (Habsent name Hnone) as [Hs Hr].
  constructor; simpl in *; try done; intros *; rewrite Hv; unfold view_upd;
    case_decide as Hn; subst; eauto; try done.
  - intros [= <- <-]. by rewrite Hs, Hr.
  - intros [= <- <-] Hin. by apply elem_of_replicate in Hin as [? _].
  - intros [= <- Hrep]. split.
    + intros tag ->. destruct k as [|[|k]]; done.
    + intros l1 o l2 tag -> Hdel.
      assert (Hin : tag ∈ recvs name (l1 ++ o :: l2)).
      { eapply Hcalls; [|done]. apply elem_of_app. right. by left. }
      rewrite Hr in Hin. by apply elem_of_nil in Hin.
Qed.

Lemma ainv_closed v l p n :
  AInv (mkAbs v l p n) → AInv (mkAbs v (ObsClosed n :: l) p (S n)).
Proof.
  intros [Htags Hpend Hexcl Hnodup Habsent Hfifo Hflight Hcalls Hsingle Hbegin].
  constructor; simpl in *.
  - constructor; [simpl; lia|]. eapply Forall_impl; [done|]. simpl. lia.
  - intros tag Hin. destruct (Hpend tag Hin) as (Hlt & Hs & Hc).
    split; [lia|]. split; [done|]. intros e Hin'.
    apply elem_of_cons in Hin' as [?|?]; [done|]. by eapply Hc.
  - intros tag name e Hs Hin'. apply elem_of_cons in Hin' as [?|?]; [done|].
    by eapply Hexcl.
  - done.
  - done.
  - done.
  - done.
  - intros o name tag Hin Hdel. apply elem_of_cons in Hin as [->|Hin]; [done|].
    by eapply Hcalls.
  - intros name q p0 Hview. destruct (Hsingle name q p0 Hview) as [H1 H2].
    split; [done|]. intros l1 o l2 tag Hl Hdel.
    apply cons_split in Hl as [(-> & -> & ->)|(l1' & -> & ->)]; [done|].
    by eapply H2.
  - intros l1 tag name l2 Hl.
    apply cons_split in Hl as [(-> & ? & ->)|(l1' & -> & ->)]; [done|].
    by eapply Hbegin.
Qed.

Lemma sents_tag_bound name tag l n :
  Forall (fun o => obs_tag o < n) l → tag ∈ sents name l → tag < n.
Proof.
  intros Hall Hin. apply sents_elem in Hin.
  rewrite Forall_forall in Hall. by apply (Hall _ Hin).
Qed.

Lemma ainv_begin v l p n name :
  AInv (mkAbs v l p n) → AInv (mkAbs v (ObsBegin n name :: l) ({[n]} ∪ p) (S n)).
Proof.
  intros [Htags Hpend Hexcl Hnodup Habsent Hfifo Hflight Hcalls Hsingle Hbegin].
  constructor; simpl in *.
  - constructor; [simpl; lia|]. eapply Forall_impl; [done|]. simpl. lia.
  - intros tag Hin. apply elem_of_union in Hin as [Hin|Hin].
    + apply elem_of_singleton in Hin as ->. split; [lia|]. split.
      * intros name' Hs. apply (sents_tag_bound _ _ _ n) in Hs; [lia|done].
      * intros e Hin'. apply elem_of_cons in Hin' as [?|Hin']; [done|].
        rewrite Forall_forall in Htags. apply Htags in Hin'. simpl in Hin'. lia.
    + destruct (Hpend tag Hin) as (Hlt & Hs & Hc).
      split; [lia|]. split; [done|]. intros e Hin'.
      apply elem_of_cons in Hin' as [?|?]; [done|]. by eapply Hc.
  - intros tag name' e Hs Hin'. apply elem_of_cons in Hin' as [?|?]; [done|].
    by eapply Hexcl.
  - done.
  - done.
  - done.
  - done.
  - intros o name' tag Hin Hdel. apply elem_of_cons in Hin as [->|Hin]; [done|].
    by eapply Hcalls.
  - intros name' q p0 Hview. destruct (Hsingle name' q p0 Hview) as [H1 H2].
    split; [done|]. intros l1 o l2 tag Hl Hdel.
    apply cons_split in Hl as [(-> & -> & ->)|(l1' & -> & ->)]; [done|].
    by eapply H2.
  - intros l1 tag name' l2 Hl.
    apply cons_split in Hl as [(-> & Ho & ->)|(l1' & -> & ->)].
    + by simplify_eq.
    + by eapply Hbegin.
Qed.

Lemma ainv_sent v v' l p n name tag q ps :
  tag ∈ p → v name = Some (q, ps) →
  veq v' (view_upd v name (q ++ [tag], ps)) →
  AInv (mkAbs v l p n) →
  AInv (mkAbs v' (ObsSent name tag :: l) (p ∖ {[tag]}) n).
Proof.
  intros Htag Hview Hv
    [Htags Hpend Hexcl Hnodup Habsent Hfifo Hflight Hcalls Hsingle Hbegin].
  simpl in *. destruct (Hpend tag Htag) as (Hlt & Hfresh & Hnotc).
  assert (Hs : ∀ name', sents name' (ObsSent name tag :: l)
                 = if decide (name = name') then tag :: sents name' l
                   else sents name' l).
  { intros name'. case_decide as Hn; [subst; apply sents_cons_sent|].
    by apply sents_cons_ne. }
  constructor; cbn [a_view a_log a_pend a_next].
  - by constructor.
  - intros tag' Hin. apply elem_of_difference in Hin as [Hin Hne].
    rewrite elem_of_singleton in Hne.
    destruct (Hpend tag' Hin) as (Hlt' & Hs' & Hc'). split; [done|]. split.
    + intros name'. rewrite Hs. case_decide; [|done].
      rewrite elem_of_cons. intros [?|?]; [done|]. by eapply Hs'.
    + intros e Hin'. apply elem_of_cons in Hin' as [?|?]; [done|]. by eapply Hc'.
  - intros tag' name' e. rewrite Hs. intros Hin Hin'.
    apply elem_of_cons in Hin' as [?|Hin']; [done|].
    case_decide; [apply elem_of_cons in Hin as [->|Hin]|].
    + by eapply Hnotc.
    + by eapply Hexcl.
    + by eapply Hexcl.
  - intros name'. rewrite Hs. case_decide; [|done]. subst.
    apply NoDup_cons. split; [apply Hfresh|done].
  - intros name'. rewrite Hv. unfold view_upd. case_decide as Hn; [done|].
    intros Hnone. rewrite Hs, decide_False by done.
    rewrite recvs_cons_other by done. by apply Habsent.
  - intros name' q' ps'. rewrite Hv. unfold view_upd. rewrite Hs.
    rewrite recvs_cons_other by done.
    case_decide as Hn; [subst; rewrite decide_True by done|rewrite decide_False by done].
    + intros [= <- <-]. rewrite rev_app_distr. simpl. f_equal. by eapply Hfifo.
    + by apply Hfifo.
  - intros name' q' ps' tag'. rewrite Hv. unfold view_upd.
    rewrite recvs_cons_other by done. case_decide as Hn.
    + subst. intros [= <- <-]. by eapply Hflight.
    + by apply Hflight.
  - intros o name' tag' Hin Hdel. rewrite recvs_cons_other by done.
    apply elem_of_cons in Hin as [->|Hin]; [done|]. by eapply Hcalls.
  - intros name' q' p0. rewrite Hv. unfold view_upd.
    rewrite recvs_cons_other by done.
    intros Hview'.
    assert (Hold : ∃ q0, v name' = Some (q0, [p0])).
    { case_decide as Hn; [subst|by eexists]. simplify_eq. by eexists. }
    destruct Hold as [q0 Hq0]. destruct (Hsingle name' q0 p0 Hq0) as [H1 H2].
    split; [done|]. intros l1 o l2 tag' Hl Hdel.
    apply cons_split in Hl as [(-> & -> & ->)|(l1' & -> & ->)]; [done|].
    by eapply H2.
  - intros l1 tag' name' l2 Hl.
    apply cons_split in Hl as [(-> & ? & ->)|(l1' & -> & ->)]; [done|].
    by eapply Hbegin.
Qed.

Lemma ainv_cancelled v l p n tag e :
  tag ∈ p → AInv (mkAbs v l p n) →
  AInv (mkAbs v (ObsCancelled tag e :: l) (p ∖ {[tag]}) n).
Proof.
  intros Htag [Htags Hpend Hexcl Hnodup Habsent Hfifo Hflight Hcalls Hsingle Hbegin].
  simpl in *. destruct (Hpend tag Htag) as (Hlt & Hfresh & Hnotc).
  constructor; cbn [a_view a_log a_pend a_next].
  - by constructor.
  - intros tag' Hin. apply elem_of_difference in Hin as [Hin Hne].
    rewrite elem_of_singleton in Hne.
    destruct (Hpend tag' Hin) as (Hlt' & Hs' & Hc'). split; [done|]. split; [done|].
    intros e' Hin'. apply elem_of_cons in Hin' as [?|?]; [by simplify_eq|].
    by eapply Hc'.
  - intros tag' name' e' Hin Hin'. rewrite sents_cons_other in Hin by done.
    apply elem_of_cons in Hin' as [?|Hin']; [simplify_eq; by eapply Hfresh|].
    by eapply Hexcl.
  - done.
  - done.
  - done.
  - done.
  - intros o name' tag' Hin Hdel.
    apply elem_of_cons in Hin as [->|Hin]; [done|]. by eapply Hcalls.
  - intros name' q' p0 Hview'. destruct (Hsingle name' q' p0 Hview') as [H1 H2].
    split; [done|]. intros l1 o l2 tag' Hl Hdel.
    apply cons_split in Hl as [(-> & -> & ->)|(l1' & -> & ->)]; [done|].
    by eapply H2.
  - intros l1 tag' name' l2 Hl.
    apply cons_split in Hl as [(-> & ? & ->)|(l1' & -> & ->)]; [done|].
    by eapply Hbegin.
Qed.

Lemma ainv_recv v v' l p n name tag q ps i :
  v name = Some (tag :: q, ps) → ps !! i = Some None →
  veq v' (view_upd v name (q, <[i := Some tag]> ps)) →
  AInv (mkAbs v l p n) →
  AInv (mkAbs v' (ObsRecv name tag :: l) p n).
Proof.
  intros Hview Hi Hv
    [Htags Hpend Hexcl Hnodup Habsent Hfifo Hflight Hcalls Hsingle Hbegin].
  simpl in *.
  assert (Hr : ∀ name', recvs name' (ObsRecv name tag :: l)
                 = if decide (name = name') then tag :: recvs name' l
                   else recvs name' l).
  { intros name'. case_decide as Hn; [subst; apply recvs_cons_recv|].
    by apply recvs_cons_ne. }
  assert (Hfifo0 := Hfifo name _ _ Hview). simpl in Hfifo0.
  assert (Hsent : tag ∈ sents name l).
  { rewrite Hfifo0. apply elem_of_app. left. apply elem_of_app. right. by left. }
  constructor; cbn [a_view a_log a_pend a_next].
  - constructor; [|done]. simpl. by eapply sents_tag_bound.
  - intros tag' Hin. destruct (Hpend tag' Hin) as (Hlt' & Hs' & Hc').
    split; [done|]. split.
    + intros name'. rewrite sents_cons_other by done. apply Hs'.
    + intros e Hin'. apply elem_of_cons in Hin' as [?|?]; [done|]. by eapply Hc'.
  - intros tag' name' e. rewrite sents_cons_other by done. intros Hin Hin'.
    apply elem_of_cons in Hin' as [?|Hin']; [done|]. by eapply Hexcl.
  - intros name'. by rewrite sents_cons_other.
  - intros name'. rewrite Hv. unfold view_upd. case_decide as Hn; [done|].
    intros Hnone. rewrite Hr, decide_False by done.
    rewrite sents_cons_other by done. by apply Habsent.
  - intros name' q' ps'. rewrite Hv. unfold view_upd. rewrite Hr.
    rewrite sents_cons_other by done.
    case_decide as Hn; [subst; rewrite decide_True by done|rewrite decide_False by done].
    + intros [= <- <-]. rewrite Hfifo0. by rewrite <- app_assoc.
    + by apply Hfifo.
  - intros name' q' ps' tag'. rewrite Hv. unfold view_upd. rewrite Hr.
    case_decide as Hn; [subst; rewrite decide_True by done|rewrite decide_False by done].
    + intros [= <- <-] Hin. apply elem_of_insert_list in Hin as [Heq|Hin].
      * simplify_eq. by left.
      * right. by eapply Hflight.
    + by apply Hflight.
  - intros o name' tag' Hin Hdel.
    apply elem_of_cons in Hin as [->|Hin]; [done|].
    rewrite Hr. case_decide; [right|]; by eapply Hcalls.
  - intros name' q' p0. rewrite Hv. unfold view_upd. rewrite Hr.
    case_decide as Hn; [subst; rewrite decide_True by done|rewrite decide_False by done].
    + intros [= <- Hins].
      destruct (insert_singleton_inv _ _ _ _ _ Hins Hi) as (-> & -> & ->).
      destruct (Hsingle name (tag :: q) None Hview) as [H1 H2].
      split; [by intros tag' [= ->]|].
      intros l1 o l2 tag' Hl Hdel.
      apply cons_split in Hl as [(-> & -> & ->)|(l1' & -> & ->)]; [done|].
      by eapply H2.
    + intros Hview'. destruct (Hsingle name' q' p0 Hview') as [H1 H2].
      split; [done|]. intros l1 o l2 tag' Hl Hdel.
      apply cons_split in Hl as [(-> & -> & ->)|(l1' & -> & ->)]; [done|].
      by eapply H2.
  - intros l1 tag' name' l2 Hl.
    apply cons_split in Hl as [(-> & ? & ->)|(l1' & -> & ->)]; [done|].
    by eapply Hbegin.
Qed.

Lemma ainv_idle v v' l p n name q ps i :
  v name = Some (q, ps) →
  veq v' (view_upd v name (q, <[i := None]> ps)) →
  AInv (mkAbs v l p n) → AInv (mkAbs v' l p n).
Proof.
  intros Hview Hv
    [Htags Hpend Hexcl Hnodup Habsent Hfifo Hflight Hcalls Hsingle Hbegin].
  simpl in *.
  constructor; cbn [a_view a_log a_pend a_next]; try done.
  - intros name'. rewrite Hv. unfold view_upd. case_decide; [done|]. apply Habsent.
  - intros name' q' ps'. rewrite Hv. unfold view_upd. case_decide as Hn.
    + subst. intros [= <- <-]. by eapply Hfifo.
    + by apply Hfifo.
  - intros name' q' ps' tag'. rewrite Hv. unfold view_upd. case_decide as Hn.
    + subst. intros [= <- <-] Hin. apply elem_of_insert_list in Hin as [?|Hin]; [done|].
      by eapply Hflight.
    + by apply Hflight.
  - intros name' q' p0. rewrite Hv. unfold view_upd. case_decide as Hn;
      [|by apply Hsingle].
    subst. intros [= <- Hins].
    assert (Hlen : length ps = 1).
    { apply (f_equal length) in Hins. by rewrite length_insert in Hins. }
    destruct ps as [|p1 [|p2 ps]]; simpl in Hlen; try lia.
    destruct (Hsingle name q p1 Hview) as [H1 H2].
    destruct i as [|i]; simpl in Hins; simplify_eq; [|done].
    split; [done|]. done.
Qed.

Lemma ainv_work v v' l p n name q ps i tag o :
  v name = Some (q, ps) → ps !! i = Some (Some tag) →
  delivery name tag o → veq v' v →
  AInv (mkAbs v l p n) → AInv (mkAbs v' (o :: l) p n).
Proof.
  intros Hview Hi Hdel Hv
    [Htags Hpend Hexcl Hnodup Habsent Hfifo Hflight Hcalls Hsingle Hbegin].
  simpl in *.
  assert (Hrecv : tag ∈ recvs name l).
  { eapply Hflight; [done|]. by eapply list_elem_of_lookup_2. }
  assert (Hs : ∀ name', sents name' (o :: l) = sents name' l).
  { intros name'. apply sents_cons_other. by eapply delivery_not_sent. }
  assert (Hr : ∀ name', recvs name' (o :: l) = recvs name' l).
  { intros name'. apply recvs_cons_other. by eapply delivery_not_recv. }
  constructor; cbn [a_view a_log a_pend a_next].
  - constructor; [|done]. rewrite (delivery_tag _ _ _ Hdel).
    apply recvs_elem in Hrecv. rewrite Forall_forall in Htags.
    by apply Htags in Hrecv.
  - intros tag' Hin. destruct (Hpend tag' Hin) as (Hlt' & Hs' & Hc').
    split; [done|]. split.
    + intros name'. rewrite Hs. apply Hs'.
    + intros e Hin'. apply elem_of_cons in Hin' as [Ho|?]; [|by eapply Hc'].
      subst o. done.
  - intros tag' name' e. rewrite Hs. intros Hin Hin'.
    apply elem_of_cons in Hin' as [Ho|Hin']; [by subst o|]. by eapply Hexcl.
  - intros name'. by rewrite Hs.
  - intros name'. rewrite Hv, Hs, Hr. apply Habsent.
  - intros name' q' ps'. rewrite Hv, Hs, Hr. apply Hfifo.
  - intros name' q' ps' tag'. rewrite Hv, Hr. apply Hflight.
  - intros o' name' tag' Hin Hdel'. rewrite Hr.
    apply elem_of_cons in Hin as [->|Hin]; [|by eapply Hcalls].
    destruct (delivery_inj _ _ _ _ _ Hdel Hdel') as [-> ->]. done.
  - intros name' q' p0. rewrite Hv, Hr. intros Hview'.
    destruct (Hsingle name' q' p0 Hview') as [H1 H2].
    split; [done|]. intros l1 o' l2 tag' Hl Hdel'.
    apply cons_split in Hl as [(-> & -> & ->)|(l1' & -> & ->)]; [|by eapply H2].
    destruct (delivery_inj _ _ _ _ _ Hdel Hdel') as [-> ->].
    rewrite Hview in Hview'. simplify_eq.
    destruct i as [|i]; simpl in Hi; [|done]. simplify_eq. by apply H1.
  - intros l1 tag' name' l2 Hl.
    apply cons_split in Hl as [(-> & Ho & ->)|(l1' & -> & ->)]; [by subst o|].
    by eapply Hbegin.
Qed.

Lemma ainv_astep a a' : astep a a' → AInv a → AInv a'.
Proof.
  destruct 1; intros Hinv.
  - by eapply ainv_stutter.
  - by eapply ainv_create.
  - by apply ainv_closed.
  - by apply ainv_begin.
  - by eapply ainv_sent.
  - by apply ainv_cancelled.
  - by eapply ainv_recv.
  - by eapply ainv_idle.
  - by eapply ainv_work.
Qed.

Lemma ainv_reachable opts heap w s : reachable opts heap w s → AInv (abs s).
Proof.
  unfold reachable. intros Hsteps.
  assert (Hinit : AInv (abs (init_system opts heap w))).
  { eapply ainv_stutter; [|apply ainv_init]. intros n. unfold abs, view. simpl.
    by rewrite lookup_empty. }
  induction Hsteps as [|s1 s2 s3 Hstep _ IH]; [done|].
  apply IH. apply step_astep in Hstep.
  clear IH. induction Hstep as [|a1 a2 a3 Ha _ IHa]; [done|].
  apply IHa. by eapply ainv_astep.
Qed.

(** ** Topics keep the capacity and the workers they were created with *)

Lemma bus_ok_set_topic c name (t : topic) (b : memoryBus) :
  bus_ok c b → topic_ok c t → bus_ok c (set_topic name t b).
Proof.
  intros [Hc Ht] Hok. split; [done|]. intros name' t'. simpl.
  destruct (decide (name' = name)) as [->|Hne].
  - rewrite lookup_insert_eq. by intros [= <-].
  - rewrite lookup_insert_ne by done. apply Ht.
Qed.

Lemma new_topic_ok c : topic_ok c (new_topic c).
Proof. unfold topic_ok, new_topic. simpl. by rewrite length_replicate. Qed.

Lemma ensureTopic_ok c name (b : memoryBus) :
  bus_ok c b → bus_ok c (ensureTopic name b).1.
Proof.
  intros Hok. unfold ensureTopic. destruct (closed b); [done|].
  destruct (topics b !! name); [done|]. simpl.
  apply bus_ok_set_topic; [done|]. destruct Hok as [<- _]. apply new_topic_ok.
Qed.

Lemma Subscribe_ok c name h opts (b : memoryBus) :
  bus_ok c b → bus_ok c (Subscribe name h opts b).1.
Proof.
  intros Hok. unfold Subscribe. destruct h as [h|]; [|done].
  destruct (closed b); [done|].
  pose proof (ensureTopic_ok c name b Hok) as Hok'.
  destruct (ensureTopic name b) as [b' [t|]] eqn:He; simpl in *; [|done].
  apply ensureTopic_lookup in He.
  apply bus_ok_set_topic; [done|]. by apply (proj2 Hok') in He.
Qed.

Lemma Unsubscribe_ok c s (b : memoryBus) : bus_ok c b → bus_ok c (Unsubscribe s b).
Proof.
  intros Hok. unfold Unsubscribe. destruct (topics b !! sub_topic s) as [t|] eqn:E;
    [|done].
  apply bus_ok_set_topic; [done|]. by apply (proj2 Hok) in E.
Qed.

Lemma Close_ok c (b : memoryBus) : bus_ok c b → bus_ok c (Close b).1.
Proof.
  intros [Hc Ht]. unfold Close. destruct (closed b); [done|].
  split; [done|]. intros name t. simpl. rewrite lookup_fmap.
  destruct (topics b !! name) as [t0|] eqn:E; [|done]. intros [= <-].
  by apply Ht in E.
Qed.

Lemma publish_prefix_ok c ctx name event opts (b : memoryBus) heap b' heap' r :
  publish_prefix ctx name event opts (b, heap) = ((b', heap'), r) →
  bus_ok c b → bus_ok c b'.
Proof.
  unfold publish_prefix. simpl. destruct (closed b) eqn:Hc.
  - by intros [= <- <- <-].
  - destruct (apply_publish_opts _ _) as [pc heap1].
    destruct (if (0 <? map_len heap1 (Headers pc))%nat then _ else _) as [ctx1 heap2].
    intros Heq Hok. pose proof (ensureTopic_ok c name b Hok) as Hok'.
    destruct (ensureTopic name b) as [b1 [t|]]; by simplify_eq.
Qed.

Lemma worker_step_cap c name heap sb ph q (st : wstate) ph' q' st' :
  worker_step c name heap sb (ph, q, st) (ph', q', st') → chan_cap q' = chan_cap q.
Proof. by inversion 1. Qed.

Lemma step_bus_ok c s s' : step s s' → bus_ok c (sys_bus s) → bus_ok c (sys_bus s').
Proof.
  destruct 1; simpl; intros Hok; try done.
  - by apply Subscribe_ok.
  - by apply Unsubscribe_ok.
  - by apply Close_ok.
  - by eapply publish_prefix_ok.
  - by eapply publish_prefix_ok.
  - match goal with H : publish_select _ _ _ _ = SelSent _ |- _ =>
      apply publish_select_sent in H as (-> & _ & _) end.
    apply bus_ok_set_topic; [done|].
    match goal with H : topics _ !! _ = Some _ |- _ => apply (proj2 Hok) in H end.
    done.
  - match goal with H : worker_step _ _ _ _ _ _ |- _ =>
      apply worker_step_cap in H end.
    match goal with H : topics _ !! _ = Some _ |- _ =>
      apply (proj2 Hok) in H as (Hcap & Hw & Hlen) end.
    apply bus_ok_set_topic; [done|].
    split; [|split]; simpl; [congruence|done|]. by rewrite length_insert.
Qed.

Lemma reachable_bus_ok opts heap w s :
  reachable opts heap w s → bus_ok (apply_opts opts default_BusConfig) (sys_bus s).
Proof.
  unfold reachable. intros Hsteps.
  assert (Hinit : bus_ok (apply_opts opts default_BusConfig)
                         (sys_bus (init_system opts heap w))) by done.
  revert Hinit. generalize (apply_opts opts default_BusConfig).
  induction Hsteps as [|s1 s2 s3 Hstep _ IH]; intros c Hinit; [done|].
  apply IH. by eapply step_bus_ok.
Qed.

(** ** Options *)

Lemma lib_bus_opts_positive (opts : list BusOption) :
  Forall LibBusOption opts →
  ∀ c, (1 ≤ BufferSize c)%Z → (1 ≤ WorkersPerTopic c)%Z →
       (1 ≤ BufferSize (apply_opts opts c))%Z
       ∧ (1 ≤ WorkersPerTopic (apply_opts opts c))%Z.
Proof.
  unfold apply_opts. induction 1 as [|opt opts Hopt _ IH]; intros c Hb Hw; [done|].
  simpl. destruct Hopt as [n _|n _|f]; unfold WithBuffer, WithWorkers, WithOnError;
    try (by apply IH);
    destruct (0 <? n)%Z eqn:E; try (by apply IH);
    apply Z.ltb_lt in E; apply IH; simpl; lia.
Qed.

Lemma lib_subscribe_opts_positive (opts : list SubscribeOption) :
  Forall LibSubscribeOption opts →
  ∀ c, (1 ≤ Retries c)%Z → (1 ≤ Retries (apply_opts opts c))%Z.
Proof.
  unfold apply_opts. induction 1 as [|opt opts Hopt _ IH]; intros c Hc; [done|].
  simpl. destruct Hopt as [n _]. unfold WithRetries.
  destruct (0 <? n)%Z eqn:E; [|by apply IH].
  apply Z.ltb_lt in E. apply IH. simpl. lia.
Qed.


(** ** Publish on an open bus *)

Lemma ContextWithHeaders_scope ctx m heap :
  ctx_scope (ContextWithHeaders ctx m heap).1 = ctx_scope ctx.
Proof. unfold ContextWithHeaders. by destruct (map_len heap m =? 0)%nat. Qed.

Lemma publish_prefix_open ctx name event opts (b : memoryBus) heap :
  closed b = false →
  ∃ heap' it,
    publish_prefix ctx name event opts (b, heap)
    = (((ensureTopic name b).1, heap'),
       inr (default (new_topic (cfg b)) (topics b !! name), it))
    ∧ item_event it = event
    ∧ ctx_scope (item_ctx it) = ctx_scope (default Background ctx)
    ∧ topics (ensureTopic name b).1 !! name
      = Some (default (new_topic (cfg b)) (topics b !! name))
    ∧ ∀ n, n ≠ name → topics (ensureTopic name b).1 !! n = topics b !! n.
Proof.
  intros Hopen. unfold publish_prefix. simpl. rewrite Hopen.
  destruct (apply_publish_opts _ _) as [pc heap1].
  pose proof (ContextWithHeaders_scope (default Background ctx) (Headers pc) heap1)
    as Hscope.
  destruct (ensureTopic_open name b Hopen) as (t & He & ->).
  assert (Hlook : topics (ensureTopic name b).1 !! name
                  = Some (default (new_topic (cfg b)) (topics b !! name))).
  { rewrite He. simpl. destruct (topics b !! name) eqn:E; simpl; [done|].
    apply lookup_insert_eq. }
  assert (Hother : ∀ n, n ≠ name → topics (ensureTopic name b).1 !! n = topics b !! n).
  { intros n Hn. rewrite He. simpl. destruct (topics b !! name) eqn:E; simpl; [done|].
    by rewrite lookup_insert_ne. }
  destruct (0 <? map_len heap1 (Headers pc))%nat.
  - destruct (ContextWithHeaders _ _ _) as [ctx1 heap2]. simpl in Hscope.
    rewrite He in *. simpl in *. do 2 eexists. split; [done|]. done.
  - rewrite He in *. simpl in *. do 2 eexists. split; [done|]. done.
Qed.

Lemma queue_set_topic name (t : topic) (b : memoryBus) n :
  queue (set_topic name t b) n
  = if decide (n = name) then chan_buf (ch t) else queue b n.
Proof.
  unfold queue, set_topic. simpl. case_decide as Hn.
  - subst. by rewrite lookup_insert_eq.
  - by rewrite lookup_insert_ne.
Qed.

Lemma queue_ensureTopic name (b : memoryBus) n :
  queue (ensureTopic name b).1 n = queue b n.
Proof.
  unfold ensureTopic. destruct (closed b); [done|].
  destruct (topics b !! name) eqn:E; [done|]. simpl.
  rewrite queue_set_topic. case_decide; [|done]. subst. unfold queue. by rewrite E.
Qed.

(** What [Publish] returns on an open bus, by the case its [select] takes. *)
Lemma Publish_open pick can tag ctx name event opts (b : memoryBus) heap st' r :
  closed b = false →
  Publish pick can tag ctx name event opts (b, heap) = (st', r) →
  ∃ it, item_event it = event
    ∧ ctx_scope (item_ctx it) = ctx_scope (default Background ctx)
    ∧ publish_prefix ctx name event opts (b, heap)
      = (((ensureTopic name b).1, st'.2),
         inr (default (new_topic (cfg b)) (topics b !! name), it))
    ∧ match r with
      | PubReturned None =>
          queue st'.1 name = queue b name ++ [(tag, it)]
          ∧ (∀ n, n ≠ name → queue st'.1 n = queue b n)
          ∧ (Z.of_nat (length (queue b name))
             < chan_cap (ch (default (new_topic (cfg b)) (topics b !! name))))%Z
          ∧ (can !! ctx_scope (default Background ctx) = None ∨ pick = false)
      | PubReturned (Some e) =>
          can !! ctx_scope (default Background ctx) = Some e
          ∧ (∀ n, queue st'.1 n = queue b n)
      | PubPanic => ∀ n, queue st'.1 n = queue b n
      | PubBlocked =>
          can !! ctx_scope (default Background ctx) = None
          ∧ (chan_cap (ch (default (new_topic (cfg b)) (topics b !! name)))
             ≤ Z.of_nat (length (queue b name)))%Z
          ∧ (∀ n, queue st'.1 n = queue b n)
      end.
Proof.
  intros Hopen. unfold Publish.
  destruct (publish_prefix_open ctx name event opts b heap Hopen)
    as (heap' & it & -> & Hev & Hscope & Hlook & Hother).
  set (t := default (new_topic (cfg b)) (topics b !! name)) in *.
  assert (Hq : chan_buf (ch t) = queue b name).
  { unfold t, queue. by destruct (topics b !! name). }
  rewrite Hscope.
  destruct (publish_select pick (ch t) (tag, it) _) as [c'|e| |] eqn:Hsel;
    intros [= <- <-]; exists it; (split; [done|]); (split; [done|]);
    (split; [done|]); simpl.
  - pose proof Hsel as Hsel'.
    apply publish_select_sent in Hsel as (-> & Hcl & Hlt). split; [|split; [|split]].
    + rewrite queue_set_topic, decide_True by done. simpl. by rewrite Hq.
    + intros n Hn. rewrite queue_set_topic, decide_False by done.
      apply queue_ensureTopic.
    + by rewrite <- Hq.
    + revert Hsel'. unfold publish_select.
      destruct (send_ready (ch t)), (can !! _), pick; try done; eauto.
  - apply publish_select_done in Hsel. split; [done|]. apply queue_ensureTopic.
  - apply queue_ensureTopic.
  - apply publish_select_blocked in Hsel as [Hready ->]. split; [done|]. split.
    + unfold send_ready in Hready. apply orb_false_elim in Hready as [_ Hfull].
      apply Z.ltb_ge in Hfull. by rewrite <- Hq.
    + apply queue_ensureTopic.
Qed.

(** C5, as amended.  On a bus newly built from the package's options the
    buffer size is at least 1 (for [WithBuffer(1)] it is 1, for
    [WithBuffer(0)] it is the default 64), so a [Publish] to a topic nobody
    subscribed to finds room in the queue and does not block: when the scope
    is not cancelled it enqueues the envelope and returns nil; it returns an
    error only when the scope is already cancelled and the [select] takes
    the [ctx.Done()] case, and then the error is the scope's and nothing is
    enqueued.  In general the [select] blocks exactly when the queue is full
    and the scope is not cancelled. *)
Theorem Publish_fresh_bus_has_room (bopts : list BusOption) (heap : Heap)
    (pick : bool) (can : Cancelled) (tag : nat) (ctx : option Context)
    (name : string) (event : any) (opts : list PublishOption) :
  Forall LibBusOption bopts →
  (1 ≤ BufferSize (cfg (NewMemoryBus bopts)))%Z
  ∧ (∃ st' r it,
       Publish pick can tag ctx name event opts (NewMemoryBus bopts, heap)
       = (st', PubReturned r)
       ∧ item_event it = event
       ∧ (can !! ctx_scope (default Background ctx) = None →
          r = None ∧ queue st'.1 name = [(tag, it)])
       ∧ (r = None → queue st'.1 name = [(tag, it)])
       ∧ (∀ e, r = Some e →
            can !! ctx_scope (default Background ctx) = Some e ∧ pick = true
            ∧ queue st'.1 name = []))
  ∧ (∀ c x done,
       publish_select pick c x done = SelBlocked
       ↔ send_ready c = false ∧ done = None).
Proof.
  intros Hlib.
  destruct (lib_bus_opts_positive bopts Hlib default_BusConfig) as [Hb _]; [done..|].
  split; [done|]. split; [|intros; apply publish_select_blocked].
  set (b := NewMemoryBus bopts).
  destruct (publish_prefix_open ctx name event opts b heap eq_refl)
    as (heap' & it & Hprefix & Hev & Hscope & Hlook & Hother).
  unfold Publish. rewrite Hprefix, Hscope.
  replace (topics b !! name) with (@None topic) in * by (symmetry; apply lookup_empty).
  simpl in *. unfold publish_select, send_ready, chan_send. simpl.
  assert (E : (0 <? BufferSize (apply_opts bopts default_BusConfig))%Z = true)
    by (apply Z.ltb_lt; simpl in Hb; lia).
  change (Z.of_nat 0) with 0%Z. rewrite E.
  assert (Hq : ∀ c', queue (set_topic name (set_ch c' (new_topic (cfg b)))
                              (ensureTopic name b).1) name = chan_buf c').
  { intros c'. by rewrite queue_set_topic, decide_True. }
  assert (Hq0 : queue (ensureTopic name b).1 name = []).
  { rewrite queue_ensureTopic. unfold queue, b. simpl.
    by replace (∅ !! name) with (@None topic) by (symmetry; apply lookup_empty). }
  destruct (can !! ctx_scope (default Background ctx)) as [e|] eqn:Hcan;
    [destruct pick|].
  - exists ((ensureTopic name b).1, heap'), (Some e), it. simpl.
    split; [done|]. split; [done|]. split; [done|]. split; [done|].
    by intros e' [= <-].
  - eexists (_, heap'), None, it. simpl.
    split; [done|]. split; [done|]. split; [done|]. split; [|done].
    intros _. by rewrite Hq.
  - eexists (_, heap'), None, it. simpl.
    split; [done|]. split; [done|]. split; [|split; [|done]].
    + intros _. split; [done|]. by rewrite Hq.
    + intros _. by rewrite Hq.
Qed.

(** ** Cancelled calls and the order of deliveries *)

Lemma view_lookup (b : memoryBus) name (t : topic) :
  topics b !! name = Some t →
  view b name = Some (map fst (chan_buf (ch t)), map phase_tag (pool t)).
Proof. intros H. unfold view. by rewrite H. Qed.

Lemma view_lookup_None (b : memoryBus) name :
  topics b !! name = None → view b name = None.
Proof. intros H. unfold view. by rewrite H. Qed.


Lemma nodup_order {A} (l x1 x2 x3 y1 y2 y3 : list A) (a b : A) :
  NoDup l →
  l = x1 ++ a :: x2 ++ b :: x3 →
  l = y1 ++ b :: y2 ++ a :: y3 →
  False.
Proof.
  intros Hnd Hx Hy.
  assert (Ha1 : l !! length x1 = Some a) by (rewrite Hx; by apply list_lookup_middle).
  assert (Hb1 : l !! (length x1 + S (length x2)) = Some b).
  { rewrite Hx. replace (x1 ++ a :: x2 ++ b :: x3) with ((x1 ++ a :: x2) ++ b :: x3)
      by (by rewrite <- app_assoc).
    apply list_lookup_middle. rewrite length_app. simpl. lia. }
  assert (Hb2 : l !! length y1 = Some b) by (rewrite Hy; by apply list_lookup_middle).
  assert (Ha2 : l !! (length y1 + S (length y2)) = Some a).
  { rewrite Hy. replace (y1 ++ b :: y2 ++ a :: y3) with ((y1 ++ b :: y2) ++ a :: y3)
      by (by rewrite <- app_assoc).
    apply list_lookup_middle. rewrite length_app. simpl. lia. }
  pose proof (NoDup_lookup _ _ _ _ Hnd Ha1 Ha2).
  pose proof (NoDup_lookup _ _ _ _ Hnd Hb1 Hb2).
  lia.
Qed.

(** C2.  On a topic with one worker, in every state the system reaches: the
    tags sent to the topic's channel are, in the same order, the tags the
    worker received followed by the tags still buffered; and when the
    [Publish] of [p1] returned nil before the [Publish] of [p2] began, no
    handler or hook invocation for [p1] is logged after one for [p2]. *)
Theorem single_worker_fifo (opts : list BusOption) (heap : Heap) (w : World)
    (s : System) (name : string) (t : topic) :
  reachable opts heap w s →
  topics (sys_bus s) !! name = Some t → workers t = 1%Z →
  rev (sents name (sys_log s))
  = rev (recvs name (sys_log s)) ++ map fst (chan_buf (ch t))
  ∧ ∀ p1 p2,
      logged_before (ObsSent name p1) (ObsBegin p2 name) (sys_log s) →
      ∀ l1 o2 l2, sys_log s = l1 ++ o2 :: l2 → delivery name p2 o2 →
      ∀ o1, o1 ∈ l1 → ¬ delivery name p1 o1.
Proof.
  intros Hreach Ht Hone.
  destruct (ainv_reachable _ _ _ _ Hreach)
    as [Htags Hpend Hexcl Hnodup Habsent Hfifo Hflight Hcalls Hsingle Hbegin].
  simpl in *.
  pose proof (view_lookup _ _ _ Ht) as Hview.
  specialize (Hfifo name _ _ Hview).
  split.
  { rewrite Hfifo, rev_app_distr, rev_involutive. done. }
  destruct (reachable_bus_ok _ _ _ _ Hreach) as [_ Hok].
  destruct (Hok name t Ht) as (_ & _ & Hlen). rewrite Hone in Hlen.
  destruct (pool t) as [|ph [|ph' rest]] eqn:Hpool; simpl in Hlen; try lia.
  simpl in Hview. destruct (Hsingle name _ _ Hview) as [_ Hlast].
  intros p1 p2 (a & b & c & HL) l1 o2 l2 HL2 Hd2 o1 Hin1 Hd1.
  (* the call of [p1] sent before the call of [p2] began *)
  pose proof (Hbegin _ _ _ _ HL) as Hold.
  assert (Hlt : p1 < p2).
  { rewrite Forall_app, Forall_cons in Hold. by destruct Hold as (_ & ? & _). }
  (* the worker received [p2], and after it [p1] *)
  apply list_elem_of_split in Hin1 as (l1a & l1b & ->).
  pose proof (Hlast _ _ _ _ HL2 Hd2) as H2.
  rewrite <- app_assoc in HL2. simpl in HL2.
  pose proof (Hlast _ _ _ _ HL2 Hd1) as H1.
  rewrite recvs_app, (recvs_cons_other _ o2) in H1 by (by eapply delivery_not_recv).
  destruct (recvs name l2) as [|r2 rs2] eqn:Hr2; simpl in H2; [done|].
  injection H2 as ->.
  destruct (recvs name l1b) as [|r1 rs1] eqn:Hr1; simpl in H1;
    [injection H1 as ->; lia|].
  injection H1 as ->.
  (* so [p1] was sent after [p2] *)
  assert (Hs1 : sents name (sys_log s)
                = (rev (map fst (chan_buf (ch t))) ++ recvs name l1a)
                  ++ p1 :: rs1 ++ p2 :: rs2).
  { rewrite Hfifo. rewrite HL2 at 1.
    rewrite recvs_app, (recvs_cons_other _ o1) by (by eapply delivery_not_recv).
    rewrite recvs_app, (recvs_cons_other _ o2) by (by eapply delivery_not_recv).
    rewrite Hr1, Hr2. by rewrite <- !app_assoc. }
  (* but the log has the send of [p2] after its begin *)
  assert (Hs2 : sents name (sys_log s)
                = sents name a ++ sents name b ++ p1 :: sents name c).
  { rewrite HL. rewrite sents_app, sents_cons_other by done.
    by rewrite sents_app, sents_cons_sent. }
  assert (Hin2 : p2 ∈ sents name a).
  { assert (Hin : p2 ∈ sents name (sys_log s)).
    { rewrite Hs1. apply elem_of_app. right. right. apply elem_of_app. right. by left. }
    rewrite Hs2 in Hin. rewrite Forall_app, Forall_cons in Hold.
    destruct Hold as (Hb & _ & Hc).
    apply elem_of_app in Hin as [Hin|Hin]; [done|].
    apply elem_of_app in Hin as [Hin|Hin].
    - apply (sents_tag_bound _ _ _ _ Hb) in Hin. lia.
    - apply elem_of_cons in Hin as [->|Hin]; [lia|].
      apply (sents_tag_bound _ _ _ _ Hc) in Hin. lia. }
  apply list_elem_of_split in Hin2 as (sa1 & sa2 & Hsa).
  apply (nodup_order (sents name (sys_log s))
           (rev (map fst (chan_buf (ch t))) ++ recvs name l1a) rs1 rs2
           sa1 (sa2 ++ sents name b) (sents name c) p1 p2);
    [apply Hnodup|exact Hs1|].
  rewrite Hs2, Hsa. by rewrite <- !app_assoc.
Qed.

(** ** Handlers and the publisher *)

Lemma with_handlers_lookup f hook (b : memoryBus) name :
  ch <$> (topics (with_handlers f hook b) !! name) = ch <$> (topics b !! name).
Proof.
  unfold with_handlers. simpl. rewrite map_lookup_imap.
  by destruct (topics b !! name).
Qed.

Lemma ensureTopic_with_handlers f hook (b : memoryBus) name :
  ch <$> (ensureTopic name (with_handlers f hook b)).2
  = ch <$> (ensureTopic name b).2.
Proof.
  unfold ensureTopic. change (closed (with_handlers f hook b)) with (closed b).
  destruct (closed b); [done|].
  pose proof (with_handlers_lookup f hook b name) as Hl.
  destruct (topics (with_handlers f hook b) !! name),
           (topics b !! name); try done.
Qed.

Lemma Publish_with_handlers f hook pick can tag ctx name event opts
    (b : memoryBus) heap :
  (Publish pick can tag ctx name event opts (with_handlers f hook b, heap)).2
  = (Publish pick can tag ctx name event opts (b, heap)).2.
Proof.
  unfold Publish, publish_prefix.
  change (closed (with_handlers f hook b, heap).1) with (closed b).
  change (closed (b, heap).1) with (closed b).
  change ((with_handlers f hook b, heap).1) with (with_handlers f hook b).
  change ((b, heap).1) with b. change ((with_handlers f hook b, heap).2) with heap.
  change ((b, heap).2) with heap.
  destruct (closed b); [done|].
  destruct (apply_publish_opts _ _) as [pc heap1].
  destruct (if (0 <? map_len heap1 (Headers pc))%nat then _ else _) as [ctx1 heap2].
  pose proof (ensureTopic_with_handlers f hook b name) as He.
  destruct (ensureTopic name (with_handlers f hook b)) as [b1 [t1|]],
           (ensureTopic name b) as [b2 [t2|]]; simpl in *; try done.
  injection He as ->.
  by destruct (publish_select _ _ _ _).
Qed.

(** X2.  When every retry budget in the snapshot is below the largest
    [int], the worker's pass over the snapshot runs to its end and invokes the
    handler of every subscription in it at least once, whatever the handlers
    of the subscriptions before it returned.  What [Publish] returns does
    not depend on the handlers registered or on the hook, and a worker's
    step in a retry loop, whatever the handler returns, leaves the topic's
    channel as it is. *)
Theorem failures_do_not_stop_dispatch (c : BusConfig) (name : string) (tag : nat)
    (heap : Heap) (it : item) (snap : list (Z * subscription)) (st : wstate)
    (fuel : nat) :
  (∀ s, s ∈ snap →
     (effective_retries s.2 < max_int)%Z ∧ (effective_retries s.2 < Z.of_nat fuel)%Z) →
  (∃ st' new,
     worker_item fuel c name tag heap it snap st = (true, st')
     ∧ st'.2 = new ++ st.2
     ∧ ∀ s, s ∈ snap → 1 ≤ count_obs (is_call_of s.1) new)
  ∧ (∀ f hook pick can tag' ctx name' event opts (b : memoryBus) heap0,
       (Publish pick can tag' ctx name' event opts (with_handlers f hook b, heap0)).2
       = (Publish pick can tag' ctx name' event opts (b, heap0)).2)
  ∧ (∀ sb tag' it' s retries attempt lastErr rest q (st0 : wstate) ph' q' st',
       worker_step c name heap sb
         (WRetry tag' it' s retries attempt lastErr rest, q, st0) (ph', q', st') →
       q' = q).
Proof.
  intros Hbudget. split; [by apply worker_item_total|]. split.
  - intros. apply Publish_with_handlers.
  - intros * Hstep. by inversion Hstep.
Qed.

Lemma call_entries_other name tag it id id' (new : list Obs) :
  Forall (call_entry name tag it id) new → id ≠ id' →
  count_obs (is_call_of id') new = 0.
Proof.
  intros Hall Hne. apply count_obs_none. eapply Forall_impl; [exact Hall|].
  intros o [res ->]. simpl. by apply bool_decide_eq_false.
Qed.

(** * Further properties of the package *)

(** ** The header helpers *)

Lemma map_len_heap_get (heap : Heap) (m : MapRef) :
  map_len heap m = size (heap_get heap m).
Proof. destruct m; simpl; [done|]. by rewrite map_size_empty. Qed.

Lemma map_len_zero (heap : Heap) (m : MapRef) :
  (map_len heap m =? 0)%nat = true ↔ heap_get heap m = ∅.
Proof. rewrite map_len_heap_get, Nat.eqb_eq. apply map_size_empty_iff. Qed.

Lemma size_pos (h : gmap string string) : h ≠ ∅ → (0 <? size h)%nat = true.
Proof. intros Hne. apply Nat.ltb_lt. apply size_pos_nonempty in Hne. lia. Qed.

(** X3.  [ContextWithHeaders] keeps the cancellation scope and writes to no
    map that exists.  With a nil or empty map it returns the context it was
    given.  With a non-empty map it stores a copy in a new map, whatever
    headers the context carried before: [HeadersFrom] on the result returns
    that new map with [ok = true], it holds exactly the pairs given, and a
    later write to any older map (the caller's among them) does not change
    it.  [HeadersFrom] returns the stored map itself, not a copy: after a
    write to it, [HeadersFrom] returns the map as written, with [ok] telling
    whether it is non-empty.  On a context without headers [HeadersFrom]
    returns nil and false. *)
Theorem ContextWithHeaders_round_trip (ctx : Context) (m : MapRef) (heap : Heap)
    (ctx' : Context) (heap' : Heap) :
  ContextWithHeaders ctx m heap = (ctx', heap') →
  ctx_scope ctx' = ctx_scope ctx
  ∧ (∀ l, l ∈ dom heap → heap' !! l = heap !! l)
  ∧ (heap_get heap m = ∅ → ctx' = ctx ∧ heap' = heap)
  ∧ (heap_get heap m ≠ ∅ →
       ∃ cp, (cp ∉ dom heap)
         ∧ ctx_headers ctx' = Some cp
         ∧ heap' = <[cp := heap_get heap m]> heap
         ∧ HeadersFrom ctx' heap' = (Some cp, true)
         ∧ (∀ l h, l ∈ dom heap →
              HeadersFrom ctx' (<[l := h]> heap') = (Some cp, true)
              ∧ <[l := h]> heap' !! cp = Some (heap_get heap m))
         ∧ (∀ h, HeadersFrom ctx' (<[cp := h]> heap') = (Some cp, (0 <? size h)%nat)))
  ∧ (ctx_headers ctx = None → ∀ heap0, HeadersFrom ctx heap0 = (None, false)).
Proof.
  unfold ContextWithHeaders. intros Heq.
  destruct (map_len heap m =? 0)%nat eqn:E.
  - apply map_len_zero in E. injection Heq as <- <-.
    split; [done|]. split; [done|]. split; [done|]. split; [done|].
    intros Hnone heap0. unfold HeadersFrom. by rewrite Hnone.
  - assert (Hne : heap_get heap m ≠ ∅).
    { intros He. apply map_len_zero in He. congruence. }
    rewrite copy_into_empty in Heq. injection Heq as <- <-.
    pose proof (is_fresh (dom heap)) as Hfresh.
    split; [done|]. split; [|split; [done|]; split].
    + intros l Hl. rewrite lookup_insert_ne; [done|]. by intros <-.
    + intros _. exists (fresh (dom heap)).
      split; [done|]. split; [done|]. split; [done|]. split; [|split].
      * unfold HeadersFrom. simpl. rewrite lookup_insert_eq. simpl.
        by rewrite size_pos.
      * intros l h Hl.
        assert (l ≠ fresh (dom heap)) by (by intros ->).
        unfold HeadersFrom. simpl.
        rewrite lookup_insert_ne by done. rewrite lookup_insert_eq. simpl.
        by rewrite size_pos.
      * intros h. unfold HeadersFrom. simpl. by rewrite lookup_insert_eq.
    + intros Hnone heap0. unfold HeadersFrom. by rewrite Hnone.
Qed.

(** ** The options of a Publish call *)

Lemma union_list_app_union (l : list (gmap string string)) (M : gmap string string) a :
  ⋃ (l ++ [a]) ∪ M = ⋃ l ∪ (a ∪ M).
Proof.
  induction l as [|x l IH]; simpl.
  - by rewrite (right_id_L ∅ (∪)), (left_id_L ∅ (∪)).
  - by rewrite <- !(assoc_L (∪)), IH.
Qed.

Lemma heap_get_insert_fresh (heap : Heap) (m : MapRef) d h :
  valid_ref heap m → d ∉ dom heap → heap_get (<[d := h]> heap) m = heap_get heap m.
Proof.
  destruct m as [l|]; simpl; [|done]. intros Hl Hd.
  rewrite lookup_insert_ne; [done|]. by intros ->.
Qed.

(** One [WithHeaders] option adds the pairs of its map to those gathered so
    far, in a map of the call's own. *)
Lemma WithHeaders_merge (heap : Heap) (m : MapRef) pc hk (M : gmap string string) :
  valid_ref heap m →
  (M = ∅ ∧ Headers pc = None ∧ hk = heap)
  ∨ (M ≠ ∅ ∧ ∃ d, Headers pc = Some d ∧ (d ∉ dom heap) ∧ hk = <[d := M]> heap) →
  (heap_get heap m ∪ M = ∅
   ∧ Headers (WithHeaders m pc hk).1 = None ∧ (WithHeaders m pc hk).2 = heap)
  ∨ (heap_get heap m ∪ M ≠ ∅
     ∧ ∃ d, Headers (WithHeaders m pc hk).1 = Some d ∧ (d ∉ dom heap)
            ∧ (WithHeaders m pc hk).2 = <[d := heap_get heap m ∪ M]> heap).
Proof.
  intros Hm Hinv.
  assert (Hget : heap_get hk m = heap_get heap m).
  { destruct Hinv as [(_ & _ & ->)|(_ & d & _ & Hd & ->)]; [done|].
    by apply heap_get_insert_fresh. }
  unfold WithHeaders. destruct (map_len hk m =? 0)%nat eqn:E.
  - apply map_len_zero in E. rewrite Hget in E. rewrite E, (left_id_L ∅ (∪)).
    simpl. destruct Hinv as [(-> & Hh & ->)|(Hne & d & Hh & Hd & ->)]; [by left|].
    right. split; [done|]. by exists d.
  - assert (Hne : heap_get heap m ≠ ∅).
    { intros He. rewrite <- Hget in He. apply map_len_zero in He. congruence. }
    assert (Hne' : heap_get heap m ∪ M ≠ ∅).
    { intros He. by apply map_positive_l in He. }
    right. split; [done|].
    destruct Hinv as [(-> & Hh & ->)|(HneM & d & Hh & Hd & ->)]; rewrite Hh.
    + exists (fresh (dom heap)). pose proof (is_fresh (dom heap)) as Hfresh.
      simpl. split; [done|]. split; [done|].
      rewrite lookup_insert_eq. simpl.
      rewrite (heap_get_insert_fresh heap m) by done.
      by rewrite copy_into_union, insert_insert_eq.
    + exists d. simpl. split; [done|]. split; [done|].
      rewrite lookup_insert_eq. simpl.
      rewrite (heap_get_insert_fresh heap m) by done.
      by rewrite copy_into_union, insert_insert_eq.
Qed.

Lemma apply_publish_opts_merge (heap : Heap) opts ms :
  lib_publish_opts opts ms → Forall (valid_ref heap) ms →
  ∀ pc hk (M : gmap string string),
    (M = ∅ ∧ Headers pc = None ∧ hk = heap)
    ∨ (M ≠ ∅ ∧ ∃ d, Headers pc = Some d ∧ (d ∉ dom heap) ∧ hk = <[d := M]> heap) →
    (⋃ (rev (heap_get heap <$> ms)) ∪ M = ∅
     ∧ Headers (apply_publish_opts opts (pc, hk)).1 = None
     ∧ (apply_publish_opts opts (pc, hk)).2 = heap)
    ∨ (⋃ (rev (heap_get heap <$> ms)) ∪ M ≠ ∅
       ∧ ∃ d, Headers (apply_publish_opts opts (pc, hk)).1 = Some d ∧ (d ∉ dom heap)
              ∧ (apply_publish_opts opts (pc, hk)).2
                = <[d := ⋃ (rev (heap_get heap <$> ms)) ∪ M]> heap).
Proof.
  induction 1 as [|m opts ms _ IH|key opts ms _ IH]; intros Hvalid pc hk M Hinv.
  - simpl. by rewrite (left_id_L ∅ (∪)).
  - apply Forall_cons in Hvalid as [Hm Hvalid].
    change (apply_publish_opts (WithHeaders m :: opts) (pc, hk))
      with (apply_publish_opts opts (WithHeaders m pc hk)).
    rewrite fmap_cons. simpl rev. rewrite union_list_app_union.
    pose proof (WithHeaders_merge heap m pc hk M Hm Hinv) as Hstep.
    destruct (WithHeaders m pc hk) as [pc1 hk1]. by apply IH.
  - change (apply_publish_opts (WithKey key :: opts) (pc, hk))
      with (apply_publish_opts opts ({| Headers := Headers pc; Key := key |}, hk)).
    by apply IH.
Qed.

(** X4.  The options of a [Publish] call.  For options of this package in
    any number and order, whose [WithHeaders] arguments are the maps [ms] of
    the caller, a [Publish] on an open bus reaches its [select] with the
    payload given and the caller's scope, and has written to none of the
    caller's maps.  The headers of the envelope are the pairs of all the maps
    in [ms], a later map winning over an earlier one on a key they share
    ([∪] on maps prefers its left operand); [WithKey] options change nothing.
    When there are no pairs (no [WithHeaders] option, or nil and empty maps
    only) the envelope carries the caller's context as it is, with whatever
    headers it had, and no map is made.  When there are pairs the envelope's
    context carries them in a new map, in place of any headers the caller's
    context had. *)
Theorem Publish_merges_headers (ctx : option Context) (name : string) (event : any)
    (opts : list PublishOption) (ms : list MapRef) (b : memoryBus) (heap : Heap) :
  lib_publish_opts opts ms → Forall (valid_ref heap) ms → closed b = false →
  ∃ t it heap',
    publish_prefix ctx name event opts (b, heap)
    = (((ensureTopic name b).1, heap'), inr (t, it))
    ∧ item_event it = event
    ∧ ctx_scope (item_ctx it) = ctx_scope (default Background ctx)
    ∧ (∀ l, l ∈ dom heap → heap' !! l = heap !! l)
    ∧ (⋃ (rev (heap_get heap <$> ms)) = ∅ →
         item_ctx it = default Background ctx ∧ heap' = heap)
    ∧ (⋃ (rev (heap_get heap <$> ms)) ≠ ∅ →
         ∃ cp, (cp ∉ dom heap)
           ∧ ctx_headers (item_ctx it) = Some cp
           ∧ HeadersFrom (item_ctx it) heap' = (Some cp, true)
           ∧ heap' !! cp = Some (⋃ (rev (heap_get heap <$> ms)))).
Proof.
  intros Hopts Hvalid Hopen.
  destruct (ensureTopic_open name b Hopen) as (t & Ht & _).
  pose proof (apply_publish_opts_merge heap opts ms Hopts Hvalid
                {| Headers := None; Key := EmptyString |} heap ∅
                ltac:(by left)) as Hmerge.
  rewrite (right_id_L ∅ (∪)) in Hmerge.
  unfold publish_prefix. cbn [fst snd]. rewrite Hopen.
  destruct (apply_publish_opts opts _) as [pc heap1]. cbn [fst snd] in Hmerge.
  destruct Hmerge as [(HM & Hh & ->)|(HM & d & Hh & Hd & ->)].
  - rewrite Hh. simpl. rewrite Ht. eexists t, _, heap.
    split; [done|]. simpl. split; [done|]. split; [done|]. split; [done|].
    split; [done|]. by intros Hne.
  - set (M := ⋃ (rev (heap_get heap <$> ms))) in *.
    set (heap1 := <[d := M]> heap).
    assert (H1 : heap1 !! d = Some M) by apply lookup_insert_eq.
    rewrite Hh, (map_len_lookup heap1 d M H1), (size_pos M HM).
    rewrite (ContextWithHeaders_copy _ heap1 d M H1 HM), Ht.
    set (cp := fresh (dom heap1)).
    assert (Hcp : cp ∉ dom heap1) by apply is_fresh.
    assert (Hcp0 : cp ∉ dom heap).
    { intros Hin. apply Hcp. unfold heap1. rewrite dom_insert_L. set_solver. }
    eexists t, _, _. split; [done|]. simpl.
    split; [done|]. split; [done|]. split; [|split; [done|]].
    + intros l Hl. unfold heap1.
      rewrite lookup_insert_ne by (by intros <-).
      rewrite lookup_insert_ne by (by intros <-). done.
    + intros _. exists cp. split; [done|]. split; [done|].
      split; [|apply lookup_insert_eq].
      unfold HeadersFrom. simpl. rewrite lookup_insert_eq. simpl.
      by rewrite (size_pos M HM).
Qed.

(** ** Subscribe and Unsubscribe *)

Lemma new_topic_ids_ok c : ids_ok (new_topic c) ∧ (nextID (new_topic c) < max_int)%Z.
Proof.
  split; [|done]. split; [done|]. simpl. intros id Hid.
  rewrite dom_empty_L in Hid. by apply elem_of_empty in Hid.
Qed.

Lemma default_topic_ids_ok name (b : memoryBus) :
  (∀ t, topics b !! name = Some t → ids_ok t ∧ (nextID t < max_int)%Z) →
  ids_ok (default (new_topic (cfg b)) (topics b !! name))
  ∧ (nextID (default (new_topic (cfg b)) (topics b !! name)) < max_int)%Z.
Proof.
  intros Hids. destruct (topics b !! name) as [t|]; simpl; [by apply Hids|].
  apply new_topic_ids_ok.
Qed.

Lemma ensureTopic_other name (b : memoryBus) n :
  n ≠ name → topics (ensureTopic name b).1 !! n = topics b !! n.
Proof.
  intros Hn. unfold ensureTopic. destruct (closed b); [done|].
  destruct (topics b !! name); [done|]. simpl. by rewrite lookup_insert_ne.
Qed.

Lemma ensureTopic_cfg name (b : memoryBus) : cfg (ensureTopic name b).1 = cfg b.
Proof.
  unfold ensureTopic. destruct (closed b); [done|]. by destruct (topics b !! name).
Qed.

(** What [Subscribe] does on an open bus, with [t] the topic [ensureTopic]
    returns. *)
Lemma Subscribe_open name h opts (b : memoryBus) :
  closed b = false →
  Subscribe name (Some h) opts b
  = (set_topic name
       {| ch := ch (default (new_topic (cfg b)) (topics b !! name));
          workers := workers (default (new_topic (cfg b)) (topics b !! name));
          subs := <[wrap_int (nextID (default (new_topic (cfg b)) (topics b !! name)) + 1)
                    := {| handler := h;
                          config := apply_opts opts default_SubscribeConfig |}]>
                    (subs (default (new_topic (cfg b)) (topics b !! name)));
          nextID := wrap_int (nextID (default (new_topic (cfg b)) (topics b !! name)) + 1);
          pool := pool (default (new_topic (cfg b)) (topics b !! name)) |}
       (ensureTopic name b).1,
     (Some {| sub_topic := name;
              sub_id := wrap_int (nextID (default (new_topic (cfg b))
                                            (topics b !! name)) + 1) |}, None)).
Proof.
  intros Hopen. unfold Subscribe. rewrite Hopen.
  destruct (ensureTopic_open name b Hopen) as (t & Ht & ->). by rewrite Ht.
Qed.

(** On an open bus whose counter for the topic has not reached the largest
    [int64], the increment does not wrap and the new id is in use by no
    subscription. *)
Lemma Subscribe_open_fresh name h opts (b : memoryBus) :
  closed b = false →
  (∀ t, topics b !! name = Some t → ids_ok t ∧ (nextID t < max_int)%Z) →
  Subscribe name (Some h) opts b
  = (set_topic name
       {| ch := ch (default (new_topic (cfg b)) (topics b !! name));
          workers := workers (default (new_topic (cfg b)) (topics b !! name));
          subs := <[(nextID (default (new_topic (cfg b)) (topics b !! name)) + 1)%Z
                    := {| handler := h;
                          config := apply_opts opts default_SubscribeConfig |}]>
                    (subs (default (new_topic (cfg b)) (topics b !! name)));
          nextID := (nextID (default (new_topic (cfg b)) (topics b !! name)) + 1)%Z;
          pool := pool (default (new_topic (cfg b)) (topics b !! name)) |}
       (ensureTopic name b).1,
     (Some {| sub_topic := name;
              sub_id := (nextID (default (new_topic (cfg b))
                                   (topics b !! name)) + 1)%Z |}, None))
  ∧ subs (default (new_topic (cfg b)) (topics b !! name))
      !! (nextID (default (new_topic (cfg b)) (topics b !! name)) + 1)%Z = None.
Proof.
  intros Hopen Hids. rewrite (Subscribe_open name h opts b Hopen).
  destruct (default_topic_ids_ok name b Hids) as [[Hpos Hdom] Hmax].
  rewrite wrap_int_id by (unfold in_int, min_int, max_int in *; lia).
  split; [done|]. apply not_elem_of_dom. intros Hin. apply Hdom in Hin. lia.
Qed.


Lemma set_topic_id name (t : topic) (b : memoryBus) :
  topics b !! name = Some t → set_topic name t b = b.
Proof. intros Ht. unfold set_topic. rewrite insert_id by done. by destruct b. Qed.

Lemma set_topic_twice name (t1 t2 : topic) (b : memoryBus) :
  set_topic name t2 (set_topic name t1 b) = set_topic name t2 b.
Proof. unfold set_topic. simpl. by rewrite insert_insert_eq. Qed.

(** X6.  [Unsubscribe] removes the subscription its handle names and
    nothing else: the other subscriptions of the topic, its counter, its
    channel and its workers, every other topic, the configuration and the
    closed flag are as before (it does not ask whether the bus is closed).
    A handle whose topic does not exist, or whose id is not registered (a
    second [Unsubscribe] of the same handle among them), changes nothing. *)
Theorem Unsubscribe_removes_only_its_subscription (s : memorySub) (b : memoryBus) :
  cfg (Unsubscribe s b) = cfg b
  ∧ closed (Unsubscribe s b) = closed b
  ∧ (∀ n, n ≠ sub_topic s → topics (Unsubscribe s b) !! n = topics b !! n)
  ∧ (topics b !! sub_topic s = None → Unsubscribe s b = b)
  ∧ (∀ t, topics b !! sub_topic s = Some t →
       ∃ t', topics (Unsubscribe s b) !! sub_topic s = Some t'
         ∧ subs t' = delete (sub_id s) (subs t)
         ∧ subs t' !! sub_id s = None
         ∧ (∀ id, id ≠ sub_id s → subs t' !! id = subs t !! id)
         ∧ ch t' = ch t ∧ pool t' = pool t ∧ workers t' = workers t
         ∧ nextID t' = nextID t
         ∧ (subs t !! sub_id s = None → Unsubscribe s b = b))
  ∧ Unsubscribe s (Unsubscribe s b) = Unsubscribe s b.
Proof.
  unfold Unsubscribe at 1 2 3 4 5 6.
  destruct (topics b !! sub_topic s) as [t|] eqn:Ht.
  - split; [done|]. split; [done|]. split.
    { intros n Hn. simpl. by rewrite lookup_insert_ne. }
    split; [done|]. split.
    { intros t0 [= <-]. eexists. split; [apply lookup_insert_eq|]. simpl.
      split; [done|]. split; [apply lookup_delete_eq|]. split.
      { intros id Hid. by rewrite lookup_delete_ne. }
      split; [done|]. split; [done|]. split; [done|]. split; [done|].
      intros Hnone. rewrite delete_id by done.
      rewrite <- (set_topic_id _ t b Ht) at 2. f_equal. by destruct t. }
    unfold Unsubscribe. rewrite Ht. simpl. rewrite lookup_insert_eq. simpl.
    fold (set_topic (sub_topic s)
            {| ch := ch t; workers := workers t;
               subs := delete (sub_id s) (subs t); nextID := nextID t;
               pool := pool t |} b).
    rewrite set_topic_twice. by rewrite delete_delete_eq.
  - split; [done|]. split; [done|]. split; [done|]. split; [done|].
    split; [done|]. unfold Unsubscribe. rewrite Ht. simpl. by rewrite Ht.
Qed.

Lemma Unsubscribe_set_topic name id (t : topic) (b : memoryBus) :
  Unsubscribe {| sub_topic := name; sub_id := id |} (set_topic name t b)
  = set_topic name
      {| ch := ch t; workers := workers t; subs := delete id (subs t);
         nextID := nextID t; pool := pool t |} b.
Proof.
  unfold Unsubscribe. simpl. rewrite lookup_insert_eq.
  fold (set_topic name t b). apply set_topic_twice.
Qed.

Lemma topics_set_topic name (t : topic) (b : memoryBus) :
  topics (set_topic name t b) !! name = Some t.
Proof. apply lookup_insert_eq. Qed.

Lemma topics_set_topic_ne name (t : topic) (b : memoryBus) n :
  n ≠ name → topics (set_topic name t b) !! n = topics b !! n.
Proof. intros Hn. simpl. by rewrite lookup_insert_ne. Qed.

(** X7.  [Subscribe] followed by [Unsubscribe] of the handle it returned,
    under the condition of X5: the topic's subscriptions are those from
    before the [Subscribe], its channel and workers are untouched, every
    other topic is as before; only the counter has moved on, so the next
    [Subscribe] on the topic returns another id and the old handle cannot
    remove a later subscription.  A topic created by the [Subscribe] stays,
    with its channel and its workers. *)
Theorem Subscribe_Unsubscribe_round_trip (name : string) (h : Handler)
    (opts : list SubscribeOption) (b b' : memoryBus) (sub : memorySub) :
  closed b = false →
  (∀ t, topics b !! name = Some t → ids_ok t ∧ (nextID t < max_int)%Z) →
  Subscribe name (Some h) opts b = (b', (Some sub, None)) →
  ∃ t t'',
    t = default (new_topic (cfg b)) (topics b !! name)
    ∧ topics (Unsubscribe sub b') !! name = Some t''
    ∧ subs t'' = subs t
    ∧ ch t'' = ch t ∧ pool t'' = pool t ∧ workers t'' = workers t
    ∧ nextID t'' = (nextID t + 1)%Z
    ∧ (∀ n, n ≠ name → topics (Unsubscribe sub b') !! n = topics b !! n)
    ∧ (∀ h2 opts2 b2 sub2,
         Subscribe name (Some h2) opts2 (Unsubscribe sub b') = (b2, (Some sub2, None)) →
         sub_id sub2 ≠ sub_id sub).
Proof.
  intros Hopen Hids.
  destruct (Subscribe_open_fresh name h opts b Hopen Hids) as [-> Hfresh].
  destruct (default_topic_ids_ok name b Hids) as [[Hpos _] Hmax].
  set (t := default (new_topic (cfg b)) (topics b !! name)) in *.
  intros [= <- <-].
  rewrite Unsubscribe_set_topic. cbn [ch workers subs nextID pool sub_id].
  rewrite delete_insert_id by done.
  exists t. eexists. split; [done|]. split; [apply topics_set_topic|].
  cbn [ch workers subs nextID pool].
  split; [done|]. split; [done|]. split; [done|]. split; [done|].
  split; [done|]. split.
  { intros n Hn. rewrite topics_set_topic_ne by done. by apply ensureTopic_other. }
  intros h2 opts2 b2 sub2.
  rewrite Subscribe_open by (simpl; by rewrite ensureTopic_closed_flag).
  rewrite topics_set_topic. intros [= _ <-]. cbn [default sub_id nextID].
  pose proof (wrap_int_in_int (nextID t + 1 + 1)) as Hin.
  destruct (decide (nextID t + 1 < max_int)%Z) as [Hlt|Hge].
  - rewrite wrap_int_id by (unfold in_int, min_int, max_int in *; lia). lia.
  - replace (nextID t + 1 + 1)%Z with (max_int + 1)%Z by lia.
    change (wrap_int (max_int + 1)) with min_int.
    unfold min_int, max_int in *. lia.
Qed.

(** ** Close *)

(** X8.  [Close] always returns nil and leaves the bus closed.  A second
    [Close] changes nothing.  The first one marks the channel of every topic
    closed and touches nothing else: the envelopes waiting in each channel,
    the subscriptions, the counters and the workers are as before, and no
    topic is added or removed. *)
Theorem Close_keeps_queues_and_subscriptions (b : memoryBus) :
  (Close b).2 = None
  ∧ closed (Close b).1 = true
  ∧ cfg (Close b).1 = cfg b
  ∧ Close (Close b).1 = ((Close b).1, None)
  ∧ (closed b = true → (Close b).1 = b)
  ∧ (∀ name, queue (Close b).1 name = queue b name)
  ∧ (∀ name, topics (Close b).1 !! name = None ↔ topics b !! name = None)
  ∧ (∀ name t, topics b !! name = Some t →
       ∃ t', topics (Close b).1 !! name = Some t'
         ∧ chan_buf (ch t') = chan_buf (ch t)
         ∧ chan_cap (ch t') = chan_cap (ch t)
         ∧ subs t' = subs t ∧ nextID t' = nextID t
         ∧ pool t' = pool t ∧ workers t' = workers t
         ∧ (closed b = false → chan_closed (ch t') = true)).
Proof.
  unfold Close. destruct (closed b) eqn:Hc; simpl.
  - rewrite Hc. split; [done|]. split; [done|]. split; [done|]. split; [done|].
    split; [done|]. split; [done|]. split; [done|].
    intros name t Ht. exists t. by rewrite Ht.
  - split; [done|]. split; [done|]. split; [done|]. split; [done|].
    split; [done|]. split.
    { intros name. unfold queue. simpl. rewrite lookup_fmap.
      by destruct (topics b !! name). }
    split.
    { intros name. rewrite lookup_fmap. by destruct (topics b !! name). }
    intros name t Ht. exists (close_topic t). rewrite lookup_fmap, Ht. done.
Qed.

(** ** Typed subscriptions *)


(** ** What a call leaves as it is *)

Lemma kept_refl (b : memoryBus) : kept b b.
Proof.
  split; [done|]. split; [done|]. split; [done|].
  intros n t' Ht. exists t'. eauto.
Qed.

Lemma ensureTopic_kept name (b : memoryBus) : kept b (ensureTopic name b).1.
Proof.
  unfold ensureTopic. destruct (closed b) eqn:Hc; [apply kept_refl|].
  destruct (topics b !! name) as [t|] eqn:Ht; [apply kept_refl|].
  split; [done|]. split; [done|]. simpl. split.
  - intros n. destruct (decide (n = name)) as [->|Hn].
    + by rewrite lookup_insert_eq.
    + by rewrite lookup_insert_ne.
  - intros n t'. destruct (decide (n = name)) as [->|Hn].
    + rewrite lookup_insert_eq. intros [= <-]. exists (new_topic (cfg b)).
      split; [by right|done].
    + rewrite lookup_insert_ne by done. intros Ht'. exists t'. eauto.
Qed.

Lemma kept_set_topic name (t t' : topic) (b b' : memoryBus) :
  kept b b' → topics b' !! name = Some t → ch t' = ch t → pool t' = pool t →
  kept b (set_topic name t' b').
Proof.
  intros (Hcfg & Hcl & Hnone & Htop) Ht Hch Hpool.
  split; [done|]. split; [done|]. simpl. split.
  - intros n. destruct (decide (n = name)) as [->|Hn].
    + by rewrite lookup_insert_eq.
    + rewrite lookup_insert_ne by done. apply Hnone.
  - intros n t1. destruct (decide (n = name)) as [->|Hn].
    + rewrite lookup_insert_eq. intros [= <-].
      destruct (Htop _ _ Ht) as (t0 & H0 & Hc0 & Hp0).
      exists t0. split; [done|]. split; congruence.
    + rewrite lookup_insert_ne by done. apply Htop.
Qed.

Lemma Subscribe_kept name h opts (b : memoryBus) : kept b (Subscribe name h opts b).1.
Proof.
  unfold Subscribe. destruct h as [h|]; [|apply kept_refl].
  destruct (closed b) eqn:Hc; [apply kept_refl|].
  pose proof (ensureTopic_kept name b) as Hk.
  destruct (ensureTopic name b) as [b1 [t|]] eqn:He; simpl in *; [|done].
  apply ensureTopic_lookup in He. by eapply kept_set_topic.
Qed.

Lemma Unsubscribe_kept s (b : memoryBus) : kept b (Unsubscribe s b).
Proof.
  unfold Unsubscribe. destruct (topics b !! sub_topic s) as [t|] eqn:Ht;
    [|apply kept_refl].
  eapply kept_set_topic; [apply kept_refl|done|done|done].
Qed.

(** [Publish] up to its [select] changes the bus as [ensureTopic] does; it
    returns an error exactly on a closed bus, and otherwise has the topic. *)
Lemma publish_prefix_bus ctx name event opts (b : memoryBus) heap b' heap' r :
  publish_prefix ctx name event opts (b, heap) = ((b', heap'), r) →
  b' = (ensureTopic name b).1
  ∧ match r with
    | inl e => closed b = true ∧ e = ErrClosed
    | inr (t, it) =>
        closed b = false ∧ topics b' !! name = Some t
        ∧ t = default (new_topic (cfg b)) (topics b !! name)
    end.
Proof.
  unfold publish_prefix. simpl. destruct (closed b) eqn:Hc.
  - intros [= <- <- <-]. by rewrite ensureTopic_closed.
  - destruct (apply_publish_opts _ _) as [pc heap1].
    destruct (if (0 <? map_len heap1 (Headers pc))%nat then _ else _) as [ctx1 heap2].
    destruct (ensureTopic_open name b Hc) as (t & He & Ht). rewrite He.
    intros [= <- <- <-]. split; [done|]. split; [done|]. split; [|done].
    simpl. destruct (topics b !! name) eqn:E; simpl in *; [by subst|].
    apply lookup_insert_eq.
Qed.

Lemma publish_prefix_kept ctx name event opts (b : memoryBus) heap b' heap' r :
  publish_prefix ctx name event opts (b, heap) = ((b', heap'), r) → kept b b'.
Proof. intros H. apply publish_prefix_bus in H as [-> _]. apply ensureTopic_kept. Qed.

(** A property of topics that looks at channel and workers only, and holds
    of a new topic, survives such a call. *)
Lemma kept_topics (P : string → topic → Prop) (b b' : memoryBus) :
  kept b b' →
  (∀ n t t', ch t' = ch t → pool t' = pool t → P n t → P n t') →
  (closed b = false → ∀ n, P n (new_topic (cfg b))) →
  (∀ n t, topics b !! n = Some t → P n t) →
  ∀ n t, topics b' !! n = Some t → P n t.
Proof.
  intros (_ & _ & _ & Htop) Hext Hnew Hall n t' Ht'.
  destruct (Htop n t' Ht') as (t & [Ht|(Hc & _ & ->)] & Hch & Hpool).
  - eapply Hext; [done|done|]. by eapply Hall.
  - eapply Hext; [done|done|]. by apply Hnew.
Qed.

Lemma set_topic_topics (P : string → topic → Prop) name (t' : topic) (b : memoryBus) :
  P name t' → (∀ n t, topics b !! n = Some t → P n t) →
  ∀ n t, topics (set_topic name t' b) !! n = Some t → P n t.
Proof.
  intros Hnew Hall n t. simpl. destruct (decide (n = name)) as [->|Hn].
  - rewrite lookup_insert_eq. by intros [= <-].
  - rewrite lookup_insert_ne by done. apply Hall.
Qed.

Lemma kept_queue (b b' : memoryBus) : kept b b' → ∀ n, queue b' n = queue b n.
Proof.
  intros (_ & _ & Hnone & Htop) n. unfold queue.
  destruct (topics b' !! n) as [t'|] eqn:Ht'.
  - destruct (Htop n t' Ht') as (t & [Ht|(_ & Ht & ->)] & Hch & _);
      rewrite Ht, Hch; done.
  - by rewrite (Hnone n Ht').
Qed.

(** ** Shutdown *)

Lemma publish_select_panic pick c x done :
  publish_select pick c x done = SelPanic → chan_closed c = true.
Proof.
  unfold publish_select, send_ready, chan_send.
  destruct (chan_closed c); [done|]. simpl.
  by destruct (Z.of_nat (length (chan_buf c)) <? chan_cap c)%Z, done, pick.
Qed.

(** On a closed channel the [select] of [Publish] cannot send and cannot
    block: it panics, or takes the [ctx.Done()] case of a cancelled scope. *)
Lemma publish_select_closed pick c x done :
  chan_closed c = true →
  publish_select pick c x done
  = match done with
    | Some e => if pick then SelDone e else SelPanic
    | None => SelPanic
    end.
Proof.
  intros Hc. unfold publish_select, send_ready, chan_send. rewrite Hc. simpl.
  by destruct done, pick.
Qed.

Lemma worker_step_shut c name heap sb ph q (st : wstate) ph' q' st' :
  worker_step c name heap sb (ph, q, st) (ph', q', st') →
  chan_closed q' = chan_closed q
  ∧ (ph' = WExit → chan_closed q = true ∧ chan_buf q' = [])
  ∧ (chan_buf q' = chan_buf q ∨ ∃ x, chan_buf q = x :: chan_buf q')
  ∧ ph ≠ WExit.
Proof.
  inversion 1; subst; simpl; (split; [done|]);
    (split; [try done; by intros _|]); (split; [|done]);
    first [by left | right; by eexists].
Qed.

Lemma shut_ok_kept (b b' : memoryBus) : kept b b' → shut_ok b → shut_ok b'.
Proof.
  intros Hk Hs. pose proof Hk as (_ & Hcl & _). unfold shut_ok. rewrite Hcl.
  apply (kept_topics (fun _ t =>
           chan_closed (ch t) = closed b
           ∧ (WExit ∈ pool t → closed b = true ∧ chan_buf (ch t) = [])) b b');
    [done| | |done].
  - by intros n t t' -> ->.
  - intros Hc n. simpl. split; [done|]. by intros ?%elem_of_replicate_inv.
Qed.

Lemma shut_ok_Close (b : memoryBus) : shut_ok b → shut_ok (Close b).1.
Proof.
  intros Hs. unfold Close. destruct (closed b) eqn:Hc; [done|].
  intros name t'. simpl. rewrite lookup_fmap.
  destruct (topics b !! name) as [t|] eqn:Ht; [|done]. intros [= <-]. simpl.
  split; [done|]. intros Hin. destruct (Hs name t Ht) as [_ Hex].
  destruct (Hex Hin). congruence.
Qed.

Lemma shut_ok_set_topic name (t' : topic) (b : memoryBus) :
  chan_closed (ch t') = closed b →
  (WExit ∈ pool t' → closed b = true ∧ chan_buf (ch t') = []) →
  shut_ok b → shut_ok (set_topic name t' b).
Proof.
  intros Hcl Hex Hs. unfold shut_ok.
  change (closed (set_topic name t' b)) with (closed b).
  by apply (set_topic_topics (fun _ t0 =>
              chan_closed (ch t0) = closed b
              ∧ (WExit ∈ pool t0 → closed b = true ∧ chan_buf (ch t0) = []))).
Qed.

Lemma sinv_step s s' : step s s' → SInv s → SInv s'.
Proof.
  intros Hstep [Hs Hp Hbg]. destruct Hstep; simpl in *.
  - constructor; simpl; [|done|done]. eapply shut_ok_kept; [apply Subscribe_kept|done].
  - constructor; simpl; [|done|done]. eapply shut_ok_kept; [apply Unsubscribe_kept|done].
  - constructor; simpl; [|done|done]. by apply shut_ok_Close.
  - constructor; simpl; [done|done|]. by rewrite lookup_insert_ne.
  - constructor; simpl; [|done|done].
    eapply shut_ok_kept; [by eapply publish_prefix_kept|done].
  - constructor; simpl; [|done|done].
    eapply shut_ok_kept; [by eapply publish_prefix_kept|done].
  - constructor; simpl; [|done|done].
    match goal with H : publish_select _ _ _ _ = SelSent _ |- _ =>
      apply publish_select_sent in H as (-> & Hopen & _) end.
    match goal with H : topics _ !! _ = Some _ |- _ =>
      destruct (Hs _ _ H) as [Hcl Hex] end.
    apply shut_ok_set_topic; [simpl; congruence| |done].
    intros Hin. destruct (Hex Hin). congruence.
  - by constructor.
  - constructor; simpl; [done| |done]. intros _.
    match goal with H : publish_select _ _ _ _ = SelPanic |- _ =>
      apply publish_select_panic in H end.
    match goal with H : topics _ !! _ = Some _ |- _ =>
      destruct (Hs _ _ H) as [Hcl _] end.
    congruence.
  - constructor; simpl; [|done|done].
    match goal with H : worker_step _ _ _ _ _ _ |- _ =>
      apply worker_step_shut in H as (Hcl' & Hexit & Hbuf & Hph) end.
    match goal with H : topics _ !! _ = Some _ |- _ =>
      destruct (Hs _ _ H) as [Hcl Hex] end.
    apply shut_ok_set_topic; [simpl; congruence| |done].
    simpl. intros Hin.
    apply elem_of_insert_list in Hin as [Heq|Hin].
    + destruct (Hexit (eq_sym Heq)) as [Hq ->]. split; [congruence|done].
    + destruct (Hex Hin) as [Hc Hempty]. split; [done|].
      destruct Hbuf as [->|(x & Hx)]; [done|]. congruence.
Qed.

Lemma sinv_reachable opts heap w s : reachable opts heap w s → SInv s.
Proof.
  unfold reachable. intros Hsteps.
  assert (Hinit : SInv (init_system opts heap w)).
  { constructor; simpl; [|done|done]. intros name t Ht.
    unfold NewMemoryBus in Ht. simpl in Ht. by apply lookup_empty_Some in Ht. }
  induction Hsteps as [|s1 s2 s3 Hstep _ IH]; [done|].
  apply IH. by eapply sinv_step.
Qed.

Lemma step_queue_closed s s' :
  step s s' → shut_ok (sys_bus s) → closed (sys_bus s) = true →
  ∀ name, queue (sys_bus s') name = queue (sys_bus s) name
          ∨ ∃ x, queue (sys_bus s) name = x :: queue (sys_bus s') name.
Proof.
  intros Hstep Hs Hc name. destruct Hstep; simpl in *; try (by left).
  - left. apply kept_queue, Subscribe_kept.
  - left. apply kept_queue, Unsubscribe_kept.
  - left. unfold Close. by rewrite Hc.
  - left. eapply kept_queue. by eapply publish_prefix_kept.
  - left. eapply kept_queue. by eapply publish_prefix_kept.
  - match goal with H : publish_select _ _ _ _ = SelSent _ |- _ =>
      apply publish_select_sent in H as (_ & Hopen & _) end.
    match goal with H : topics _ !! _ = Some _ |- _ =>
      destruct (Hs _ _ H) as [Hcl _] end.
    congruence.
  - match goal with H : worker_step _ _ _ _ _ _ |- _ =>
      apply worker_step_shut in H as (_ & _ & Hbuf & _) end.
    rewrite queue_set_topic. case_decide as Hn; [|by left]. subst name0.
    unfold queue.
    match goal with H : topics _ !! _ = Some _ |- _ => rewrite H end. done.
Qed.

(** X10.  Shutdown.  In every state the system reaches, a topic's channel
    is closed exactly when the bus is, and a worker has returned only when
    the bus is closed and the topic's channel is empty: [Close] abandons no
    envelope that was accepted.  Once the bus is closed no step adds an
    envelope to a channel: a step leaves each queue as it is or takes its
    oldest envelope.  A worker waiting on a closed and empty channel can
    return, and a worker that has returned takes no further step. *)
Theorem Close_drains_queues (opts : list BusOption) (heap : Heap) (w : World)
    (s : System) :
  reachable opts heap w s →
  (∀ name t, topics (sys_bus s) !! name = Some t →
     chan_closed (ch t) = closed (sys_bus s)
     ∧ (WExit ∈ pool t → closed (sys_bus s) = true ∧ chan_buf (ch t) = []))
  ∧ (closed (sys_bus s) = true →
     ∀ s', step s s' →
       ∀ name, queue (sys_bus s') name = queue (sys_bus s) name
               ∨ ∃ x, queue (sys_bus s) name = x :: queue (sys_bus s') name)
  ∧ (∀ name t i,
       topics (sys_bus s) !! name = Some t → pool t !! i = Some WIdle →
       closed (sys_bus s) = true → chan_buf (ch t) = [] → sys_panicked s = false →
       ∃ s' t', step s s' ∧ topics (sys_bus s') !! name = Some t'
                ∧ pool t' !! i = Some WExit ∧ sys_log s' = sys_log s)
  ∧ (∀ c name heap' sb q (st : wstate) x,
       ¬ worker_step c name heap' sb (WExit, q, st) x).
Proof.
  intros Hreach. destruct (sinv_reachable _ _ _ _ Hreach) as [Hs Hp Hbg].
  split; [done|]. split; [|split].
  - intros Hc s' Hstep. by apply step_queue_closed.
  - intros name t i Ht Hi Hc Hempty Hnp.
    destruct (Hs name t Ht) as [Hcl _].
    destruct s as [b hp can w0 log pend next pan]. simpl in *. subst pan.
    destruct (ch t) as [buf cap cl] eqn:Hch. simpl in *. subst buf cl.
    eexists _, _. split; [|split; [|split]].
    + eapply (step_worker b hp can w0 log pend next name t i WIdle WExit
                          (mkChan [] cap true) (w0, log) Ht Hi).
      rewrite Hch, Hc. apply ws_exit.
    + apply topics_set_topic.
    + simpl. apply list_lookup_insert_eq. by eapply lookup_lt_Some.
    + done.
  - intros c name heap' sb q st x Hstep. inversion Hstep.
Qed.



(** ** The buffer bound *)

Lemma bounded_kept (b b' : memoryBus) : kept b b' → bounded b → bounded b'.
Proof.
  intros Hk [Hcfg Hb]. pose proof Hk as (Hc & _). split; [by rewrite Hc|].
  apply (kept_topics (fun _ t =>
           (Z.of_nat (length (chan_buf (ch t))) ≤ chan_cap (ch t))%Z) b b');
    [done| |done|done].
  by intros n t t' -> _.
Qed.

Lemma bounded_set_topic name (t' : topic) (b : memoryBus) :
  (Z.of_nat (length (chan_buf (ch t'))) ≤ chan_cap (ch t'))%Z →
  bounded b → bounded (set_topic name t' b).
Proof.
  intros Hnew [Hcfg Hb]. split; [done|].
  by apply (set_topic_topics (fun _ t0 =>
              (Z.of_nat (length (chan_buf (ch t0))) ≤ chan_cap (ch t0))%Z)).
Qed.

Lemma bounded_step s s' : step s s' → bounded (sys_bus s) → bounded (sys_bus s').
Proof.
  intros Hstep Hb. destruct Hstep; simpl in *; try done.
  - eapply bounded_kept; [apply Subscribe_kept|done].
  - eapply bounded_kept; [apply Unsubscribe_kept|done].
  - destruct Hb as [Hcfg Hb]. unfold Close. destruct (closed b); [done|].
    split; [done|]. intros name t'. simpl. rewrite lookup_fmap.
    destruct (topics b !! name) as [t|] eqn:Ht; [|done]. intros [= <-]. simpl.
    by eapply Hb.
  - eapply bounded_kept; [by eapply publish_prefix_kept|done].
  - eapply bounded_kept; [by eapply publish_prefix_kept|done].
  - match goal with H : publish_select _ _ _ _ = SelSent _ |- _ =>
      apply publish_select_sent in H as (-> & _ & Hlt) end.
    apply bounded_set_topic; [|done]. simpl. rewrite length_app. simpl. lia.
  - match goal with H : worker_step _ _ _ _ _ _ |- _ =>
      pose proof (worker_step_cap _ _ _ _ _ _ _ _ _ _ H) as Hcap;
      apply worker_step_shut in H as (_ & _ & Hbuf & _) end.
    match goal with H : topics _ !! _ = Some _ |- _ =>
      pose proof (proj2 Hb _ _ H) as Hle end.
    apply bounded_set_topic; [|done]. simpl. rewrite Hcap.
    destruct Hbuf as [->|(x & Hx)]; [done|]. rewrite Hx in Hle. simpl in Hle. lia.
Qed.

Lemma bounded_reachable opts heap w s :
  Forall LibBusOption opts → reachable opts heap w s → bounded (sys_bus s).
Proof.
  unfold reachable. intros Hlib Hsteps.
  assert (Hinit : bounded (sys_bus (init_system opts heap w))).
  { destruct (lib_bus_opts_positive opts Hlib default_BusConfig) as [Hb _];
      [done..|].
    split; [simpl; lia|]. intros name t Ht.
    unfold NewMemoryBus in Ht. simpl in Ht. by apply lookup_empty_Some in Ht. }
  induction Hsteps as [|s1 s2 s3 Hstep _ IH]; [done|].
  apply IH. by eapply bounded_step.
Qed.

(** X13.  The buffer bound.  On a bus built from the package's options, in
    every state it reaches, the configuration is the one it was built with,
    and every topic has a channel of the configured capacity holding at most
    that many envelopes, and the configured number of worker goroutines.
    The envelopes sent to a topic are those received by its workers and
    those still in its channel: publishers are never more than [BufferSize]
    accepted envelopes ahead of the workers. *)
Theorem queue_never_exceeds_buffer (opts : list BusOption) (heap : Heap)
    (w : World) (s : System) (name : string) (t : topic) :
  Forall LibBusOption opts → reachable opts heap w s →
  topics (sys_bus s) !! name = Some t →
  cfg (sys_bus s) = cfg (NewMemoryBus opts)
  ∧ chan_cap (ch t) = BufferSize (cfg (NewMemoryBus opts))
  ∧ (Z.of_nat (length (chan_buf (ch t))) ≤ BufferSize (cfg (NewMemoryBus opts)))%Z
  ∧ length (pool t) = Z.to_nat (WorkersPerTopic (cfg (NewMemoryBus opts)))
  ∧ length (sents name (sys_log s))
    = length (recvs name (sys_log s)) + length (chan_buf (ch t))
  ∧ (Z.of_nat (length (sents name (sys_log s)))
     ≤ Z.of_nat (length (recvs name (sys_log s)))
       + BufferSize (cfg (NewMemoryBus opts)))%Z.
Proof.
  intros Hlib Hreach Ht.
  destruct (reachable_bus_ok _ _ _ _ Hreach) as [Hcfg Hok].
  destruct (Hok name t Ht) as (Hcap & Hwk & Hlen).
  destruct (bounded_reachable _ _ _ _ Hlib Hreach) as [_ Hb].
  specialize (Hb name t Ht). rewrite Hcap in Hb.
  pose proof (ai_fifo _ (ainv_reachable _ _ _ _ Hreach) name _ _
                (view_lookup _ _ _ Ht)) as Hfifo.
  simpl in Hfifo.
  assert (Hcount : length (sents name (sys_log s))
                   = length (recvs name (sys_log s)) + length (chan_buf (ch t))).
  { rewrite Hfifo, length_app, length_rev, length_map. lia. }
  simpl. split; [done|]. split; [done|]. split; [done|].
  split; [by rewrite Hlen, Hwk|]. split; [done|]. lia.
Qed.

(** ** Envelopes and workers *)

Lemma in_flight_app ps1 ps2 : in_flight (ps1 ++ ps2) = in_flight ps1 ++ in_flight ps2.
Proof. unfold in_flight. apply omap_app. Qed.

Lemma in_flight_elem tag ps : tag ∈ in_flight ps ↔ Some tag ∈ ps.
Proof.
  unfold in_flight. rewrite list_elem_of_omap. split.
  - intros (x & Hx & Hid). simpl in Hid. by subst x.
  - intros Hin. by exists (Some tag).
Qed.

Lemma in_flight_replicate k : in_flight (replicate k None) = [].
Proof. induction k; simpl; done. Qed.

(** A worker that takes an envelope adds its tag to those in flight; a
    worker that goes idle removes one. *)
Lemma in_flight_insert_nodup ps i (p : option nat) :
  NoDup (in_flight ps) →
  (∀ tag, p = Some tag → tag ∉ in_flight ps) →
  NoDup (in_flight (<[i := p]> ps)).
Proof.
  intros Hnd Hp. destruct (decide (i < length ps)) as [Hlt|Hge];
    [|by rewrite list_insert_ge by lia].
  destruct (lookup_lt_is_Some_2 ps i Hlt) as [x Hx].
  rewrite insert_take_drop by done.
  rewrite <- (take_drop_middle ps i x Hx) in Hnd, Hp.
  rewrite in_flight_app in *.
  change (x :: drop (S i) ps) with ([x] ++ drop (S i) ps) in Hnd, Hp.
  change (p :: drop (S i) ps) with ([p] ++ drop (S i) ps).
  rewrite in_flight_app in *.
  assert (Hnd' : NoDup (in_flight (take i ps) ++ in_flight (drop (S i) ps))).
  { apply NoDup_app in Hnd as (H1 & H2 & H3).
    apply NoDup_app in H3 as (_ & _ & H3).
    apply NoDup_app. split; [done|]. split; [|done].
    intros y Hy Hy'. apply (H2 y Hy). apply elem_of_app. by right. }
  destruct p as [tag|]; [|done].
  specialize (Hp tag eq_refl).
  change (in_flight [Some tag]) with [tag].
  apply NoDup_app in Hnd' as (H1 & H2 & H3).
  apply NoDup_app. split; [done|]. split.
  - intros y Hy Hy'. apply elem_of_app in Hy' as [Hy'|Hy'].
    + apply list_elem_of_singleton in Hy' as ->. apply Hp.
      apply elem_of_app. by left.
    + by apply (H2 y).
  - simpl. apply NoDup_cons. split; [|done]. intros Hin. apply Hp.
    apply elem_of_app. right. apply elem_of_app. by right.
Qed.

Lemma flight_astep a a' :
  astep a a' → AInv a →
  (∀ name q ps, a_view a name = Some (q, ps) → NoDup (in_flight ps)) →
  ∀ name q ps, a_view a' name = Some (q, ps) → NoDup (in_flight ps).
Proof.
  intros Hstep Hinv Hfl.
  destruct Hstep
    as [v v' l p n Hv|v v' l p n name k Hnone Hv|v l p n|v l p n name
       |v v' l p n name tag q ps Hin Hview Hv|v l p n tag e Hin
       |v v' l p n name tag q ps i Hview Hi Hv|v v' l p n name q ps i Hview Hv
       |v v' l p n name q ps i tag o Hview Hi Hdel Hv];
    simpl in *; try done.
  - intros m q ps Hm. rewrite Hv in Hm. by eapply Hfl.
  - intros m q ps Hm. rewrite Hv in Hm. unfold view_upd in Hm.
    case_decide; [|by eapply Hfl].
    injection Hm as <- <-. rewrite in_flight_replicate. constructor.
  - intros m q0 ps0 Hm. rewrite Hv in Hm. unfold view_upd in Hm.
    case_decide; [|by eapply Hfl].
    injection Hm as <- <-. by eapply Hfl.
  - intros m q0 ps0 Hm. rewrite Hv in Hm. unfold view_upd in Hm.
    case_decide; [|by eapply Hfl].
    injection Hm as <- <-. apply in_flight_insert_nodup; [by eapply Hfl|].
    intros tag' [= <-] Hfli. apply in_flight_elem in Hfli.
    pose proof (ai_flight _ Hinv name _ _ tag Hview Hfli) as Hrecv.
    pose proof (ai_fifo _ Hinv name _ _ Hview) as Hfifo.
    pose proof (ai_nodup _ Hinv name) as Hnd. simpl in *.
    rewrite Hfifo in Hnd. simpl in Hnd. rewrite <- app_assoc in Hnd.
    apply NoDup_app in Hnd as (_ & _ & Hnd). simpl in Hnd.
    apply NoDup_cons in Hnd as [Hnotin _]. done.
  - intros m q0 ps0 Hm. rewrite Hv in Hm. unfold view_upd in Hm.
    case_decide; [|by eapply Hfl].
    injection Hm as <- <-. apply in_flight_insert_nodup; [by eapply Hfl|done].
  - intros m q0 ps0 Hm. rewrite Hv in Hm. by eapply Hfl.
Qed.

Lemma flight_reachable opts heap w s :
  reachable opts heap w s →
  ∀ name q ps, view (sys_bus s) name = Some (q, ps) → NoDup (in_flight ps).
Proof.
  unfold reachable. intros Hsteps.
  assert (Hinit : AInv (abs (init_system opts heap w))
                  ∧ ∀ name q ps, a_view (abs (init_system opts heap w)) name
                                 = Some (q, ps) → NoDup (in_flight ps)).
  { split; [apply (ainv_reachable opts heap w), rtc_refl|].
    intros name q ps. unfold abs, view. simpl.
    replace (∅ !! name) with (@None topic) by (symmetry; apply lookup_empty).
    done. }
  assert (Hgoal : AInv (abs s) ∧ ∀ name q ps, a_view (abs s) name = Some (q, ps) →
                                              NoDup (in_flight ps)); [|apply Hgoal].
  induction Hsteps as [|s1 s2 s3 Hstep _ IH]; [done|].
  apply IH. apply step_astep in Hstep. clear IH.
  induction Hstep as [|a1 a2 a3 Ha _ IHa]; [done|].
  apply IHa. destruct Hinit as [Hinv Hfl]. split; [by eapply ainv_astep|].
  by eapply flight_astep.
Qed.

(** X14.  One envelope, one worker.  In every state the system reaches and
    for every topic, with any number of workers: no envelope was sent to the
    topic's channel twice and none was received from it twice, no two
    workers are dispatching the same envelope, an envelope still in the
    channel has been received by no worker, every envelope a worker is
    dispatching or has dispatched was received from the channel, and every
    envelope received was sent: workers share a topic's envelopes, they do
    not each get a copy. *)
Theorem no_envelope_dispatched_twice (opts : list BusOption) (heap : Heap)
    (w : World) (s : System) (name : string) (t : topic) :
  reachable opts heap w s → topics (sys_bus s) !! name = Some t →
  NoDup (sents name (sys_log s))
  ∧ NoDup (recvs name (sys_log s))
  ∧ NoDup (in_flight (map phase_tag (pool t)))
  ∧ (∀ tag, tag ∈ recvs name (sys_log s) → tag ∈ sents name (sys_log s))
  ∧ (∀ tag, tag ∈ map fst (chan_buf (ch t)) →
       (tag ∉ recvs name (sys_log s)) ∧ (Some tag ∉ map phase_tag (pool t)))
  ∧ (∀ tag, Some tag ∈ map phase_tag (pool t) → tag ∈ recvs name (sys_log s))
  ∧ (∀ o tag, o ∈ sys_log s → delivery name tag o → tag ∈ recvs name (sys_log s)).
Proof.
  intros Hreach Ht.
  destruct (ainv_reachable _ _ _ _ Hreach)
    as [Htags Hpend Hexcl Hnodup Habsent Hfifo Hflight Hcalls Hsingle Hbegin].
  simpl in *. pose proof (view_lookup _ _ _ Ht) as Hview.
  specialize (Hfifo name _ _ Hview).
  pose proof (fun tag => Hflight name _ _ tag Hview) as Hfl.
  pose proof (Hnodup name) as Hnd. rewrite Hfifo in Hnd.
  apply NoDup_app in Hnd as (Hndq & Hdisj & Hndr).
  split; [apply Hnodup|]. split; [done|]. split.
  { by apply (flight_reachable _ _ _ _ Hreach name _ _ Hview). }
  split.
  { intros tag Hin. rewrite Hfifo. apply elem_of_app. by right. }
  assert (Hq : ∀ tag, tag ∈ map fst (chan_buf (ch t)) →
                      tag ∉ recvs name (sys_log s)).
  { intros tag Hin. apply Hdisj. by apply elem_of_rev. }
  split.
  { intros tag Hin. split; [by apply Hq|]. intros Hin'.
    apply (Hq tag Hin). by apply Hfl. }
  split; [intros tag Hin; by apply Hfl|].
  intros o tag Hin Hdel. by eapply Hcalls.
Qed.

(** ** From Publish to the handlers *)

Lemma carried_mono (m m' : gmap nat (string * item)) (b : memoryBus) :
  m ⊆ m' → carried m b → carried m' b.
Proof.
  intros Hsub Hc name t Ht. destruct (Hc name t Ht) as [Hq Hp]. split.
  - intros tag it Hin. eapply lookup_weaken; [|done]. by apply Hq.
  - intros ph tag it Hin Hph. eapply lookup_weaken; [|done]. by eapply Hp.
Qed.

Lemma carried_kept (m : gmap nat (string * item)) (b b' : memoryBus) :
  kept b b' → carried m b → carried m b'.
Proof.
  intros Hk Hc. unfold carried.
  apply (kept_topics (fun n t =>
           (∀ (tag : nat) (it : item),
              (tag, it) ∈ chan_buf (ch t) → m !! tag = Some (n, it))
           ∧ (∀ ph tag it, ph ∈ pool t → phase_item ph = Some (tag, it) →
                m !! tag = Some (n, it))) b b'); [done| | |done].
  - by intros n t t' -> ->.
  - intros _ n. simpl. split.
    + intros tag it Hin. by apply elem_of_nil in Hin.
    + intros ph tag it Hin. apply elem_of_replicate_inv in Hin as ->. done.
Qed.

Lemma carried_set_topic (m : gmap nat (string * item)) name (t' : topic)
    (b : memoryBus) :
  (∀ tag it, (tag, it) ∈ chan_buf (ch t') → m !! tag = Some (name, it)) →
  (∀ ph tag it, ph ∈ pool t' → phase_item ph = Some (tag, it) →
     m !! tag = Some (name, it)) →
  carried m b → carried m (set_topic name t' b).
Proof.
  intros Hq Hp Hc. unfold carried.
  by apply (set_topic_topics (fun n t =>
           (∀ (tag : nat) (it : item),
              (tag, it) ∈ chan_buf (ch t) → m !! tag = Some (n, it))
           ∧ (∀ ph tag it, ph ∈ pool t → phase_item ph = Some (tag, it) →
                m !! tag = Some (n, it)))).
Qed.

Lemma carried_Close (m : gmap nat (string * item)) (b : memoryBus) :
  carried m b → carried m (Close b).1.
Proof.
  intros Hc. unfold Close. destruct (closed b); [done|].
  intros name t'. simpl. rewrite lookup_fmap.
  destruct (topics b !! name) as [t|] eqn:Ht; [|done]. intros [= <-]. simpl.
  by apply Hc.
Qed.

Lemma item_eta (it : item) :
  {| item_ctx := item_ctx it; item_event := item_event it |} = it.
Proof. by destruct it. Qed.

(** What a step of a worker does with envelopes: none enters the channel,
    the envelope in the worker's hands is the one it had or one from the
    channel, and a new log entry is the receipt of an envelope of the
    channel or an invocation for the envelope in the worker's hands. *)
Lemma worker_step_items c name heap sb ph q (st : wstate) ph' q' st' :
  worker_step c name heap sb (ph, q, st) (ph', q', st') →
  (∀ x, x ∈ chan_buf q' → x ∈ chan_buf q)
  ∧ (∀ tag it, phase_item ph' = Some (tag, it) →
       phase_item ph = Some (tag, it) ∨ (tag, it) ∈ chan_buf q)
  ∧ ∃ new, st'.2 = new ++ st.2
      ∧ ∀ o, o ∈ new →
          (∃ tag it, o = ObsRecv name tag ∧ (tag, it) ∈ chan_buf q)
          ∨ (∃ tag it, phase_item ph = Some (tag, it)
                       ∧ obs_item o = Some (tag, (name, it))).
Proof.
  inversion 1; subst; simpl.
  - split; [intros x Hx; by right|]. split.
    + intros tag0 it0 [= <- <-]. right. by left.
    + exists [ObsRecv name tag]. split; [done|].
      intros o Ho. apply list_elem_of_singleton in Ho as ->.
      left. exists tag, it. split; [done|]. by left.
  - split; [done|]. split; [done|]. exists []. split; [done|].
    intros o Ho. by apply elem_of_nil in Ho.
  - split; [done|]. split; [by left|]. exists []. split; [done|].
    intros o Ho. by apply elem_of_nil in Ho.
  - split; [done|]. split; [done|]. exists []. split; [done|].
    intros o Ho. by apply elem_of_nil in Ho.
  - split; [done|]. split; [by left|]. exists []. split; [done|].
    intros o Ho. by apply elem_of_nil in Ho.
  - split; [done|]. split; [by left|].
    match goal with H : retry_iter _ _ _ _ _ _ _ _ _ _ = _ |- _ =>
      apply retry_iter_log in H as [->|[res Hlog]] end.
    + exists []. split; [done|]. intros o Ho. by apply elem_of_nil in Ho.
    + eexists [_]. split; [exact Hlog|].
      intros o Ho. apply list_elem_of_singleton in Ho as ->.
      right. exists tag, it. split; [done|]. simpl. by rewrite item_eta.
  - split; [done|]. split; [by left|].
    destruct (report_log c name tag heap it s.1 lastErr' st'0) as (new2 & Hlog2 & Hnew2).
    match goal with H : retry_iter _ _ _ _ _ _ _ _ _ _ = _ |- _ =>
      apply retry_iter_log in H as [->|[res Hlog]] end.
    + exists new2. split; [done|]. intros o Ho.
      rewrite Forall_forall in Hnew2. destruct (Hnew2 o Ho) as [err ->].
      right. exists tag, it. split; [done|]. simpl. by rewrite item_eta.
    + eexists (new2 ++ [_]). split; [by rewrite Hlog2, Hlog, <- app_assoc|].
      intros o Ho. right. exists tag, it. split; [done|].
      apply elem_of_app in Ho as [Ho|Ho].
      * rewrite Forall_forall in Hnew2. destruct (Hnew2 o Ho) as [err ->].
        simpl. by rewrite item_eta.
      * apply list_elem_of_singleton in Ho as ->. simpl. by rewrite item_eta.
Qed.

Lemma obs_item_topic o tag name it :
  obs_item o = Some (tag, (name, it)) → obs_topic o = Some (tag, name).
Proof. destruct o; simpl; try done; by intros [= <- <- <-]. Qed.

Lemma consistent_step m s s' :
  step s s' → Consistent m s → ∃ m', m ⊆ m' ∧ Consistent m' s'.
Proof.
  intros Hstep [Hnext Hpend Hcar Hlog Htopic]. destruct Hstep; simpl in *.
  - exists m. split; [done|]. constructor; simpl; try done.
    eapply carried_kept; [apply Subscribe_kept|done].
  - exists m. split; [done|]. constructor; simpl; try done.
    eapply carried_kept; [apply Unsubscribe_kept|done].
  - exists m. split; [done|]. constructor; simpl; try done.
    by apply carried_Close.
  - exists m. split; [done|]. by constructor.
  - exists m. split; [done|]. constructor; simpl.
    + intros tag x Hx. apply Hnext in Hx. lia.
    + done.
    + eapply carried_kept; [by eapply publish_prefix_kept|done].
    + intros o tag x Ho. apply elem_of_cons in Ho as [->|Ho]; [done|]. by apply Hlog.
    + intros o tag n Ho. apply elem_of_cons in Ho as [->|Ho]; [done|]. by apply Htopic.
  - assert (Hfresh : m !! next = None).
    { destruct (m !! next) as [x|] eqn:E; [|done]. apply Hnext in E. lia. }
    assert (Hsub : m ⊆ <[next := (name, it)]> m) by (by apply insert_subseteq).
    exists (<[next := (name, it)]> m). split; [done|]. constructor; simpl.
    + intros tag x. destruct (decide (tag = next)) as [->|Hne].
      * intros _. lia.
      * rewrite lookup_insert_ne by done. intros Hx. apply Hnext in Hx. lia.
    + intros tag x. destruct (decide (tag = next)) as [->|Hne].
      * by rewrite !lookup_insert_eq.
      * rewrite !lookup_insert_ne by done. apply Hpend.
    + eapply carried_mono; [done|].
      eapply carried_kept; [by eapply publish_prefix_kept|done].
    + intros o tag x Ho. apply elem_of_cons in Ho as [->|Ho]; [done|].
      intros Hx. eapply lookup_weaken; [|done]. by eapply Hlog.
    + intros o tag n Ho. apply elem_of_cons in Ho as [->|Ho].
      * simpl. intros [= <- <-]. exists it. apply lookup_insert_eq.
      * intros Hx. destruct (Htopic o tag n Ho Hx) as [it' Hit'].
        exists it'. by eapply lookup_weaken.
  - match goal with H : publish_select _ _ _ _ = SelSent _ |- _ =>
      apply publish_select_sent in H as (-> & _ & _) end.
    match goal with Hp : pend !! _ = Some _, Ht : topics _ !! _ = Some _ |- _ =>
      pose proof (Hpend _ _ Hp) as Hm; destruct (Hcar _ _ Ht) as [Hq Hph] end.
    exists m. split; [done|]. constructor; simpl.
    + done.
    + intros tag0 x Hx. apply lookup_delete_Some in Hx as [_ Hx]. by apply Hpend.
    + apply carried_set_topic; [|done|done]. simpl.
      intros tag0 it0 Hin. apply elem_of_app in Hin as [Hin|Hin]; [by apply Hq|].
      apply list_elem_of_singleton in Hin. by injection Hin as -> ->.
    + intros o tag0 x Ho. apply elem_of_cons in Ho as [->|Ho]; [done|]. by apply Hlog.
    + intros o tag0 n Ho. apply elem_of_cons in Ho as [->|Ho]; [|by apply Htopic].
      simpl. intros [= <- <-]. by exists it.
  - exists m. split; [done|]. constructor; simpl.
    + done.
    + intros tag0 x Hx. apply lookup_delete_Some in Hx as [_ Hx]. by apply Hpend.
    + done.
    + intros o tag0 x Ho. apply elem_of_cons in Ho as [->|Ho]; [done|]. by apply Hlog.
    + intros o tag0 n Ho. apply elem_of_cons in Ho as [->|Ho]; [done|]. by apply Htopic.
  - exists m. split; [done|]. by constructor.
  - match goal with H : worker_step _ _ _ _ _ _ |- _ =>
      apply worker_step_items in H as (Hbuf & Hitem & new & Hnew & Hentries) end.
    match goal with Ht : topics _ !! _ = Some _ |- _ =>
      destruct (Hcar _ _ Ht) as [Hq Hph] end.
    assert (Hi : ph ∈ pool t) by (by eapply list_elem_of_lookup_2).
    exists m. split; [done|]. constructor; simpl; try done.
    + apply carried_set_topic; [| |done]; simpl.
      * intros tag it Hin. by apply Hq, Hbuf.
      * intros ph0 tag it Hin Hph0.
        apply elem_of_insert_list in Hin as [->|Hin]; [|by eapply Hph].
        destruct (Hitem _ _ Hph0) as [Hold|Hin]; [by eapply Hph|by apply Hq].
    + simpl in Hnew. rewrite Hnew. intros o tag x Ho Hx.
      apply elem_of_app in Ho as [Ho|Ho]; [|by eapply Hlog].
      destruct (Hentries o Ho) as [(tag0 & it0 & -> & _)|(tag0 & it0 & Hph0 & Hoi)];
        [done|].
      rewrite Hoi in Hx. injection Hx as <- <-. by eapply Hph.
    + simpl in Hnew. rewrite Hnew. intros o tag n Ho Hx.
      apply elem_of_app in Ho as [Ho|Ho]; [|by eapply Htopic].
      destruct (Hentries o Ho) as [(tag0 & it0 & -> & Hin)|(tag0 & it0 & Hph0 & Hoi)].
      * simpl in Hx. injection Hx as <- <-. exists it0. by apply Hq.
      * apply obs_item_topic in Hoi. rewrite Hoi in Hx. injection Hx as <- <-.
        exists it0. by eapply Hph.
Qed.

Lemma consistent_rtc s s' :
  rtc step s s' → ∀ m, Consistent m s → ∃ m', m ⊆ m' ∧ Consistent m' s'.
Proof.
  induction 1 as [s|s1 s2 s3 Hstep _ IH]; intros m Hc.
  - by exists m.
  - destruct (consistent_step m s1 s2 Hstep Hc) as (m1 & Hsub1 & Hc1).
    destruct (IH m1 Hc1) as (m2 & Hsub2 & Hc2).
    exists m2. split; [by etrans|done].
Qed.

Lemma consistent_init opts heap w : Consistent ∅ (init_system opts heap w).
Proof.
  constructor; simpl.
  - intros tag x Hx. by apply lookup_empty_Some in Hx.
  - intros tag x Hx. by apply lookup_empty_Some in Hx.
  - intros name t Ht. unfold NewMemoryBus in Ht. simpl in Ht.
    by apply lookup_empty_Some in Ht.
  - intros o tag x Ho. by apply elem_of_nil in Ho.
  - intros o tag n Ho. by apply elem_of_nil in Ho.
Qed.

(** X15.  From [Publish] to the handlers.  Take any state the system
    reaches and a [Publish] call that passes the closed checks there, with
    the envelope [it] it built for topic [name]; the call gets the next
    number.  Whatever the system does afterwards, every handler invocation
    and every hook invocation logged for that call is on topic [name] and
    was passed the context and the payload of [it], the payload being the
    one given to [Publish]; and the call's envelope is sent to, and received
    from, the channel of no other topic.  Handlers never see an envelope of
    another topic, nor a payload or context other than the published one. *)
Theorem handlers_receive_what_was_published (opts : list BusOption) (heap : Heap)
    (w : World) (s s2 : System) (ctx : option Context) (name : string)
    (event : any) (popts : list PublishOption) (b' : memoryBus) (heap' : Heap)
    (t : topic) (it : item) :
  reachable opts heap w s → sys_panicked s = false →
  publish_prefix ctx name event popts (sys_bus s, sys_heap s)
    = ((b', heap'), inr (t, it)) →
  rtc step
    (mkSystem b' heap' (sys_cancelled s) (sys_world s)
       (ObsBegin (sys_next s) name :: sys_log s)
       (<[sys_next s := (name, it)]> (sys_pending s)) (S (sys_next s)) false)
    s2 →
  item_event it = event
  ∧ reachable opts heap w s2
  ∧ ∀ o, o ∈ sys_log s2 → obs_tag o = sys_next s →
      match o with
      | ObsCall name' _ _ ctx' event' _ | ObsHook name' _ _ ctx' event' _ =>
          name' = name ∧ ctx' = item_ctx it ∧ event' = event
      | ObsSent name' _ | ObsRecv name' _ | ObsBegin _ name' => name' = name
      | ObsClosed _ | ObsCancelled _ _ => True
      end.
Proof.
  intros Hreach Hnp Hprefix Hrun.
  assert (Hev : item_event it = event).
  { pose proof Hprefix as Hp. apply publish_prefix_bus in Hp as (_ & Hopen & _).
    destruct (publish_prefix_open ctx name event popts (sys_bus s) (sys_heap s) Hopen)
      as (heap1 & it1 & Heq & Hev1 & _).
    rewrite Heq in Hprefix. by injection Hprefix as _ _ _ <-. }
  split; [done|].
  destruct s as [b hp can w0 log pend next pan]. simpl in *. subst pan.
  assert (Hstep : step (mkSystem b hp can w0 log pend next false)
                       (mkSystem b' heap' can w0 (ObsBegin next name :: log)
                                 (<[next := (name, it)]> pend) (S next) false))
    by (by eapply step_publish_begin).
  split.
  { unfold reachable in *. eapply rtc_trans; [exact Hreach|].
    eapply rtc_l; [exact Hstep|exact Hrun]. }
  destruct (consistent_rtc _ _ Hreach ∅ (consistent_init opts heap w))
    as (m0 & _ & Hc0).
  destruct (consistent_step _ _ _ Hstep Hc0) as (m1 & _ & Hc1).
  destruct (consistent_rtc _ _ Hrun m1 Hc1) as (m2 & Hsub & Hc2).
  assert (Hm2 : m2 !! next = Some (name, it)).
  { eapply lookup_weaken; [|exact Hsub].
    apply (co_pend _ _ Hc1). simpl. apply lookup_insert_eq. }
  intros o Ho Htag.
  pose proof (co_log _ _ Hc2 o) as Hitem. pose proof (co_topic _ _ Hc2 o) as Htopic.
  destruct o; simpl in *; subst; try done.
  - destruct (Htopic _ _ Ho eq_refl) as [it' Hit']. congruence.
  - destruct (Htopic _ _ Ho eq_refl) as [it' Hit']. congruence.
  - destruct (Htopic _ _ Ho eq_refl) as [it' Hit']. congruence.
  - specialize (Hitem _ _ Ho eq_refl). rewrite Hm2 in Hitem.
    injection Hitem as Hn Hi. by subst.
  - specialize (Hitem _ _ Ho eq_refl). rewrite Hm2 in Hitem.
    injection Hitem as Hn Hi. by subst.
Qed.

(** ** The worker's snapshot *)

Lemma worker_sub_other_id fuel c name tag heap it (s : Z * subscription)
    (st : wstate) r st' id :
  id ≠ s.1 →
  worker_sub fuel c name tag heap it s st = (r, st') →
  count_obs (is_call_of id) st'.2 = count_obs (is_call_of id) st.2
  ∧ count_obs (is_hook_of id) st'.2 = count_obs (is_hook_of id) st.2.
Proof.
  intros Hne Hsub. apply worker_sub_log in Hsub as (new & -> & Hnew).
  rewrite !count_obs_app.
  assert (Hc : count_obs (is_call_of id) new = 0).
  { apply count_obs_none. eapply Forall_impl; [exact Hnew|].
    intros o [[res ->]|[err ->]]; simpl; [|done].
    apply bool_decide_eq_false. congruence. }
  assert (Hh : count_obs (is_hook_of id) new = 0).
  { apply count_obs_none. eapply Forall_impl; [exact Hnew|].
    intros o [[res ->]|[err ->]]; simpl; [done|].
    apply bool_decide_eq_false. congruence. }
  by rewrite Hc, Hh.
Qed.

Lemma worker_item_other_id fuel c name tag heap it id :
  ∀ (snap : list (Z * subscription)) (st : wstate) r st',
    id ∉ snap.*1 →
    worker_item fuel c name tag heap it snap st = (r, st') →
    count_obs (is_call_of id) st'.2 = count_obs (is_call_of id) st.2
    ∧ count_obs (is_hook_of id) st'.2 = count_obs (is_hook_of id) st.2.
Proof.
  induction snap as [|s rest IH]; intros st r st' Hid; simpl.
  - by intros [= <- <-].
  - rewrite fmap_cons in Hid. apply not_elem_of_cons in Hid as [Hne Hid].
    destruct (worker_sub fuel c name tag heap it s st) as [[|] st1] eqn:Hsub;
      apply (worker_sub_other_id _ _ _ _ _ _ _ _ _ _ id Hne) in Hsub as [Hc1 Hh1].
    + intros Hrest. apply IH in Hrest as [Hc2 Hh2]; [|done]. split; congruence.
    + by intros [= <- <-].
Qed.

(** X16.  The worker's snapshot.  When a worker has received an envelope,
    its next step takes the snapshot: each subscription registered in the
    topic at that moment, once.  Every later step of the dispatch is the
    same whatever the topic's subscription map has become: a subscription
    removed by [Unsubscribe] after the snapshot is still invoked for this
    envelope, and one added after it is not.  The pass over a snapshot
    invokes neither the handler nor the hook for a subscription that is not
    in it.  On a topic without subscriptions the snapshot is empty: the
    envelope is taken from the channel and delivered to nobody. *)
Theorem worker_dispatches_its_snapshot (c : BusConfig) (name : string)
    (heap : Heap) (sb : gmap Z subscription) :
  (∀ tag it q (st : wstate) x,
     worker_step c name heap sb (WGot tag it, q, st) x →
     ∃ snap, x = (WRange tag it snap, q, st)
       ∧ NoDup snap.*1
       ∧ ∀ id sub, (id, sub) ∈ snap ↔ sb !! id = Some sub)
  ∧ (∀ sb' ph q (st : wstate) x,
       (∀ tag it, ph ≠ WGot tag it) →
       worker_step c name heap sb (ph, q, st) x →
       worker_step c name heap sb' (ph, q, st) x)
  ∧ (∀ fuel tag it snap (st : wstate) r st' id,
       id ∉ snap.*1 →
       worker_item fuel c name tag heap it snap st = (r, st') →
       count_obs (is_call_of id) st'.2 = count_obs (is_call_of id) st.2
       ∧ count_obs (is_hook_of id) st'.2 = count_obs (is_hook_of id) st.2)
  ∧ (sb = ∅ →
     ∀ tag it q (st : wstate) x,
       worker_step c name heap sb (WGot tag it, q, st) x →
       x = (WRange tag it [], q, st)
       ∧ worker_step c name heap sb x (WIdle, q, st)).
Proof.
  split; [|split; [|split]].
  - intros tag it q st x Hstep. inversion Hstep as [| |? ? snap ? ? Hperm| | | |]; subst.
    exists snap. split; [done|]. split.
    + rewrite Hperm. apply NoDup_fst_map_to_list.
    + intros id sub. rewrite Hperm. apply elem_of_map_to_list.
  - intros sb' ph q st x Hph Hstep. inversion Hstep; subst.
    + apply ws_recv.
    + apply ws_exit.
    + by destruct (Hph tag it).
    + apply ws_range_done.
    + apply ws_range_next.
    + by apply ws_retry_again.
    + by apply ws_retry_exit.
  - intros fuel tag it snap st r st' id Hid Hrun. by eapply worker_item_other_id.
  - intros -> tag it q st x Hstep.
    inversion Hstep as [| |? ? snap ? ? Hperm| | | |]; subst.
    rewrite map_to_list_empty in Hperm. apply Permutation_nil_r in Hperm as ->.
    split; [done|]. apply ws_range_done.
Qed.

(** ** Topics stay *)

Lemma kept_topic (b b' : memoryBus) n (t : topic) :
  kept b b' → topics b !! n = Some t →
  ∃ t', topics b' !! n = Some t' ∧ ch t' = ch t ∧ pool t' = pool t.
Proof.
  intros (_ & _ & Hnone & Htop) Ht.
  destruct (topics b' !! n) as [t'|] eqn:Ht'.
  - destruct (Htop n t' Ht') as (t0 & [Ht0|(_ & Ht0 & _)] & Hch & Hpool);
      [|congruence].
    exists t'. split; [done|]. split; congruence.
  - apply Hnone in Ht'. congruence.
Qed.

Lemma step_topic_stays s s' name (t : topic) :
  step s s' → topics (sys_bus s) !! name = Some t →
  ∃ t', topics (sys_bus s') !! name = Some t'
        ∧ chan_cap (ch t') = chan_cap (ch t)
        ∧ length (pool t') = length (pool t).
Proof.
  intros Hstep Ht. destruct Hstep; simpl in *; try (by exists t).
  - destruct (kept_topic _ _ _ _ (Subscribe_kept name0 h opts b) Ht)
      as (t' & Ht' & Hch & Hpool). exists t'. by rewrite Hch, Hpool.
  - destruct (kept_topic _ _ _ _ (Unsubscribe_kept s b) Ht)
      as (t' & Ht' & Hch & Hpool). exists t'. by rewrite Hch, Hpool.
  - unfold Close. destruct (closed b); [by exists t|]. simpl.
    rewrite lookup_fmap, Ht. by eexists.
  - match goal with H : publish_prefix _ _ _ _ _ = _ |- _ =>
      apply publish_prefix_kept in H; destruct (kept_topic _ _ _ _ H Ht)
        as (t' & Ht' & Hch & Hpool) end.
    exists t'. by rewrite Hch, Hpool.
  - match goal with H : publish_prefix _ _ _ _ _ = _ |- _ =>
      apply publish_prefix_kept in H; destruct (kept_topic _ _ _ _ H Ht)
        as (t' & Ht' & Hch & Hpool) end.
    exists t'. by rewrite Hch, Hpool.
  - match goal with H : publish_select _ _ _ _ = SelSent _ |- _ =>
      apply publish_select_sent in H as (-> & _ & _) end.
    destruct (decide (name = name0)) as [->|Hne].
    + rewrite lookup_insert_eq. eexists. split; [done|]. simpl.
      split; congruence.
    + rewrite lookup_insert_ne by done. by exists t.
  - match goal with H : worker_step _ _ _ _ _ _ |- _ =>
      apply worker_step_cap in H end.
    destruct (decide (name = name0)) as [->|Hne].
    + rewrite lookup_insert_eq. eexists. split; [done|]. simpl.
      rewrite length_insert. split; congruence.
    + rewrite lookup_insert_ne by done. by exists t.
Qed.


(** ** Delivery *)

Lemma set_pool_set_ch_id (t : topic) i ph :
  pool t !! i = Some ph → set_pool (<[i := ph]> (pool t)) (set_ch (ch t) t) = t.
Proof. intros Hi. unfold set_pool, set_ch. simpl. rewrite list_insert_id by done. by destruct t. Qed.

(** Steps of a worker are steps of the system. *)
Lemma worker_steps_lift name heap can pend next sbs c :
  ∀ x y, rtc (worker_step c name heap sbs) x y →
  ∀ (b : memoryBus) (t : topic) i,
    cfg b = c → topics b !! name = Some t → subs t = sbs →
    pool t !! i = Some x.1.1 → ch t = x.1.2 →
    rtc step (mkSystem b heap can x.2.1 x.2.2 pend next false)
             (mkSystem (set_topic name
                          (set_pool (<[i := y.1.1]> (pool t)) (set_ch y.1.2 t)) b)
                       heap can y.2.1 y.2.2 pend next false).
Proof.
  induction 1 as [[[ph q] [w log]]|[[ph q] [w log]] [[ph1 q1] st1] y Hstep _ IH];
    intros b t i Hcfg Ht Hsubs Hi Hch; simpl in *.
  - subst q. rewrite set_pool_set_ch_id by done. rewrite set_topic_id by done.
    apply rtc_refl.
  - subst q c sbs.
    eapply rtc_l; [by eapply (step_worker b heap can w log pend next name t i ph ph1 q1 st1)|].
    specialize (IH (set_topic name (set_pool (<[i := ph1]> (pool t)) (set_ch q1 t)) b)
                   (set_pool (<[i := ph1]> (pool t)) (set_ch q1 t)) i).
    simpl in IH. rewrite list_insert_insert_eq in IH.
    rewrite set_topic_twice in IH. apply IH; try done.
    + apply lookup_insert_eq.
    + apply list_lookup_insert_eq. by eapply lookup_lt_Some.
Qed.

(** X18.  A queued envelope can be delivered.  In every state in which no
    send has panicked, for a topic with an idle worker and a non-empty
    channel, and with every retry budget registered in the topic below the
    largest [int]: the system can run on to a state in which that worker has
    received the oldest envelope of the channel, has invoked the handler of
    every subscription registered in the topic at least once with that
    envelope, and waits for the next one; the channel has lost exactly that
    envelope, the subscriptions are as they were, and everything logged
    meanwhile is the receipt followed by handler and hook invocations for
    that envelope on that topic. *)
Theorem queued_envelope_can_be_delivered (s : System) (name : string) (t : topic)
    (i : nat) (tag : nat) (it : item) (q' : list (nat * item)) :
  sys_panicked s = false →
  topics (sys_bus s) !! name = Some t →
  pool t !! i = Some WIdle →
  chan_buf (ch t) = (tag, it) :: q' →
  (∀ id sub, subs t !! id = Some sub → (effective_retries sub < max_int)%Z) →
  ∃ s' t' new,
    rtc step s s'
    ∧ topics (sys_bus s') !! name = Some t'
    ∧ chan_buf (ch t') = q'
    ∧ pool t' = pool t
    ∧ subs t' = subs t
    ∧ sys_log s' = new ++ ObsRecv name tag :: sys_log s
    ∧ (∀ id sub, subs t !! id = Some sub → 1 ≤ count_obs (is_call_of id) new)
    ∧ Forall (fun o => ∃ id, call_entry name tag it id o
                             ∨ hook_entry name tag it id o) new.
Proof.
  intros Hnp Ht Hi Hbuf Hbudget.
  destruct s as [b hp can w0 log pend next pan]. simpl in *. subst pan.
  destruct (ch t) as [buf cap cl] eqn:Hch. simpl in Hbuf. subst buf.
  set (snap := map_to_list (subs t)).
  set (fuel := Z.to_nat max_int).
  destruct (worker_item_total (cfg b) name tag hp it fuel snap
              (w0, ObsRecv name tag :: log))
    as (st' & new & Hrun & Hlog & Hcount).
  { intros x Hx. destruct x as [id sub]. apply elem_of_map_to_list in Hx.
    pose proof (Hbudget id sub Hx) as Hlt. simpl. split; [done|].
    unfold fuel. rewrite Z2Nat.id by done. done. }
  pose proof (worker_item_log _ _ _ _ _ _ _ _ _ _ Hrun) as (new' & Hlog' & Hentries).
  assert (new' = new) as ->.
  { rewrite Hlog in Hlog'. by apply app_inv_tail in Hlog'. }
  assert (Hsteps : rtc (worker_step (cfg b) name hp (subs t))
                       (WIdle, ch t, (w0, log))
                       (WIdle, mkChan q' cap cl, st')).
  { rewrite Hch. eapply rtc_l; [apply ws_recv|]. simpl.
    eapply rtc_l; [by apply (ws_snapshot _ _ _ _ tag it snap)|].
    eapply rtc_trans; [by eapply worker_item_steps|].
    apply rtc_once, ws_range_done. }
  pose proof (worker_steps_lift name hp can pend next (subs t) (cfg b) _ _ Hsteps
                b t i eq_refl Ht eq_refl Hi eq_refl) as Hsys.
  simpl in Hsys. rewrite (list_insert_id _ _ _ Hi) in Hsys.
  eexists _, _, new. split; [exact Hsys|]. simpl.
  split; [apply lookup_insert_eq|]. simpl.
  split; [done|]. split; [done|]. split; [done|]. split; [done|]. split; [|done].
  intros id sub Hsub. apply (Hcount (id, sub)). by apply elem_of_map_to_list.
Qed.

(** ** Options *)

Lemma last_cons_default {A} (x d : A) (l : list A) :
  default d (last (x :: l)) = default x (last l).
Proof.
  revert x d. induction l as [|y l IH]; intros x d; [done|].
  change (last (x :: y :: l)) with (last (y :: l)).
  by rewrite (IH y d), (IH y x).
Qed.

Lemma WithRetries_last (ns : list Z) :
  ∀ c, Retries (apply_opts (map WithRetries ns) c)
       = default (Retries c) (last (filter (fun n => 0 < n)%Z ns)).
Proof.
  induction ns as [|n ns IH]; intros c; [done|].
  change (apply_opts (map WithRetries (n :: ns)) c)
    with (apply_opts (map WithRetries ns) (WithRetries n c)).
  rewrite IH, filter_cons. unfold WithRetries.
  destruct (decide (0 < n)%Z) as [Hpos|Hneg].
  - rewrite last_cons_default. apply Z.ltb_lt in Hpos. by rewrite Hpos.
  - apply Z.ltb_nlt in Hneg. by rewrite Hneg.
Qed.

Lemma lib_bus_opts_last opts bs ws hs :
  lib_bus_opts opts bs ws hs →
  ∀ c, apply_opts opts c
       = {| BufferSize := default (BufferSize c) (last (filter (fun n => 0 < n)%Z bs));
            WorkersPerTopic :=
              default (WorkersPerTopic c) (last (filter (fun n => 0 < n)%Z ws));
            OnError := default (OnError c) (last hs) |}.
Proof.
  induction 1 as [|n opts bs ws hs _ IH|n opts bs ws hs _ IH|f opts bs ws hs _ IH];
    intros c.
  - by destruct c.
  - change (apply_opts (WithBuffer n :: opts) c)
      with (apply_opts opts (WithBuffer n c)).
    rewrite IH, filter_cons. unfold WithBuffer.
    destruct (decide (0 < n)%Z) as [Hpos|Hneg].
    + rewrite last_cons_default. apply Z.ltb_lt in Hpos. by rewrite Hpos.
    + apply Z.ltb_nlt in Hneg. by rewrite Hneg.
  - change (apply_opts (WithWorkers n :: opts) c)
      with (apply_opts opts (WithWorkers n c)).
    rewrite IH, filter_cons. unfold WithWorkers.
    destruct (decide (0 < n)%Z) as [Hpos|Hneg].
    + rewrite last_cons_default. apply Z.ltb_lt in Hpos. by rewrite Hpos.
    + apply Z.ltb_nlt in Hneg. by rewrite Hneg.
  - change (apply_opts (WithOnError f :: opts) c)
      with (apply_opts opts (WithOnError f c)).
    rewrite IH. unfold WithOnError. simpl.
    by rewrite last_cons_default.
Qed.

(** X19.  Options compose by "the last valid one wins".  For a bus built
    from options of this package, the buffer size is the last positive
    argument of a [WithBuffer] option, or 64 when there is none; the worker
    count is the last positive argument of a [WithWorkers] option, or 1; the
    error hook is the argument of the last [WithOnError] option, nil
    included, or nil when there is none: an argument that is not positive
    neither sets a value nor resets an earlier one, while [WithOnError(nil)]
    removes a hook set before.  In the same way a subscription made with
    [WithRetries] options is registered with the last positive argument, or
    with 1, and that is the worker's retry budget for it. *)
Theorem last_valid_option_wins (opts : list BusOption) (bs ws : list Z)
    (hs : list (option ErrorHook)) :
  lib_bus_opts opts bs ws hs →
  cfg (NewMemoryBus opts)
  = {| BufferSize := default 64%Z (last (filter (fun n => 0 < n)%Z bs));
       WorkersPerTopic := default 1%Z (last (filter (fun n => 0 < n)%Z ws));
       OnError := default None (last hs) |}
  ∧ (∀ ns name h (b : memoryBus),
       closed b = false →
       ∃ sub t',
         (Subscribe name (Some h) (map WithRetries ns) b).2 = (Some sub, None)
         ∧ topics (Subscribe name (Some h) (map WithRetries ns) b).1 !! name = Some t'
         ∧ subs t' !! sub_id sub
           = Some {| handler := h;
                     config := {| Retries := default 1%Z
                                    (last (filter (fun n => 0 < n)%Z ns)) |} |}
         ∧ effective_retries
             {| handler := h;
                config := {| Retries := default 1%Z
                               (last (filter (fun n => 0 < n)%Z ns)) |} |}
           = default 1%Z (last (filter (fun n => 0 < n)%Z ns))).
Proof.
  intros Hopts. split.
  - unfold NewMemoryBus. simpl. by rewrite (lib_bus_opts_last _ _ _ _ Hopts).
  - intros ns name h b Hopen. rewrite Subscribe_open by done.
    eexists _, _. split; [done|]. simpl. split; [apply lookup_insert_eq|]. simpl.
    rewrite lookup_insert_eq.
    assert (Hcfg : apply_opts (map WithRetries ns) default_SubscribeConfig
                   = {| Retries := default 1%Z (last (filter (fun n => 0 < n)%Z ns)) |}).
    { pose proof (WithRetries_last ns default_SubscribeConfig) as Hr.
      destruct (apply_opts (map WithRetries ns) default_SubscribeConfig) as [r].
      simpl in Hr. by rewrite Hr. }
    rewrite Hcfg. split; [done|].
    unfold effective_retries. simpl.
    assert (Hpos : (0 < default 1 (last (filter (fun n => 0 < n) ns)))%Z).
    { destruct (last (filter (fun n => 0 < n)%Z ns)) as [n|] eqn:Hlast; simpl; [|lia].
      apply last_Some_elem_of in Hlast. by apply list_elem_of_filter in Hlast as [? _]. }
    apply Z.leb_gt in Hpos. by rewrite Hpos.
Qed.

End Bus.

(** * A concrete bus

    The world counts handler and hook invocations. *)

Module Examples.

Definition fail_msg : string := "fail".

(** A handler that always fails, and one that always succeeds. *)
Definition always_fail : @Handler nat :=
  fun _ _ _ w => (Some (ErrorString fail_msg), S w).

Definition always_ok : @Handler nat :=
  fun _ _ _ w => (None, S w).

(** A handler that fails on its first invocation and succeeds afterwards. *)
Definition fail_once : @Handler nat :=
  fun _ _ _ w =>
    match w with
    | O => (Some (ErrorString fail_msg), S w)
    | S _ => (None, S w)
    end.

Definition count_hook : @ErrorHook nat := fun _ _ _ _ _ w => S w.

Definition sub_of (h : @Handler nat) (retries : Z) : @subscription nat :=
  {| handler := h; config := {| Retries := retries |} |}.

Definition topic_t : string := "t".
Definition topic_x : string := "x".

Definition it0 : item := {| item_ctx := Background; item_event := AnyVal TInt 1%Z |}.

Definition cfg_hook : @BusConfig nat :=
  {| BufferSize := 8; WorkersPerTopic := 1; OnError := Some count_hook |}.

(** A scope with a deadline that has not passed: scope 1, not cancelled. *)
Definition ctx_deadline : Context := {| ctx_scope := 1; ctx_headers := None |}.

(** A handler with [retries = 3] that always fails: three invocations, then
    the hook. *)
Example three_failures :
  worker_sub 4 cfg_hook topic_t 0 ∅ it0 (1%Z, sub_of always_fail 3) (0, [])
  = (true,
     (4, [ObsHook topic_t 0 1 Background (AnyVal TInt 1%Z) (ErrorString fail_msg);
          ObsCall topic_t 0 1 Background (AnyVal TInt 1%Z) (Some (ErrorString fail_msg));
          ObsCall topic_t 0 1 Background (AnyVal TInt 1%Z) (Some (ErrorString fail_msg));
          ObsCall topic_t 0 1 Background (AnyVal TInt 1%Z) (Some (ErrorString fail_msg))])).
Proof. reflexivity. Qed.

(** A handler that fails once and then succeeds, with [retries = 2]: two
    invocations, no hook. *)
Example fail_then_succeed :
  worker_sub 2 cfg_hook topic_t 0 ∅ it0 (1%Z, sub_of fail_once 2) (0, [])
  = (true,
     (2, [ObsCall topic_t 0 1 Background (AnyVal TInt 1%Z) None;
          ObsCall topic_t 0 1 Background (AnyVal TInt 1%Z) (Some (ErrorString fail_msg))])).
Proof. reflexivity. Qed.

Definition opts1 : list (@BusOption nat) := [WithWorkers 1].

(** ** A run of the system

    One subscription on topic [t]; a first [Publish] is accepted; a second
    one, under a scope whose deadline then passes, returns through
    [ctx.Done()]; a third one is accepted; the worker delivers the first and
    the third envelope.  [run_log] is the log at the end, newest entry
    first. *)

Definition ev (n : Z) : any := AnyVal TInt n.

Definition run_log : list Obs :=
  [ObsCall topic_t 2 1 Background (ev 5) None;
   ObsRecv topic_t 2;
   ObsCall topic_t 0 1 Background (ev 3) None;
   ObsRecv topic_t 0;
   ObsSent topic_t 2;
   ObsBegin 2 topic_t;
   ObsCancelled 1 DeadlineExceeded;
   ObsBegin 1 topic_t;
   ObsSent topic_t 0;
   ObsBegin 0 topic_t].

Ltac normalise_state :=
  match goal with
  | |- rtc step ?s _ => let s' := eval vm_compute in s in change s with s'
  end.

(** One step of the run: the step's side conditions are computed, and so
    is the state it leads to. *)
Tactic Notation "api_step" open_constr(c) :=
  eapply rtc_l; [eapply c; try (vm_compute; reflexivity)|normalise_state].

Tactic Notation "worker_step_at" constr(name) open_constr(c) :=
  eapply rtc_l;
  [eapply (step_worker _ _ _ _ _ _ _ name _ 0);
   [vm_compute; reflexivity|vm_compute; reflexivity|
    eapply c; try (vm_compute; reflexivity)]|normalise_state].

Lemma run_exists :
  ∃ s t, reachable opts1 ∅ 0 s
         ∧ topics (sys_bus s) !! topic_t = Some t
         ∧ workers t = 1%Z
         ∧ closed (sys_bus s) = false
         ∧ sys_log s = run_log.
Proof.
  eexists _, _. split.
  - unfold reachable, init_system.
    api_step (step_subscribe _ _ _ _ _ _ _ topic_t (Some always_ok) []).
    api_step (step_publish_begin _ _ _ _ _ _ _ None topic_t (ev 3) []).
    api_step (step_select_sent _ _ _ _ _ _ _ 0 topic_t _ _ false).
    api_step (step_publish_begin _ _ _ _ _ _ _ (Some ctx_deadline) topic_t (ev 4) []).
    api_step (step_cancel _ _ _ _ _ _ _ 1 DeadlineExceeded); [lia|by right|].
    api_step (step_select_done _ _ _ _ _ _ _ 1 topic_t _ _ true).
    api_step (step_publish_begin _ _ _ _ _ _ _ None topic_t (ev 5) []).
    api_step (step_select_sent _ _ _ _ _ _ _ 2 topic_t _ _ false).
    worker_step_at topic_t ws_recv.
    worker_step_at topic_t ws_snapshot.
    worker_step_at topic_t ws_range_next.
    worker_step_at topic_t ws_retry_exit.
    worker_step_at topic_t ws_range_done.
    worker_step_at topic_t ws_recv.
    worker_step_at topic_t ws_snapshot.
    worker_step_at topic_t ws_range_next.
    worker_step_at topic_t ws_retry_exit.
    apply rtc_refl.
  - split; [vm_compute; reflexivity|]. split; [reflexivity|].
    split; [reflexivity|]. vm_compute. reflexivity.
Qed.

(** ** The largest retry budget *)

Lemma max_int_effective : effective_retries (sub_of always_fail max_int) = max_int.
Proof. reflexivity. Qed.

(** C1, at the budget [max_int].  With [Retries = math.MaxInt] and a handler
    that never succeeds the retry loop is still running after any number of
    rounds: the handler has been invoked once per round and the hook has not
    been invoked. *)
Theorem max_int_budget_never_exhausted :
  ∀ fuel : nat,
    ∃ st',
      worker_sub fuel cfg_hook topic_t 0 ∅ it0 (1%Z, sub_of always_fail max_int) (0, [])
      = (false, st')
      ∧ count_obs (is_call_of 1) st'.2 = fuel
      ∧ count_obs (is_hook_of 1) st'.2 = 0.
Proof.
  intros fuel. unfold worker_sub.
  change (effective_retries (1%Z, sub_of always_fail max_int).2) with max_int.
  destruct (retry_loop_max_int_runs topic_t 0 ∅ it0 1%Z (sub_of always_fail max_int)
              ltac:(done) fuel 1%Z None (0, []))
    as (st' & Hloop & Hcalls & Hhooks).
  { unfold in_int, min_int, max_int. lia. }
  simpl in Hloop |- *. rewrite Hloop. exists st'. split; [done|].
  rewrite Hcalls, Hhooks. unfold count_obs. simpl. split; [lia|done].
Qed.

(** C6, behind a subscription with budget [max_int].  The worker's pass over
    a snapshot whose first subscription has [Retries = math.MaxInt] and a
    handler that never succeeds has not ended after any number of rounds,
    and the handler of the second subscription has not been invoked. *)
Theorem endless_retries_starve_next_subscription :
  ∀ fuel : nat,
    ∃ st',
      worker_item fuel cfg_hook topic_t 0 ∅ it0
        [(1%Z, sub_of always_fail max_int); (2%Z, sub_of always_ok 1)] (0, [])
      = (false, st')
      ∧ count_obs (is_call_of 2) st'.2 = 0.
Proof.
  intros fuel. simpl. unfold worker_sub.
  change (effective_retries (1%Z, sub_of always_fail max_int).2) with max_int.
  destruct (retry_loop_max_int_runs topic_t 0 ∅ it0 1%Z (sub_of always_fail max_int)
              ltac:(done) fuel 1%Z None (0, []))
    as (st' & Hloop & _ & _).
  { unfold in_int, min_int, max_int. lia. }
  simpl in Hloop |- *. rewrite Hloop. exists st'. split; [done|].
  apply retry_loop_log in Hloop as (new & -> & Hnew). simpl.
  rewrite app_nil_r. by eapply call_entries_other.
Qed.

(** ** Publish on a bus with a small buffer *)

(** C5, as stated, fails.  On a new bus with [WithBuffer(1), WithWorkers(1)]
    a [Publish] to a topic without subscribers, under a scope whose deadline
    has not passed, returns nil with the envelope enqueued, whichever case
    the [select] prefers; [WithBuffer(0)] leaves the capacity 64, and there
    too [Publish] returns nil. *)
Lemma Publish_buffer_one_returns_nil :
  Publish false ∅ 0 (Some ctx_deadline) topic_x (ev 1) []
    (NewMemoryBus (World := nat) [WithBuffer 1; WithWorkers 1], ∅)
  = ((set_topic topic_x
        (set_ch {| chan_buf := [(0, {| item_ctx := ctx_deadline; item_event := ev 1 |})];
                   chan_cap := 1; chan_closed := false |}
                (new_topic {| BufferSize := 1; WorkersPerTopic := 1; OnError := None |}))
        (set_topic topic_x
           (new_topic {| BufferSize := 1; WorkersPerTopic := 1; OnError := None |})
           (NewMemoryBus [WithBuffer 1; WithWorkers 1])), ∅),
     PubReturned None)
  ∧ (Publish true ∅ 0 (Some ctx_deadline) topic_x (ev 1) []
       (NewMemoryBus (World := nat) [WithBuffer 1; WithWorkers 1], ∅)).2
    = PubReturned None
  ∧ BufferSize (cfg (NewMemoryBus (World := nat) [WithBuffer 0])) = 64%Z
  ∧ (Publish true ∅ 0 (Some ctx_deadline) topic_x (ev 1) []
       (NewMemoryBus (World := nat) [WithBuffer 0], ∅)).2
    = PubReturned None.
Proof. repeat split; vm_compute; reflexivity. Qed.

(** ** The theorems at the concrete bus *)

Lemma small_in_int (z : Z) : (0 ≤ z ≤ 1000)%Z → in_int z.
Proof. unfold in_int, min_int, max_int. lia. Qed.

Lemma opts1_lib : Forall LibBusOption opts1.
Proof.
  apply Forall_cons. split; [|apply Forall_nil_2].
  apply lib_WithWorkers, small_in_int. lia.
Qed.

Lemma Publish_fresh_bus_has_room_witness :
  (1 ≤ BufferSize (cfg (NewMemoryBus (World := nat) [WithBuffer 1; WithWorkers 1])))%Z
  ∧ (∃ st' r it,
       Publish false ∅ 0 (Some ctx_deadline) topic_x (ev 1) []
         (NewMemoryBus (World := nat) [WithBuffer 1; WithWorkers 1], ∅)
       = (st', PubReturned r)
       ∧ item_event it = ev 1
       ∧ ((∅ : Cancelled) !! ctx_scope (default Background (Some ctx_deadline)) = None →
          r = None ∧ queue st'.1 topic_x = [(0, it)])
       ∧ (r = None → queue st'.1 topic_x = [(0, it)])
       ∧ (∀ e, r = Some e →
            (∅ : Cancelled) !! ctx_scope (default Background (Some ctx_deadline)) = Some e
            ∧ false = true
            ∧ queue st'.1 topic_x = []))
  ∧ (∀ c x done,
       publish_select false c x done = SelBlocked
       ↔ send_ready c = false ∧ done = None).
Proof.
  apply (Publish_fresh_bus_has_room (World := nat) [WithBuffer 1; WithWorkers 1]
           ∅ false ∅ 0 (Some ctx_deadline) topic_x (ev 1) []).
  apply Forall_cons. split; [apply lib_WithBuffer, small_in_int; lia|].
  apply Forall_cons. split; [apply lib_WithWorkers, small_in_int; lia|].
  apply Forall_nil_2.
Defined.

Lemma single_worker_fifo_witness :
  ∃ s t,
    reachable opts1 ∅ 0 s
    ∧ topics (sys_bus s) !! topic_t = Some t
    ∧ workers t = 1%Z
    ∧ sys_log s = run_log
    ∧ rev (sents topic_t (sys_log s))
      = rev (recvs topic_t (sys_log s)) ++ map fst (chan_buf (ch t))
    ∧ ∀ p1 p2,
        logged_before (ObsSent topic_t p1) (ObsBegin p2 topic_t) (sys_log s) →
        ∀ l1 o2 l2, sys_log s = l1 ++ o2 :: l2 → delivery topic_t p2 o2 →
        ∀ o1, o1 ∈ l1 → ¬ delivery topic_t p1 o1.
Proof.
  destruct run_exists as (s & t & Hreach & Ht & Hw & _ & Hlog).
  exists s, t. split; [exact Hreach|]. split; [exact Ht|]. split; [exact Hw|].
  split; [exact Hlog|].
  exact (single_worker_fifo opts1 ∅ 0 s topic_t t Hreach Ht Hw).
Defined.

Lemma closed_bus_fails_fast_witness :
  let s := mkSystem (Close (NewMemoryBus (World := nat) [])).1 ∅ ∅ 0 [] ∅ 0 false in
  closed (sys_bus s) = true
  ∧ closed (sys_bus s) = true
  ∧ (∀ pick can tag ctx name event opts,
       Publish pick can tag ctx name event opts (sys_bus s, sys_heap s)
       = ((sys_bus s, sys_heap s), PubReturned (Some ErrClosed)))
  ∧ (∀ name h opts,
       Subscribe name (Some h) opts (sys_bus s)
       = (sys_bus s, (None, Some ErrClosed))).
Proof.
  exact (closed_bus_fails_fast (NewMemoryBus (World := nat) [])
           (mkSystem (Close (NewMemoryBus (World := nat) [])).1 ∅ ∅ 0 [] ∅ 0 false)
           (mkSystem (Close (NewMemoryBus (World := nat) [])).1 ∅ ∅ 0 [] ∅ 0 false)
           eq_refl (rtc_refl _ _)).
Defined.


Definition headers1 : gmap string string := {[ "source" := "auth-service" ]}.
Definition heap1 : Heap := {[ 1%positive := headers1 ]}.

Lemma headers1_nonempty : headers1 ≠ ∅.
Proof. apply insert_non_empty. Qed.



Lemma three_is_below_max_int : (Z.of_nat 3 < max_int)%Z.
Proof. unfold max_int. lia. Qed.

Lemma always_fail_fails (k : nat) (w : nat) :
  nth_result ∅ it0 (sub_of always_fail 3) k w ≠ None.
Proof. done. Qed.

Lemma worker_sub_retry_budget_witness :
  ∃ st',
    worker_sub 4 cfg_hook topic_t 0 ∅ it0 (1%Z, sub_of always_fail 3) (0, [])
    = (true, st')
    ∧ count_obs (is_call_of 1) st'.2 = 3
    ∧ count_obs (is_hook_of 1) st'.2 = 1.
Proof.
  destruct (worker_sub_retry_budget cfg_hook topic_t 0 ∅ it0
              (1%Z, sub_of always_fail 3) (0, []) 3 eq_refl three_is_below_max_int)
    as (_ & Hfail & _).
  destruct (Hfail (fun k _ => always_fail_fails k 0)) as (e & _ & Hrun).
  destruct (Hrun 4 ltac:(lia)) as (st' & Heq & Hcalls & Hhook).
  exists st'. split; [exact Heq|]. split; [exact Hcalls|].
  simpl in Hhook. by destruct Hhook as [_ ->].
Defined.

Lemma failures_do_not_stop_dispatch_witness :
  ∃ st' new,
    worker_item 5 cfg_hook topic_t 0 ∅ it0
      [(1%Z, sub_of always_fail 3); (2%Z, sub_of always_ok 1)] (0, [])
    = (true, st')
    ∧ st'.2 = new ++ []
    ∧ 1 ≤ count_obs (is_call_of 1) new
    ∧ 1 ≤ count_obs (is_call_of 2) new.
Proof.
  destruct (failures_do_not_stop_dispatch cfg_hook topic_t 0 ∅ it0
              [(1%Z, sub_of always_fail 3); (2%Z, sub_of always_ok 1)] (0, []) 5)
    as ((st' & new & Heq & Hlog & Hcalls) & _).
  { intros s Hs. apply elem_of_cons in Hs as [->|Hs].
    - split; [apply three_is_below_max_int|done].
    - apply list_elem_of_singleton in Hs as ->. split; done. }
  exists st', new. split; [exact Heq|]. split; [exact Hlog|]. split.
  - apply (Hcalls (1%Z, sub_of always_fail 3)). by left.
  - apply (Hcalls (2%Z, sub_of always_ok 1)). right. by left.
Defined.

(** ** Further inputs *)

(** Two header maps that share a key, and a call that passes both. *)
Definition headers2 : gmap string string := {[ "source" := "billing" ]}.
Definition heap2 : Heap := {[ 1%positive := headers1; 2%positive := headers2 ]}.

Definition opts_two_headers : list PublishOption :=
  [WithHeaders (Some 1%positive); WithKey "p"; WithHeaders None;
   WithHeaders (Some 2%positive)].

(** The bus after a first [Subscribe] on topic [t]. *)
Definition topic_one : @topic nat :=
  {| ch := make_chan 64;
     workers := 1;
     subs := {[ 1%Z := sub_of always_fail 1 ]};
     nextID := 1;
     pool := [WIdle] |}.

Definition bus_one : @memoryBus nat :=
  {| cfg := default_BusConfig; topics := {[ topic_t := topic_one ]};
     closed := false |}.

(** A topic with one subscription, an idle worker and one envelope in its
    channel. *)
Definition topic_queued : @topic nat :=
  {| ch := {| chan_buf := [(0, it0)]; chan_cap := 64; chan_closed := false |};
     workers := 1;
     subs := {[ 1%Z := sub_of always_ok 1 ]};
     nextID := 1;
     pool := [WIdle] |}.

Definition sys_queued : @System nat :=
  mkSystem {| cfg := default_BusConfig; topics := {[ topic_t := topic_queued ]};
              closed := false |}
           ∅ ∅ 0 [] ∅ 1 false.

(** Options of every kind, some with arguments that are not positive. *)
Definition opts_mixed : list (@BusOption nat) :=
  [WithBuffer 8; WithWorkers 2; WithBuffer 0; WithWorkers (-1);
   WithOnError (Some count_hook); WithOnError None].

(** ** Further runs of the system *)

(** One [Publish] that has passed the closed checks and waits at its
    [select]. *)
Lemma waiting_run_exists :
  ∃ s (t : @topic nat) it,
    reachable opts1 ∅ 0 s
    ∧ sys_panicked s = false
    ∧ sys_pending s !! 0 = Some (topic_t, it)
    ∧ topics (sys_bus s) !! topic_t = Some t
    ∧ sys_cancelled s !! ctx_scope (item_ctx it) = None.
Proof.
  eexists _, _, _. split.
  - unfold reachable, init_system.
    api_step (step_publish_begin _ _ _ _ _ _ _ None topic_t (ev 3) []).
    apply rtc_refl.
  - split; [reflexivity|]. split; [vm_compute; reflexivity|].
    split; [vm_compute; reflexivity|]. vm_compute. reflexivity.
Qed.

(** One subscription, one accepted [Publish], then [Close]: the worker
    delivers the envelope and returns. *)
Lemma shutdown_run_exists :
  ∃ s (t : @topic nat),
    reachable opts1 ∅ 0 s
    ∧ closed (sys_bus s) = true
    ∧ topics (sys_bus s) !! topic_t = Some t
    ∧ pool t = [WExit]
    ∧ sys_log s = [ObsCall topic_t 0 1 Background (ev 3) None;
                   ObsRecv topic_t 0; ObsSent topic_t 0; ObsBegin 0 topic_t].
Proof.
  eexists _, _. split.
  - unfold reachable, init_system.
    api_step (step_subscribe _ _ _ _ _ _ _ topic_t (Some always_ok) []).
    api_step (step_publish_begin _ _ _ _ _ _ _ None topic_t (ev 3) []).
    api_step (step_select_sent _ _ _ _ _ _ _ 0 topic_t _ _ false).
    api_step (step_close _ _ _ _ _ _ _).
    worker_step_at topic_t ws_recv.
    worker_step_at topic_t ws_snapshot.
    worker_step_at topic_t ws_range_next.
    worker_step_at topic_t ws_retry_exit.
    worker_step_at topic_t ws_range_done.
    worker_step_at topic_t ws_exit.
    apply rtc_refl.
  - split; [reflexivity|]. split; [vm_compute; reflexivity|].
    split; [reflexivity|]. vm_compute. reflexivity.
Qed.

(** A [Publish] on a bus with one subscription, up to the handler's
    invocation. *)
Lemma delivery_run_exists :
  ∃ s s2 (b' : @memoryBus nat) heap' (t : @topic nat),
    reachable opts1 ∅ 0 s
    ∧ sys_panicked s = false
    ∧ sys_next s = 0
    ∧ publish_prefix None topic_t (ev 3) [] (sys_bus s, sys_heap s)
      = ((b', heap'), inr (t, {| item_ctx := Background; item_event := ev 3 |}))
    ∧ rtc step
        (mkSystem b' heap' (sys_cancelled s) (sys_world s)
           (ObsBegin (sys_next s) topic_t :: sys_log s)
           (<[sys_next s := (topic_t, {| item_ctx := Background; item_event := ev 3 |})]>
              (sys_pending s))
           (S (sys_next s)) false)
        s2
    ∧ sys_log s2 = [ObsCall topic_t 0 1 Background (ev 3) None;
                    ObsRecv topic_t 0; ObsSent topic_t 0; ObsBegin 0 topic_t].
Proof.
  eexists _, _, _, _, _. split.
  - unfold reachable, init_system.
    api_step (step_subscribe _ _ _ _ _ _ _ topic_t (Some always_ok) []).
    apply rtc_refl.
  - split; [reflexivity|]. split; [reflexivity|].
    split; [vm_compute; reflexivity|]. split.
    + normalise_state.
      api_step (step_select_sent _ _ _ _ _ _ _ 0 topic_t _ _ false).
      worker_step_at topic_t ws_recv.
      worker_step_at topic_t ws_snapshot.
      worker_step_at topic_t ws_range_next.
      worker_step_at topic_t ws_retry_exit.
      apply rtc_refl.
    + vm_compute. reflexivity.
Qed.

(** A topic outlives the [Unsubscribe] of its only subscription and
    [Close]. *)
Lemma topic_stays_run_exists :
  ∃ s' (t : @topic nat),
    rtc step
      (mkSystem (Subscribe topic_t (Some always_ok) [] (NewMemoryBus opts1)).1
                ∅ ∅ 0 [] ∅ 0 false) s'
    ∧ topics (Subscribe topic_t (Some always_ok) [] (NewMemoryBus opts1)).1 !! topic_t
      = Some t
    ∧ chan_cap (ch t) = 64%Z
    ∧ length (pool t) = 1
    ∧ closed (sys_bus s') = true
    ∧ (∀ t', topics (sys_bus s') !! topic_t = Some t' → subs t' = ∅).
Proof.
  eexists _, _. split.
  - normalise_state.
    api_step (step_unsubscribe _ _ _ _ _ _ _ {| sub_topic := topic_t; sub_id := 1 |}).
    api_step (step_close _ _ _ _ _ _ _).
    apply rtc_refl.
  - split; [vm_compute; reflexivity|]. split; [reflexivity|].
    split; [reflexivity|]. split; [reflexivity|].
    intros t'. vm_compute. by intros [= <-].
Qed.

(** ** The further theorems at the concrete bus *)

Lemma heap1_get : heap_get heap1 (Some 1%positive) = headers1.
Proof. unfold heap_get, heap1. by rewrite lookup_singleton_eq. Qed.

Lemma ContextWithHeaders_round_trip_witness :
  ∃ cp,
    (cp ∉ dom heap1)
    ∧ ctx_scope (ContextWithHeaders Background (Some 1%positive) heap1).1 = 0
    ∧ ctx_headers (ContextWithHeaders Background (Some 1%positive) heap1).1 = Some cp
    ∧ (ContextWithHeaders Background (Some 1%positive) heap1).2
      = <[cp := headers1]> heap1
    ∧ HeadersFrom (ContextWithHeaders Background (Some 1%positive) heap1).1
                  (ContextWithHeaders Background (Some 1%positive) heap1).2
      = (Some cp, true).
Proof.
  destruct (ContextWithHeaders Background (Some 1%positive) heap1)
    as [ctx' heap'] eqn:E.
  destruct (ContextWithHeaders_round_trip _ _ _ _ _ E) as (Hscope & _ & _ & Hcopy & _).
  rewrite heap1_get in Hcopy.
  destruct (Hcopy headers1_nonempty) as (cp & Hfresh & Hctx & Hheap & Hfrom & _).
  exists cp. cbn [fst snd].
  split; [exact Hfresh|]. split; [exact Hscope|]. split; [exact Hctx|].
  split; [exact Hheap|exact Hfrom].
Defined.

Lemma opts_two_headers_lib :
  lib_publish_opts opts_two_headers [Some 1%positive; None; Some 2%positive].
Proof. apply lpo_headers, lpo_key, lpo_headers, lpo_headers, lpo_nil. Qed.

Lemma heap2_valid :
  Forall (valid_ref heap2) [Some 1%positive; None; Some 2%positive].
Proof.
  repeat apply Forall_cons_2; try apply Forall_nil_2; simpl; try done;
    apply elem_of_dom; eexists; vm_compute; reflexivity.
Qed.

Lemma heap2_merged :
  ⋃ (rev (heap_get heap2 <$> [Some 1%positive; None; Some 2%positive]))
  = headers2 ∪ headers1.
Proof. vm_compute. reflexivity. Qed.

Lemma merged_nonempty : headers2 ∪ headers1 ≠ ∅.
Proof. intros H. apply map_positive_l in H. revert H. apply insert_non_empty. Qed.

Lemma Publish_merges_headers_witness :
  ∃ (t : @topic nat) it heap' cp,
    publish_prefix (World := nat) None topic_t (ev 7) opts_two_headers
      (NewMemoryBus [], heap2)
    = (((ensureTopic topic_t (NewMemoryBus [])).1, heap'), inr (t, it))
    ∧ item_event it = ev 7
    ∧ HeadersFrom (item_ctx it) heap' = (Some cp, true)
    ∧ heap' !! cp = Some (headers2 ∪ headers1)
    ∧ (headers2 ∪ headers1) !! "source" = Some "billing"
    ∧ heap' !! 1%positive = Some headers1
    ∧ heap' !! 2%positive = Some headers2.
Proof.
  destruct (Publish_merges_headers (World := nat) None topic_t (ev 7)
              opts_two_headers [Some 1%positive; None; Some 2%positive]
              (NewMemoryBus []) heap2 opts_two_headers_lib heap2_valid eq_refl)
    as (t & it & heap' & Hprefix & Hev & _ & Hkeep & _ & Hmerged).
  rewrite heap2_merged in Hmerged.
  destruct (Hmerged merged_nonempty) as (cp & _ & _ & Hfrom & Hcp).
  exists t, it, heap', cp. split; [exact Hprefix|]. split; [exact Hev|].
  split; [exact Hfrom|]. split; [exact Hcp|]. split; [vm_compute; reflexivity|].
  split.
  - rewrite Hkeep; [vm_compute; reflexivity|].
    apply elem_of_dom; eexists; vm_compute; reflexivity.
  - rewrite Hkeep; [vm_compute; reflexivity|].
    apply elem_of_dom; eexists; vm_compute; reflexivity.
Defined.

Lemma bus_one_is_subscribed :
  Subscribe topic_t (Some always_fail) [] (NewMemoryBus [])
  = (bus_one, (Some {| sub_topic := topic_t; sub_id := 1 |}, None)).
Proof. vm_compute. reflexivity. Qed.

Lemma bus_one_ids (t : @topic nat) :
  topics bus_one !! topic_t = Some t → ids_ok t ∧ (nextID t < max_int)%Z.
Proof.
  unfold bus_one. simpl. rewrite lookup_singleton_eq. intros [= <-].
  split; [|done]. split; [done|]. simpl. intros id Hid.
  rewrite dom_singleton_L in Hid. apply elem_of_singleton in Hid as ->. done.
Qed.


Lemma Subscribe_Unsubscribe_round_trip_witness :
  ∃ t'' : @topic nat,
    topics (Unsubscribe {| sub_topic := topic_t; sub_id := 2 |}
              (Subscribe topic_t (Some always_ok) [] bus_one).1) !! topic_t
    = Some t''
    ∧ subs t'' = {[ 1%Z := sub_of always_fail 1 ]}
    ∧ nextID t'' = 2%Z
    ∧ pool t'' = [WIdle].
Proof.
  destruct (Subscribe_Unsubscribe_round_trip topic_t always_ok [] bus_one
              (Subscribe topic_t (Some always_ok) [] bus_one).1
              {| sub_topic := topic_t; sub_id := 2 |}
              eq_refl bus_one_ids ltac:(vm_compute; reflexivity))
    as (t & t'' & Ht & Hlook & Hsubs & _ & Hpool & _ & Hnext & _).
  assert (Hone : t = topic_one).
  { rewrite Ht. unfold bus_one. simpl. by rewrite lookup_singleton_eq. }
  subst t. exists t''. split; [exact Hlook|].
  split; [exact Hsubs|]. split; [exact Hnext|exact Hpool].
Defined.

Lemma Close_drains_queues_witness :
  ∃ s (t : @topic nat),
    reachable opts1 ∅ 0 s
    ∧ topics (sys_bus s) !! topic_t = Some t
    ∧ pool t = [WExit]
    ∧ closed (sys_bus s) = true
    ∧ chan_closed (ch t) = true
    ∧ chan_buf (ch t) = []
    ∧ ObsCall topic_t 0 1 Background (ev 3) None ∈ sys_log s.
Proof.
  destruct shutdown_run_exists as (s & t & Hreach & Hclosed & Ht & Hpool & Hlog).
  destruct (Close_drains_queues opts1 ∅ 0 s Hreach) as (Hshut & _).
  destruct (Hshut topic_t t Ht) as [Hcl Hexit].
  destruct Hexit as [_ Hempty]; [rewrite Hpool; by left|].
  exists s, t. split; [exact Hreach|]. split; [exact Ht|]. split; [exact Hpool|].
  split; [exact Hclosed|]. split; [by rewrite Hcl|]. split; [exact Hempty|].
  rewrite Hlog. by left.
Defined.



Lemma queue_never_exceeds_buffer_witness :
  ∃ s (t : @topic nat),
    reachable opts1 ∅ 0 s
    ∧ topics (sys_bus s) !! topic_t = Some t
    ∧ chan_cap (ch t) = 64%Z
    ∧ (Z.of_nat (length (chan_buf (ch t))) ≤ 64)%Z
    ∧ length (pool t) = 1
    ∧ length (sents topic_t (sys_log s))
      = length (recvs topic_t (sys_log s)) + length (chan_buf (ch t)).
Proof.
  destruct run_exists as (s & t & Hreach & Ht & _).
  destruct (queue_never_exceeds_buffer opts1 ∅ 0 s topic_t t opts1_lib Hreach Ht)
    as (_ & Hcap & Hlen & Hpool & Hcount & _).
  exists s, t. split; [exact Hreach|]. split; [exact Ht|]. split; [exact Hcap|].
  split; [exact Hlen|]. split; [exact Hpool|exact Hcount].
Defined.

Lemma no_envelope_dispatched_twice_witness :
  ∃ s (t : @topic nat),
    reachable opts1 ∅ 0 s
    ∧ topics (sys_bus s) !! topic_t = Some t
    ∧ sys_log s = run_log
    ∧ NoDup (recvs topic_t (sys_log s))
    ∧ NoDup (in_flight (map phase_tag (pool t)))
    ∧ (∀ o tag, o ∈ sys_log s → delivery topic_t tag o →
         tag ∈ recvs topic_t (sys_log s)).
Proof.
  destruct run_exists as (s & t & Hreach & Ht & _ & _ & Hlog).
  destruct (no_envelope_dispatched_twice opts1 ∅ 0 s topic_t t Hreach Ht)
    as (_ & Hrecv & Hflight & _ & _ & _ & Hdel).
  exists s, t. split; [exact Hreach|]. split; [exact Ht|]. split; [exact Hlog|].
  split; [exact Hrecv|]. split; [exact Hflight|exact Hdel].
Defined.

Lemma handlers_receive_what_was_published_witness :
  ∃ s2 : @System nat,
    ObsCall topic_t 0 1 Background (ev 3) None ∈ sys_log s2
    ∧ ∀ o, o ∈ sys_log s2 → obs_tag o = 0 →
        match o with
        | ObsCall name' _ _ ctx' event' _ | ObsHook name' _ _ ctx' event' _ =>
            name' = topic_t ∧ ctx' = Background ∧ event' = ev 3
        | ObsSent name' _ | ObsRecv name' _ | ObsBegin _ name' => name' = topic_t
        | ObsClosed _ | ObsCancelled _ _ => True
        end.
Proof.
  destruct delivery_run_exists
    as (s & s2 & b' & heap' & t & Hreach & Hnp & Hnext & Hprefix & Hrun & Hlog).
  destruct (handlers_receive_what_was_published opts1 ∅ 0 s s2 None topic_t (ev 3) []
              b' heap' t _ Hreach Hnp Hprefix Hrun)
    as (_ & _ & Hall).
  exists s2. split; [rewrite Hlog; by left|].
  rewrite Hnext in Hall. exact Hall.
Defined.


Lemma topic_queued_budgets id (sub : @subscription nat) :
  subs topic_queued !! id = Some sub → (effective_retries sub < max_int)%Z.
Proof.
  unfold topic_queued. simpl. intros H.
  apply lookup_singleton_Some in H as [_ <-]. done.
Qed.

Lemma queued_envelope_can_be_delivered_witness :
  ∃ s' (t' : @topic nat) new,
    rtc step sys_queued s'
    ∧ topics (sys_bus s') !! topic_t = Some t'
    ∧ chan_buf (ch t') = []
    ∧ pool t' = [WIdle]
    ∧ sys_log s' = new ++ [ObsRecv topic_t 0]
    ∧ 1 ≤ count_obs (is_call_of 1) new.
Proof.
  destruct (queued_envelope_can_be_delivered sys_queued topic_t topic_queued 0 0 it0 []
              eq_refl (lookup_singleton_eq _ _) eq_refl eq_refl topic_queued_budgets)
    as (s' & t' & new & Hrun & Ht' & Hbuf & Hpool & _ & Hlog & Hcalls & _).
  exists s', t', new. split; [exact Hrun|]. split; [exact Ht'|]. split; [exact Hbuf|].
  split; [exact Hpool|]. split; [exact Hlog|].
  apply (Hcalls 1%Z (sub_of always_ok 1)). apply lookup_singleton_eq.
Defined.

Lemma opts_mixed_lib :
  lib_bus_opts opts_mixed [8; 0]%Z [2; -1]%Z [Some count_hook; None].
Proof.
  apply lbo_buffer, lbo_workers, lbo_buffer, lbo_workers, lbo_hook, lbo_hook, lbo_nil.
Qed.

Lemma last_valid_option_wins_witness :
  cfg (NewMemoryBus opts_mixed)
  = {| BufferSize := 8; WorkersPerTopic := 2; OnError := None |}.
Proof.
  exact (proj1 (last_valid_option_wins opts_mixed [8; 0]%Z [2; -1]%Z
                  [Some count_hook; None] opts_mixed_lib)).
Defined.

End Examples.
